(** * Table-file chunk store: binary codec, remote table reader, table editor

    A shallow embedding of
    - the varint codec exercised by [TestUnrolledDecode] (Go's
      [encoding/binary] varints and the unrolled fast-path decoders),
    - the float codec exercised by [TestCodecWriteFloat] and
      [TestCodecReadFloat],
    - the S3 table reader ([newS3TableReader], [ReadAt], [readRange],
      [isConnReset]),
    - the SQL table editor ([tableEditor.Insert], [Update], [Delete],
      [Close]) and the partition iterator of a table,
    together with the properties the specification states about them
    and further properties of the code. *)

From stdpp Require Import gmap.
From Stdlib Require Import String Ascii DecimalString.
From Stdlib Require Import ZArith List Lia Bool.
From Stdlib Require Import PrimFloat FloatOps SpecFloat.
Import ListNotations.

Local Open Scope Z_scope.

(** ** Machine integers

    Go's [uint64] and [int64] are modelled as [Z] with the wrap-around
    written out; a [byte] is a [Z] in [0, 256). *)

Module Int.

Definition wrap64 (x : Z) : Z := x mod 2 ^ 64.

(** [uint64(x)] for an [int64] [x], and [int64(u)] for a [uint64] [u]. *)
Definition to_uint64 (x : Z) : Z := x mod 2 ^ 64.
Definition to_int64 (u : Z) : Z :=
  let r := u mod 2 ^ 64 in if r <? 2 ^ 63 then r else r - 2 ^ 64.

(** [byte(x)]. *)
Definition to_byte (x : Z) : Z := x mod 256.

(** [x << s] and [^x] on [uint64]. *)
Definition shl64 (x s : Z) : Z := wrap64 (Z.shiftl x s).
Definition not64 (x : Z) : Z := wrap64 (Z.lnot x).

Definition is_uint64 (x : Z) : Prop := 0 <= x < 2 ^ 64.
Definition is_int64 (x : Z) : Prop := - 2 ^ 63 <= x < 2 ^ 63.
Definition is_byte (x : Z) : Prop := 0 <= x < 256.

Definition MaxInt64 : Z := 2 ^ 63 - 1.

End Int.

(** ** Varints *)

Module Varint.
Import Int.

Definition MaxVarintLen64 : Z := 10.

(** [binary.PutUvarint]: the bytes written to the front of the buffer;
    the returned count is their number.

<<
	i := 0
	for x >= 0x80 {
		buf[i] = byte(x) | 0x80
		x >>= 7
		i++
	}
	buf[i] = byte(x)
	return i + 1
>>
    A [uint64] leaves the loop after at most nine rounds, which is the
    fuel [PutUvarint] gives it. *)
Fixpoint PutUvarint_loop (fuel : nat) (x : Z) : list Z :=
  match fuel with
  | O => [to_byte x]
  | S fuel' =>
      if 0x80 <=? x
      then Z.lor (to_byte x) 0x80 :: PutUvarint_loop fuel' (Z.shiftr x 7)
      else [to_byte x]
  end.

Definition PutUvarint (x : Z) : list Z := PutUvarint_loop 9 x.

(** [binary.PutVarint]:
<<
	ux := uint64(x) << 1
	if x < 0 {
		ux = ^ux
	}
	return PutUvarint(buf, ux)
>> *)
Definition zigzag (x : Z) : Z :=
  let ux := shl64 (to_uint64 x) 1 in
  if x <? 0 then not64 ux else ux.

Definition PutVarint (x : Z) : list Z := PutUvarint (zigzag x).

(** [binary.Uvarint], the byte-at-a-time decoder (as of Go 1.13; later
    releases stop at the eleventh byte, which makes no difference on a
    buffer whose varint ends within ten):
<<
	var x uint64
	var s uint
	for i, b := range buf {
		if b < 0x80 {
			if i > 9 || i == 9 && b > 1 {
				return 0, -(i + 1) // overflow
			}
			return x | uint64(b)<<s, i + 1
		}
		x |= uint64(b&0x7f) << s
		s += 7
	}
	return 0, 0
>> *)
Fixpoint Uvarint_loop (buf : list Z) (i x s : Z) : Z * Z :=
  match buf with
  | [] => (0, 0)
  | b :: buf' =>
      if b <? 0x80 then
        if (9 <? i) || ((i =? 9) && (1 <? b)) then (0, - (i + 1))
        else (Z.lor x (shl64 b s), i + 1)
      else Uvarint_loop buf' (i + 1) (Z.lor x (shl64 (Z.land b 0x7f) s)) (s + 7)
  end.

Definition Uvarint (buf : list Z) : Z * Z := Uvarint_loop buf 0 0 0.

(** [binary.Varint]:
<<
	ux, n := Uvarint(buf) // ok to continue in presence of error
	x := int64(ux >> 1)
	if ux&1 != 0 {
		x = ^x
	}
	return x, n
>> *)
Definition unzigzag (ux : Z) : Z :=
  let x := to_int64 (Z.shiftr ux 1) in
  if Z.land ux 1 =? 0 then x else Z.lnot x.

Definition Varint (buf : list Z) : Z * Z :=
  let '(ux, n) := Uvarint buf in (unzigzag ux, n).

(** Indexing a slice: [None] is Go's index-out-of-range panic. *)
Definition idx (buf : list Z) (i : nat) : option Z := nth_error buf i.

Notation "'let?' x ':=' e 'in' k" :=
  (match e with Some x => k | None => None end)
  (at level 10, x name, e at level 100, k at level 200, only parsing).

(** Modelled from the spec: [unrolledDecodeUVarint], whose source is not
    part of the files at hand (only its test and benchmark are).  The
    spec asks for a decode path without a per-byte loop that has one arm
    per terminal length, each computing the accumulated value and the
    byte length.  It names the lengths 1 to 9; [TestUnrolledDecode]
    decodes values up to [0xFFFFFFFFFFFFFFFF] from a ten-byte buffer and
    requires the size [binary.PutUvarint] returned, so the path has a
    tenth arm, which accepts the only tenth byte a [uint64] can end in. *)
Definition unrolledDecodeUVarint (buf : list Z) : option (Z * Z) :=
  let? b := idx buf 0 in
  if b <? 0x80 then Some (b, 1) else
  let x := Z.land b 0x7f in
  let? b := idx buf 1 in
  if b <? 0x80 then Some (Z.lor x (shl64 b 7), 2) else
  let x := Z.lor x (shl64 (Z.land b 0x7f) 7) in
  let? b := idx buf 2 in
  if b <? 0x80 then Some (Z.lor x (shl64 b 14), 3) else
  let x := Z.lor x (shl64 (Z.land b 0x7f) 14) in
  let? b := idx buf 3 in
  if b <? 0x80 then Some (Z.lor x (shl64 b 21), 4) else
  let x := Z.lor x (shl64 (Z.land b 0x7f) 21) in
  let? b := idx buf 4 in
  if b <? 0x80 then Some (Z.lor x (shl64 b 28), 5) else
  let x := Z.lor x (shl64 (Z.land b 0x7f) 28) in
  let? b := idx buf 5 in
  if b <? 0x80 then Some (Z.lor x (shl64 b 35), 6) else
  let x := Z.lor x (shl64 (Z.land b 0x7f) 35) in
  let? b := idx buf 6 in
  if b <? 0x80 then Some (Z.lor x (shl64 b 42), 7) else
  let x := Z.lor x (shl64 (Z.land b 0x7f) 42) in
  let? b := idx buf 7 in
  if b <? 0x80 then Some (Z.lor x (shl64 b 49), 8) else
  let x := Z.lor x (shl64 (Z.land b 0x7f) 49) in
  let? b := idx buf 8 in
  if b <? 0x80 then Some (Z.lor x (shl64 b 56), 9) else
  let x := Z.lor x (shl64 (Z.land b 0x7f) 56) in
  let? b := idx buf 9 in
  if b =? 1 then Some (Z.lor x (shl64 1 63), 10) else
  Some (0, -10).

(** Modelled from the spec: [unrolledDecodeVarint] (source not at hand),
    the fast path followed by the zig-zag step of [binary.Varint]. *)
Definition unrolledDecodeVarint (buf : list Z) : option (Z * Z) :=
  let? r := unrolledDecodeUVarint buf in
  let '(ux, n) := r in Some (unzigzag ux, n).

(** [binary.PutUvarint(buf, x)] on a buffer: the buffer afterwards and
    the count returned; [None] is the index-out-of-range panic of a
    buffer shorter than the encoding. *)
Definition PutUvarint_into (buf : list Z) (x : Z) : option (list Z * Z) :=
  let enc := PutUvarint x in
  if (length enc <=? length buf)%nat
  then Some (enc ++ skipn (length enc) buf, Z.of_nat (length enc))
  else None.

(** The entries [BenchmarkUnrolledDecodeUVarint] prepares, for the
    index [i] and the number [r] that [r.Uint64()] yields:
<<
	type ve struct {
		val      uint64
		encoding []byte
	}
	...
		var min uint64
		for j := 0; j < i%9; j++ {
			min = min<<7 | 0x80
		}

		val := min + r.Uint64()&0x7f
		buf := make([]byte, 9)
		size := binary.PutUvarint(buf, val)
		require.Equal(b, i%9+1, size, ...)

		toDecode[i] = ve{val, buf}
>>
    [toDecode] gives the entry together with [size]. *)
Record ve : Type := mkVe { val : Z; encoding : list Z }.

Definition toDecode_min (i : nat) : Z :=
  Nat.iter (i mod 9) (fun min => Z.lor (shl64 min 7) 0x80) 0.

Definition toDecode (i : nat) (r : Z) : option (ve * Z) :=
  let val := wrap64 (toDecode_min i + Z.land r 0x7f) in
  let? res := PutUvarint_into (repeat 0 9) val in
  Some ({| val := val; encoding := fst res |}, snd res).

End Varint.

(** ** The float codec

    A [float64] is a [spec_float] (the Standard Library's IEEE-754
    values: signed zeros, infinities, NaN, and finite numbers
    [(-1)^s * m * 2^e]) that is valid for binary64. *)

Module Codec.
Import Int Varint.

Definition prec : Z := 53.
Definition emax : Z := 1024.

Definition is_float64 (f : spec_float) : Prop := valid_binary prec emax f = true.

Definition is_finite (f : spec_float) : bool :=
  match f with
  | S754_zero _ | S754_finite _ _ _ => true
  | S754_infinity _ | S754_nan => false
  end.

(** The float a Go literal denotes. *)
Definition float64_of (f : float) : spec_float := Prim2SF f.

(** Modelled from the spec: [binaryNomsWriter] (the codec's source is
    not at hand, only its tests): the bytes written so far. *)
Definition binaryNomsWriter : Type := list Z.

(** Modelled from the spec: [binaryNomsReader] (source not at hand): the
    buffer and the read offset, as [TestCodecReadFloat] builds and
    inspects it. *)
Record binaryNomsReader : Type := mkReader { buff : list Z; offset : Z }.

(** Modelled from the spec: [newBinaryNomsWriter] (source not at hand):
    nothing is written yet. *)
Definition newBinaryNomsWriter : binaryNomsWriter := [].

(** Modelled from the spec: [w.data()] (source not at hand): the bytes
    written. *)
Definition data (w : binaryNomsWriter) : list Z := w.

(** Modelled from the spec: the normalization of a mantissa (source not
    at hand): the trailing zero bits are shifted into the exponent,
    which leaves the smallest odd mantissa of the same value. *)
Fixpoint odd_mantissa (m : positive) (e : Z) : positive * Z :=
  match m with
  | xO p => odd_mantissa p (e + 1)
  | _ => (m, e)
  end.

(** Modelled from the spec: the pair (mantissa, exponent) a float is
    written as (source not at hand).  The value equals
    [mantissa * 2^exponent]; the mantissa is the smallest odd integer,
    or zero; the value 0 is the pair (0, 0).  Infinities and NaN have no
    pair. *)
Definition float64ToIntExp (f : spec_float) : option (Z * Z) :=
  match f with
  | S754_zero _ => Some (0, 0)
  | S754_finite s m e =>
      let '(m', e') := odd_mantissa m e in
      Some (if s then Zneg m' else Zpos m', e')
  | S754_infinity _ | S754_nan => None
  end.

(** Modelled from the spec: the float whose value is [frac * 2^exp]
    (source not at hand), rounded to binary64 where it is not one. *)
Definition fracExpToFloat (frac exp : Z) : spec_float :=
  binary_normalize prec emax frac exp false.

(** Modelled from the spec: [writeInt] (source not at hand): a signed
    integer is written as its zig-zag varint, [2*n] for [n >= 0] and
    [2*(-n) - 1] for [n < 0]. *)
Definition writeInt (w : binaryNomsWriter) (v : Z) : binaryNomsWriter :=
  w ++ PutVarint v.

(** Modelled from the spec: [readInt] (source not at hand): a signed
    integer is read through the fast-path decoder, and the offset
    advances by the count of bytes it consumed. *)
Definition readInt (r : binaryNomsReader) : option (Z * binaryNomsReader) :=
  let? res := unrolledDecodeVarint (skipn (Z.to_nat (offset r)) (buff r)) in
  let '(v, count) := res in
  Some (v, {| buff := buff r; offset := offset r + count |}).

(** Modelled from the spec: [writeFloat] (source not at hand) emits two
    varints, the zig-zagged mantissa and then the zig-zagged exponent;
    a float that is not finite has no encoding. *)
Definition writeFloat (w : binaryNomsWriter) (f : spec_float) : option binaryNomsWriter :=
  match float64ToIntExp f with
  | Some (i, exp) => Some (writeInt (writeInt w i) exp)
  | None => None
  end.

(** Modelled from the spec: [readFloat] (source not at hand) reads the
    two varints back and rebuilds the float. *)
Definition readFloat (r : binaryNomsReader) : option (spec_float * binaryNomsReader) :=
  let? r1 := readInt r in
  let? r2 := readInt (snd r1) in
  Some (fracExpToFloat (fst r1) (fst r2), snd r2).

(** The closure [test] of [TestCodecWriteFloat]: the bytes of a fresh
    writer after [writeFloat].
<<
		w := newBinaryNomsWriter()
		w.writeFloat(Float(f), Format_7_18)
		assert.Equal(t, exp, w.data())
>> *)
Definition encodeFloat (f : spec_float) : option (list Z) :=
  option_map data (writeFloat newBinaryNomsWriter f).

(** The closure [test] of [TestCodecReadFloat]: the float read from the
    start of the bytes, and the offset after it.
<<
		r := binaryNomsReader{buff: data}
		n := r.readFloat(Format_7_18)
		assert.Equal(t, exp, n)
		assert.Equal(t, len(data), int(r.offset))
>> *)
Definition decodeFloat (bytes : list Z) : option (spec_float * Z) :=
  let? res := readFloat {| buff := bytes; offset := 0 |} in
  Some (fst res, offset (snd res)).

End Codec.

(** ** The S3 table reader *)

Module S3.
Import Int.

(** *** Declarations the reader uses from the rest of package [nbs]

    [addr] and its [String] method, [tableIndex], [indexSize],
    [footerSize], [parseTableIndex] and the chunk count of the
    [tableReader] built by [newTableReader] are declared in files that
    are not at hand; the reader is modelled over any such declarations.
    [parseTableIndex] returns [None] where it panics. *)
Class NBS : Type := {
  addr : Type;
  addr_eq_dec :: EqDecision addr;
  addr_countable :: Countable addr;
  addr_String : addr -> string;
  tableIndex : Type;
  indexSize : Z -> Z;
  footerSize : Z;
  parseTableIndex : list Z -> option tableIndex;
  index_chunkCount : tableIndex -> Z
}.

Definition s3RangePrefix : string := "bytes".
Definition s3BlockSize : Z := (2 ^ 10) * 512.

(** [fmt.Sprintf("%d", z)]. *)
Definition fmt_d (z : Z) : string := NilZero.string_of_int (Z.to_int z).

(** *** Errors *)

Inductive error : Type :=
| NetOpError (Err : error)        (* *net.OpError{Err: ...} *)
| OsSyscallError (Err : error)    (* *os.SyscallError{Err: ...} *)
| Errno (n : Z)                   (* syscall.Errno *)
| ErrUnexpectedEOF                (* io.ErrUnexpectedEOF *)
| EOF                             (* io.EOF *)
| OtherError (msg : string).

Definition ECONNRESET : Z := 104.

(**
<<
func isConnReset(err error) bool {
	nErr, ok := err.( *net.OpError)
	if !ok {
		return false
	}
	scErr, ok := nErr.Err.( *os.SyscallError)
	return ok && scErr.Err == unix.ECONNRESET
}
>> *)
Definition isConnReset (err : option error) : bool :=
  match err with
  | Some (NetOpError nErr) =>
      match nErr with
      | OsSyscallError (Errno n) => n =? ECONNRESET
      | _ => false
      end
  | _ => false
  end.

(** *** The object store *)

Record GetObjectInput : Type := mkInput { Bucket : string; Key : string; Range : string }.

(** A response body: the bytes the stream delivers, and how it ends
    after them: with [io.EOF] ([None]) or with a read error. *)
Record ReadCloser : Type := mkBody { delivered : list Z; failure : option error }.

Record GetObjectOutput : Type := mkOutput { ContentLength : option Z; Body : ReadCloser }.

(** The outcome of the k-th [GetObject] request made to a service. *)
Definition s3svc : Type := nat -> GetObjectInput -> GetObjectOutput + error.

(** [io.ReadFull(r, p)]: the count and the error depend on the body and
    on [len(p)] only;
<<
	for n < min && err == nil {
		var nn int
		nn, err = r.Read(buf[n:])
		n += nn
	}
	if n >= min {
		err = nil
	} else if n > 0 && err == EOF {
		err = ErrUnexpectedEOF
	}
>> *)
Definition ReadFull (r : ReadCloser) (len_p : nat) : Z * option error :=
  let n := Nat.min len_p (length (delivered r)) in
  if (len_p <=? n)%nat then (Z.of_nat n, None)
  else
    let err := match failure r with Some e => e | None => EOF end in
    (Z.of_nat n,
     Some match err with
          | EOF => if (0 <? n)%nat then ErrUnexpectedEOF else EOF
          | e => e
          end).

(** The contents of [p] after [io.ReadFull(r, p)]. *)
Definition ReadFull_fill (r : ReadCloser) (p : list Z) : list Z :=
  let n := Nat.min (length p) (length (delivered r)) in
  firstn n (delivered r) ++ skipn n p.

(** *** The world the reader runs in *)

(** A buffered [chan struct{}]: its capacity and the number of elements
    queued in it. *)
Record chan : Type := mkChan { cap : nat; queued : nat }.

Section World.
Context `{NBS}.

Inductive event : Type :=
| EvSend                                         (* s3tr.readRl <- struct{}{} *)
| EvReceive                                      (* <-s3tr.readRl *)
| EvGetObject (input : GetObjectInput)           (* s3tr.s3.GetObject(input) *)
| EvFailedRead (input : GetObjectInput) (err : error)
                                                 (* "Failed ranged read from S3" on stderr *)
| EvRetrying (dur : Z)                           (* "Retrying S3 read in %s" on stderr *)
| EvSleep (dur : Z)                              (* time.Sleep(dur) *)
| EvCacheGet (h : addr)                          (* indexCache.get(h) *)
| EvCachePut (h : addr) (index : tableIndex).    (* indexCache.put(h, index) *)

(** The shared state: the number of [GetObject] requests made so far,
    the rate-limit channel [readRl] and the index cache ([None] where
    the pointer is [nil]), the number of random draws made so far and
    the random source they come from, and the trace of what happened,
    oldest first. *)
Record world : Type := mkWorld {
  requests : nat;
  readRl : option chan;
  indexCache : option (gmap addr tableIndex);
  draws : nat;
  rand : nat -> Z;
  trace : list event
}.

Inductive panic_value : Type :=
| PanicError (err : error)      (* d.PanicIfError(err) *)
| PanicFalse                    (* d.PanicIfFalse(false) *)
| PanicNilDereference           (* runtime error: nil pointer dereference *)
| PanicParse.                   (* a panic inside parseTableIndex *)

(** How a run ends: it returns, it panics, it blocks on a channel
    operation no other goroutine of the model completes, or the fuel of
    a loop is spent before the loop is left. *)
Inductive outcome (A : Type) : Type :=
| Returned (a : A)
| Panicked (v : panic_value)
| Blocked
| OutOfFuel.
#[global] Arguments Returned {A} a.
#[global] Arguments Panicked {A} v.
#[global] Arguments Blocked {A}.
#[global] Arguments OutOfFuel {A}.

Definition M (A : Type) : Type := world -> outcome A * world.

Definition ret {A} (a : A) : M A := fun w => (Returned a, w).

Definition bind {A B} (m : M A) (k : A -> M B) : M B :=
  fun w =>
    match m w with
    | (Returned a, w') => k a w'
    | (Panicked v, w') => (Panicked v, w')
    | (Blocked, w') => (Blocked, w')
    | (OutOfFuel, w') => (OutOfFuel, w')
    end.

Definition panic {A} (v : panic_value) : M A := fun w => (Panicked v, w).

(** [defer d; body]: [d] runs when [body] returns and when it panics. *)
Definition defer {A} (d : M unit) (body : M A) : M A :=
  fun w =>
    match body w with
    | (Returned a, w') => bind d (fun _ => ret a) w'
    | (Panicked v, w') => bind d (fun _ => panic v) w'
    | (Blocked, w') => (Blocked, w')
    | (OutOfFuel, w') => (OutOfFuel, w')
    end.

Definition emit (e : event) : M unit :=
  fun w => (Returned tt,
            {| requests := requests w; readRl := readRl w; indexCache := indexCache w;
               draws := draws w; rand := rand w; trace := trace w ++ [e] |}).

(** [d.PanicIfError] and [d.PanicIfFalse]. *)
Definition PanicIfError (err : option error) : M unit :=
  match err with Some e => panic (PanicError e) | None => ret tt end.

Definition PanicIfFalse (b : bool) : M unit :=
  if b then ret tt else panic PanicFalse.

End World.

Notation "x <- m ;; k" := (bind m (fun x => k))
  (at level 100, m at next level, right associativity).
Notation "m ;; k" := (bind m (fun _ => k))
  (at level 100, right associativity).

Section Reader.
Context `{NBS}.

(** *** Channels and the service *)

Definition set_readRl (c : chan) (e : event) (w : world) : world :=
  {| requests := requests w; readRl := Some c; indexCache := indexCache w;
     draws := draws w; rand := rand w; trace := trace w ++ [e] |}.

(** [s3tr.readRl <- struct{}{}]: blocks while the channel is full. *)
Definition chan_send : M unit :=
  fun w =>
    match readRl w with
    | Some c =>
        if (queued c <? cap c)%nat
        then (Returned tt, set_readRl {| cap := cap c; queued := S (queued c) |} EvSend w)
        else (Blocked, w)
    | None => (Blocked, w)
    end.

(** [<-s3tr.readRl]: blocks while the channel is empty. *)
Definition chan_receive : M unit :=
  fun w =>
    match readRl w with
    | Some c =>
        match queued c with
        | S q => (Returned tt, set_readRl {| cap := cap c; queued := q |} EvReceive w)
        | O => (Blocked, w)
        end
    | None => (Blocked, w)
    end.

Definition GetObject (svc : s3svc) (input : GetObjectInput) : M (GetObjectOutput + error) :=
  fun w =>
    (Returned (svc (requests w) input),
     {| requests := S (requests w); readRl := readRl w; indexCache := indexCache w;
        draws := draws w; rand := rand w; trace := trace w ++ [EvGetObject input] |}).

(** *** github.com/jpillora/backoff

    The library computes the delay in [float64]; the model computes it
    exactly and truncates once.  A [time.Duration] counts nanoseconds;
    [rand.Float64()] is the fraction [r / 2^53] for the integer [r] the
    random source yields. *)

Definition Microsecond : Z := 1000.
Definition Millisecond : Z := 1000 * Microsecond.
Definition Second : Z := 1000 * Millisecond.

Record Backoff : Type := mkBackoff {
  attempt : nat; Factor : Z; Jitter : bool; Min : Z; Max : Z
}.

(**
<<
	min := b.Min
	if min <= 0 { min = 100 * time.Millisecond }
	max := b.Max
	if max <= 0 { max = 10 * time.Second }
	if min >= max { return max }
	factor := b.Factor
	if factor <= 0 { factor = 2 }
	minf := float64(min)
	durf := minf * math.Pow(factor, attempt)
	if b.Jitter { durf = rand.Float64()*(durf-minf) + minf }
	if durf > maxInt64 { return max }
	dur := time.Duration(durf)
	if dur < min { return min }
	if dur > max { return max }
	return dur
>> *)
Definition ForAttempt (b : Backoff) (attempt : nat) (r : Z) : Z :=
  let min := if Min b <=? 0 then 100 * Millisecond else Min b in
  let max := if Max b <=? 0 then 10 * Second else Max b in
  if max <=? min then max else
  let factor := if Factor b <=? 0 then 2 else Factor b in
  let durf := min * factor ^ Z.of_nat attempt in
  let durf := if Jitter b then r * (durf - min) / 2 ^ 53 + min else durf in
  if MaxInt64 <? durf then max else
  if durf <? min then min else
  if max <? durf then max else durf.

(** Whether [ForAttempt] reaches its call of [rand.Float64()]. *)
Definition draws_random (b : Backoff) : bool :=
  let min := if Min b <=? 0 then 100 * Millisecond else Min b in
  let max := if Max b <=? 0 then 10 * Second else Max b in
  negb (max <=? min) && Jitter b.

(** [b.Duration()]: the delay for the current attempt; the attempt
    counter goes up by one.
<<
	d := b.ForAttempt(b.attempt)
	b.attempt++
	return d
>> *)
Definition Duration (b : Backoff) : M (Z * Backoff) :=
  fun w =>
    (Returned (ForAttempt b (attempt b) (rand w (draws w)),
               {| attempt := S (attempt b); Factor := Factor b; Jitter := Jitter b;
                  Min := Min b; Max := Max b |}),
     {| requests := requests w; readRl := readRl w; indexCache := indexCache w;
        draws := if draws_random b then S (draws w) else draws w;
        rand := rand w; trace := trace w |}).

(** *** The reader *)

(** Modelled from the spec: [tableReader] (declared in a file that is
    not at hand) wraps a table index, a byte source and a block size;
    the byte source is the reader it is embedded in. *)
Record tableReader : Type := mkTableReader { tr_index : tableIndex; tr_blockSize : Z }.

(** Modelled from the spec: [newTableReader(index, source, blockSize)]
    (declared in a file that is not at hand). *)
Definition newTableReader (index : tableIndex) (blockSize : Z) : tableReader :=
  {| tr_index := index; tr_blockSize := blockSize |}.

(** The reader's [readRl] field is the channel of the world, [None]
    where it is [nil]. *)
Record s3TableReader : Type := mkS3TableReader {
  s3tr_tableReader : option tableReader;
  s3 : s3svc;
  bucket : string;
  h : addr
}.

Definition hash (s3tr : s3TableReader) : addr := h s3tr.

(** Modelled from the spec: [count()], a method of the embedded
    [tableReader] (declared in a file that is not at hand): the chunk
    count the index records; 0 for the zero value, before the
    [tableReader] is set. *)
Definition count (s3tr : s3TableReader) : Z :=
  match s3tr_tableReader s3tr with
  | Some tr => index_chunkCount (tr_index tr)
  | None => 0
  end.

(** The closure [read] of [readRange]:
<<
		if s3tr.readRl != nil {
			s3tr.readRl <- struct{}{}
			defer func() {
				<-s3tr.readRl
			}()
		}
		input := &s3.GetObjectInput{ Bucket: ..., Key: ..., Range: ... }
		result, err := s3tr.s3.GetObject(input)
		d.PanicIfError(err)
		d.PanicIfFalse( *result.ContentLength == int64(len(p)))
		n, err := io.ReadFull(result.Body, p)
		if err != nil {
			fmt.Fprintf(os.Stderr, "Failed ranged read from S3 ...")
		}
		return n, err
>>
    It returns the count, the error and the contents of [p]. *)
Definition read_request (s3tr : s3TableReader) (p : list Z) (rangeHeader : string)
  : M (Z * option error * list Z) :=
  let input := {| Bucket := bucket s3tr; Key := addr_String (hash s3tr);
                  Range := rangeHeader |} in
  res <- GetObject (s3 s3tr) input ;;
  match res with
  | inr err => panic (PanicError err)
  | inl result =>
      match ContentLength result with
      | None => panic PanicNilDereference
      | Some contentLength =>
          PanicIfFalse (contentLength =? Z.of_nat (length p)) ;;
          let '(n, err) := ReadFull (Body result) (length p) in
          match err with
          | Some e => emit (EvFailedRead input e)
          | None => ret tt
          end ;;
          ret (n, err, ReadFull_fill (Body result) p)
      end
  end.

Definition read (s3tr : s3TableReader) (p : list Z) (rangeHeader : string)
  : M (Z * option error * list Z) :=
  fun w =>
    match readRl w with
    | Some _ => (chan_send ;; defer chan_receive (read_request s3tr p rangeHeader)) w
    | None => read_request s3tr p rangeHeader w
    end.

(**
<<
	n, err = read()
	if isConnReset(err) {
		b := &backoff.Backoff{
			Min:    128 * time.Microsecond,
			Max:    1024 * time.Millisecond,
			Factor: 2,
			Jitter: true,
		}
		for ; isConnReset(err); n, err = read() {
			dur := b.Duration()
			fmt.Fprintf(os.Stderr, "Retrying S3 read in %s\n", dur.String())
			time.Sleep(dur)
		}
	}
	return
>> *)
Definition readRange_backoff : Backoff :=
  {| attempt := 0; Factor := 2; Jitter := true;
     Min := 128 * Microsecond; Max := 1024 * Millisecond |}.

Fixpoint retry_loop (fuel : nat) (s3tr : s3TableReader) (rangeHeader : string)
    (b : Backoff) (n : Z) (err : option error) (p : list Z)
  : M (Z * option error * list Z) :=
  if isConnReset err then
    match fuel with
    | O => fun w => (OutOfFuel, w)
    | S fuel' =>
        d <- Duration b ;;
        emit (EvRetrying (fst d)) ;;
        emit (EvSleep (fst d)) ;;
        r <- read s3tr p rangeHeader ;;
        retry_loop fuel' s3tr rangeHeader (snd d) (fst (fst r)) (snd (fst r)) (snd r)
    end
  else ret (n, err, p).

Definition readRange (fuel : nat) (s3tr : s3TableReader) (p : list Z) (rangeHeader : string)
  : M (Z * option error * list Z) :=
  r <- read s3tr p rangeHeader ;;
  if isConnReset (snd (fst r))
  then retry_loop fuel s3tr rangeHeader readRange_backoff (fst (fst r)) (snd (fst r)) (snd r)
  else ret r.

(**
<<
	end := off + int64(len(p)) - 1
	rangeHeader := fmt.Sprintf("%s=%d-%d", s3RangePrefix, off, end)
	return s3tr.readRange(p, rangeHeader)
>> *)
Definition ReadAt_end (len_p : nat) (off : Z) : Z :=
  to_int64 (to_int64 (off + Z.of_nat len_p) - 1).

Definition ReadAt_rangeHeader (len_p : nat) (off : Z) : string :=
  (s3RangePrefix ++ "=" ++ fmt_d off ++ "-" ++ fmt_d (ReadAt_end len_p off))%string.

Definition ReadAt (fuel : nat) (s3tr : s3TableReader) (p : list Z) (off : Z)
  : M (Z * option error * list Z) :=
  readRange fuel s3tr p (ReadAt_rangeHeader (length p) off).

(** Modelled from the spec: [indexCache.get(h)] (the cache is declared
    in a file that is not at hand): a key-value cache from table hash
    to parsed index; a lookup finds the index or nothing.  It is called
    where [indexCache != nil]. *)
Definition indexCache_get (h : addr) : M (option tableIndex) :=
  fun w =>
    match indexCache w with
    | Some c => bind (emit (EvCacheGet h)) (fun _ => ret (c !! h)) w
    | None => (Returned None, w)
    end.

(** Modelled from the spec: [indexCache.put(h, index)] (declared in a
    file that is not at hand): the index becomes the entry of the table
    hash.  It is called where [indexCache != nil]. *)
Definition indexCache_put (h : addr) (index : tableIndex) : M unit :=
  fun w =>
    match indexCache w with
    | Some c =>
        (Returned tt,
         {| requests := requests w; readRl := readRl w;
            indexCache := Some (<[h := index]> c);
            draws := draws w; rand := rand w; trace := trace w ++ [EvCachePut h index] |})
    | None => (Returned tt, w)
    end.

Definition newS3TableReader_size (chunkCount : Z) : Z :=
  wrap64 (indexSize chunkCount + footerSize).

Definition newS3TableReader_rangeHeader (chunkCount : Z) : string :=
  (s3RangePrefix ++ "=-" ++ fmt_d (newS3TableReader_size chunkCount))%string.

(**
<<
	source := &s3TableReader{s3: s3, bucket: bucket, h: h, readRl: readRl}
	var index tableIndex
	found := false
	if indexCache != nil {
		index, found = indexCache.get(h)
	}
	if !found {
		size := indexSize(chunkCount) + footerSize
		buff := make([]byte, size)
		n, err := source.readRange(buff, fmt.Sprintf("%s=-%d", s3RangePrefix, size))
		d.PanicIfError(err)
		d.PanicIfFalse(size == uint64(n))
		index = parseTableIndex(buff)
		if indexCache != nil {
			indexCache.put(h, index)
		}
	}
	source.tableReader = newTableReader(index, source, s3BlockSize)
	d.PanicIfFalse(chunkCount == source.count())
	return source
>>
    The arguments [indexCache] and [readRl] are those of the world. *)
Definition newS3TableReader (fuel : nat) (s3 : s3svc) (bucket : string) (h : addr)
    (chunkCount : Z) : M s3TableReader :=
  let source := {| s3tr_tableReader := None; s3 := s3; bucket := bucket; h := h |} in
  found <- indexCache_get h ;;
  index <- match found with
           | Some index => ret index
           | None =>
               let size := newS3TableReader_size chunkCount in
               let buff := repeat 0 (Z.to_nat size) in
               r <- readRange fuel source buff (newS3TableReader_rangeHeader chunkCount) ;;
               PanicIfError (snd (fst r)) ;;
               PanicIfFalse (size =? to_uint64 (fst (fst r))) ;;
               match parseTableIndex (snd r) with
               | None => panic PanicParse
               | Some index => indexCache_put h index ;; ret index
               end
           end ;;
  let source := {| s3tr_tableReader := Some (newTableReader index s3BlockSize);
                   s3 := s3; bucket := bucket; h := h |} in
  PanicIfFalse (chunkCount =? count source) ;;
  ret source.

(** [close]: <<return nil>> *)
Definition close (s3tr : s3TableReader) : option error := None.

(** *** Vocabulary for statements about runs *)

(** How one attempt ends, as a function of the response to its request
    and of [len(p)]. *)
Inductive attempt_result : Type :=
| AttemptPanics (v : panic_value)
| AttemptReturns (n : Z) (err : option error).

Definition attempt_of (res : GetObjectOutput + error) (len_p : nat) : attempt_result :=
  match res with
  | inr err => AttemptPanics (PanicError err)
  | inl result =>
      match ContentLength result with
      | None => AttemptPanics PanicNilDereference
      | Some contentLength =>
          if contentLength =? Z.of_nat len_p
          then AttemptReturns (fst (ReadFull (Body result) len_p))
                              (snd (ReadFull (Body result) len_p))
          else AttemptPanics PanicFalse
      end
  end.

(** The error an attempt fails with, whether it is returned or raised. *)
Definition attempt_error (a : attempt_result) : option error :=
  match a with
  | AttemptPanics (PanicError e) => Some e
  | AttemptPanics _ => None
  | AttemptReturns _ err => err
  end.

(** How [read] ends, for an attempt result and the contents of [p]. *)
Definition attempt_outcome (a : attempt_result) (p' : list Z)
  : outcome (Z * option error * list Z) :=
  match a with
  | AttemptPanics v => Panicked v
  | AttemptReturns n err => Returned (n, err, p')
  end.

(** The attempt returned, and the error it returned is a connection
    reset: the condition of the retry loop. *)
Definition returns_conn_reset (a : attempt_result) : bool :=
  match a with
  | AttemptReturns _ err => isConnReset err
  | AttemptPanics _ => false
  end.

(** The contents of [p] after an attempt. *)
Definition attempt_fill (res : GetObjectOutput + error) (p : list Z) : list Z :=
  match res with
  | inl result =>
      match ContentLength result with
      | Some contentLength =>
          if contentLength =? Z.of_nat (length p) then ReadFull_fill (Body result) p else p
      | None => p
      end
  | inr _ => p
  end.

(** The trace of one attempt: the request and, where the body read
    fails, the line on stderr; bracketed by the channel operations
    where a rate-limit channel is configured. *)
Definition request_events (input : GetObjectInput) (a : attempt_result) : list event :=
  EvGetObject input ::
  match a with
  | AttemptReturns _ (Some e) => [EvFailedRead input e]
  | _ => []
  end.

Definition attempt_events (gated : bool) (input : GetObjectInput) (a : attempt_result)
  : list event :=
  if gated then EvSend :: request_events input a ++ [EvReceive]
  else request_events input a.

Definition advance (w : world) (nrequests ndraws : nat) (evs : list event) : world :=
  {| requests := requests w + nrequests; readRl := readRl w; indexCache := indexCache w;
     draws := draws w + ndraws; rand := rand w; trace := trace w ++ evs |}.

(** A slot of the rate-limit channel is free, or no channel is configured. *)
Definition gate_open (w : world) : Prop :=
  match readRl w with
  | Some c => (queued c < cap c)%nat
  | None => True
  end.

Definition gated (w : world) : bool :=
  match readRl w with Some _ => true | None => false end.

Definition input_of (s3tr : s3TableReader) (rangeHeader : string) : GetObjectInput :=
  {| Bucket := bucket s3tr; Key := addr_String (hash s3tr); Range := rangeHeader |}.

(** The delay of the k-th retry of a ranged read that starts in [w]. *)
Definition retry_delay (w : world) (k : nat) : Z :=
  ForAttempt readRange_backoff k (rand w (draws w + k)%nat).

(** The trace of a ranged read that makes [n] retries: the first
    attempt, then for each retry the log line, the sleep and the next
    attempt.  The attempts are the requests [from], [from + 1], ... of
    the service. *)
Fixpoint retries_events (w : world) (s3tr : s3TableReader) (rangeHeader : string)
    (len_p : nat) (from n : nat) : list event :=
  match n with
  | O => []
  | S n' =>
      retries_events w s3tr rangeHeader len_p from n' ++
      [EvRetrying (retry_delay w n'); EvSleep (retry_delay w n')] ++
      attempt_events (gated w) (input_of s3tr rangeHeader)
        (attempt_of (s3 s3tr (from + S n')%nat (input_of s3tr rangeHeader)) len_p)
  end.

Definition readRange_events (w : world) (s3tr : s3TableReader) (rangeHeader : string)
    (len_p : nat) (n : nat) : list event :=
  attempt_events (gated w) (input_of s3tr rangeHeader)
    (attempt_of (s3 s3tr (requests w) (input_of s3tr rangeHeader)) len_p) ++
  retries_events w s3tr rangeHeader len_p (requests w) n.

Definition is_GetObject (e : event) : bool :=
  match e with EvGetObject _ => true | _ => false end.
Definition is_Retrying (e : event) : bool :=
  match e with EvRetrying _ => true | _ => false end.
Definition is_Send (e : event) : bool :=
  match e with EvSend => true | _ => false end.
Definition is_Receive (e : event) : bool :=
  match e with EvReceive => true | _ => false end.
Definition is_CachePut (e : event) : bool :=
  match e with EvCachePut _ _ => true | _ => false end.
Definition is_retry_step (e : event) : bool :=
  match e with EvRetrying _ | EvSleep _ => true | _ => false end.

Definition count_events (f : event -> bool) (evs : list event) : nat :=
  length (List.filter f evs).

(** The k-th attempt of a ranged read that starts in [w0]. *)
Definition nth_attempt (w0 : world) (s3tr : s3TableReader) (hdr : string) (len_p : nat)
    (k : nat) : attempt_result :=
  attempt_of (s3 s3tr (requests w0 + k)%nat (input_of s3tr hdr)) len_p.

(** The contents of [p] after the first [n] attempts. *)
Fixpoint buffer_after (w0 : world) (s3tr : s3TableReader) (hdr : string) (n : nat)
    (p : list Z) : list Z :=
  match n with
  | O => p
  | S n' =>
      attempt_fill (s3 s3tr (requests w0 + n')%nat (input_of s3tr hdr))
        (buffer_after w0 s3tr hdr n' p)
  end.

(** The backoff of [readRange] after [k] calls of [Duration]. *)
Definition backoff_at (k : nat) : Backoff :=
  {| attempt := k; Factor := 2; Jitter := true;
     Min := 128 * Microsecond; Max := 1024 * Millisecond |}.

(** The log line and the sleep of each of [N] retries, in order. *)
Definition retry_steps (w : world) (N : nat) : list event :=
  flat_map (fun k => [EvRetrying (retry_delay w k); EvSleep (retry_delay w k)]) (seq 0 N).

(** A trace keeps the discipline of the rate-limit channel: it sends
    only while it holds no slot, receives and issues requests only
    while it holds one, sleeps only while it holds none, and ends
    holding none. *)
Fixpoint gate_disciplined (held : bool) (evs : list event) : bool :=
  match evs with
  | [] => negb held
  | EvSend :: evs' => negb held && gate_disciplined true evs'
  | EvReceive :: evs' => held && gate_disciplined false evs'
  | EvGetObject _ :: evs' => held && gate_disciplined held evs'
  | EvSleep _ :: evs' => negb held && gate_disciplined held evs'
  | _ :: evs' => gate_disciplined held evs'
  end.

(** The reader under construction, before and after its index is set. *)
Definition new_source (s3 : s3svc) (bucket : string) (h : addr) (index : option tableIndex)
  : s3TableReader :=
  {| s3tr_tableReader := option_map (fun i => newTableReader i s3BlockSize) index;
     s3 := s3; bucket := bucket; h := h |}.

(** What [indexCache.get(h)] finds, nothing where there is no cache;
    the trace of the lookup and of a put; the cache after a put. *)
Definition cache_lookup (w : world) (h : addr) : option tableIndex :=
  match indexCache w with
  | Some c => c !! h
  | None => None
  end.

Definition cache_get_events (w : world) (h : addr) : list event :=
  match indexCache w with
  | Some _ => [EvCacheGet h]
  | None => []
  end.

Definition cache_put_events (w : world) (h : addr) (index : tableIndex) : list event :=
  match indexCache w with
  | Some _ => [EvCachePut h index]
  | None => []
  end.

Definition cache_after_put (w : world) (h : addr) (index : tableIndex)
  : option (gmap addr tableIndex) :=
  match indexCache w with
  | Some c => Some (<[h := index]> c)
  | None => None
  end.

(** What follows the one ranged read of a construction that missed the
    cache, as a function of how the read ended. *)
Definition after_read (s3 : s3svc) (bucket : string) (h : addr) (chunkCount : Z)
    (o : outcome (Z * option error * list Z)) (w2 : world)
  : outcome s3TableReader * world :=
  match o with
  | Returned (n, Some e, _) => (Panicked (PanicError e), w2)
  | Returned (n, None, buff) =>
      if newS3TableReader_size chunkCount =? to_uint64 n then
        match parseTableIndex buff with
        | None => (Panicked PanicParse, w2)
        | Some index =>
            (if chunkCount =? index_chunkCount index
             then Returned (new_source s3 bucket h (Some index))
             else Panicked PanicFalse,
             {| requests := requests w2; readRl := readRl w2;
                indexCache := cache_after_put w2 h index;
                draws := draws w2; rand := rand w2;
                trace := trace w2 ++ cache_put_events w2 h index |})
        end
      else (Panicked PanicFalse, w2)
  | Panicked v => (Panicked v, w2)
  | Blocked => (Blocked, w2)
  | OutOfFuel => (OutOfFuel, w2)
  end.

End Reader.

End S3.

(** ** The SQL table editor *)

Module Sqle.

(** *** Declarations the editor uses from other packages

    [sql.Row], [row.Row], [types.Tuple], [types.Value], [doltdb.Table]
    and the functions on them are declared in packages that are not at
    hand; the editor is modelled over any such declarations.  A function
    that returns [(x, err)] in Go returns [inl x] or [inr err]. *)
Class Dolt : Type := {
  sql_Value : Type;
  row_Row : Type;
  Tuple : Type;
  Tuple_eq_dec :: EqDecision Tuple;
  Tuple_countable :: Countable Tuple;
  types_Value : Type;
  doltdb_Table : Type;
  base_error : Type;
  (** [fmt.Sprintf("%v", val)] *)
  fmt_v : sql_Value -> string;
  (** [SqlRowToDoltRow(t.table.Format(), r, t.sch)] *)
  SqlRowToDoltRow : doltdb_Table -> list sql_Value -> row_Row + base_error;
  (** [dRow.NomsMapKey(t.sch).Value(ctx)] *)
  NomsMapKey_Value : row_Row -> Tuple + base_error;
  (** [dRow.NomsMapValue(t.sch)] *)
  NomsMapValue : row_Row -> types_Value;
  (** [t.table.GetRow(ctx, key, t.sch)]: whether the row exists *)
  GetRow : doltdb_Table -> Tuple -> bool + base_error;
  (** [t.table.GetRowData(ctx)] *)
  GetRowData : doltdb_Table -> gmap Tuple types_Value + base_error
}.

Section Editor.
Context `{Dolt}.

Definition sql_Row : Type := list sql_Value.

Inductive error : Type :=
| Base (err : base_error)
| DError (msg : string) (cause : base_error)   (* errhand.BuildDError(msg).AddCause(cause).Build() *)
| Errorf (msg : string).                       (* fmt.Errorf / errors.New *)

(** [types.MapEditor] (declared in package [types], not at hand),
    modelled as the finite map the pending edits build: [Set] and
    [Remove] update the editor in place, and [typesMap.Edit()] starts
    from the rows of the map. *)
Definition MapEditor : Type := gmap Tuple types_Value.

Definition MapEditor_Set (k : Tuple) (v : types_Value) (ed : MapEditor) : MapEditor :=
  <[k := v]> ed.
Definition MapEditor_Remove (k : Tuple) (ed : MapEditor) : MapEditor :=
  delete k ed.

Record DoltTable : Type := mkDoltTable { name : string; table : doltdb_Table }.

Record tableEditor : Type := mkTableEditor { t : DoltTable; ed : option MapEditor }.

(**
<<
	typesMap, err := t.table.GetRowData(ctx)
	if err != nil {
		return nil, errhand.BuildDError("failed to get row data.").AddCause(err).Build()
	}
	return typesMap.Edit(), nil
>> *)
Definition newMapEditor (t : DoltTable) : MapEditor + error :=
  match GetRowData (table t) with
  | inr err => inr (DError "failed to get row data." err)
  | inl typesMap => inl typesMap
  end.

(** [strings.Join(newRowAsStrings, ", ")] *)
Fixpoint Join (l : list string) (sep : string) : string :=
  match l with
  | [] => ""
  | [s] => s
  | s :: l' => (s ++ sep ++ Join l' sep)%string
  end.

(** The editor a call works on: the pending one, or a fresh one over the
    rows of the table.
<<
	if u.ed == nil {
		u.ed, err = u.t.newMapEditor(ctx)
		if err != nil {
			return err
		}
	}
>> *)
Definition editor_before (u : tableEditor) : MapEditor + error :=
  match ed u with
  | None => newMapEditor (t u)
  | Some e => inl e
  end.

(** [tableEditor.Update]: the error it returns ([None] for [nil]) and
    the editor after the call.
<<
	dOldRow, err := SqlRowToDoltRow(u.t.table.Format(), oldRow, u.t.sch)
	if err != nil { return err }
	dNewRow, err := SqlRowToDoltRow(u.t.table.Format(), newRow, u.t.sch)
	if err != nil { return err }

	// If the PK is changed then we have to delete the old row first
	// This is assuming that the new PK is not taken
	dOldKey := dOldRow.NomsMapKey(u.t.sch)
	dOldKeyVal, err := dOldKey.Value(ctx)
	if err != nil { return err }
	dNewKey := dNewRow.NomsMapKey(u.t.sch)
	dNewKeyVal, err := dNewKey.Value(ctx)
	if err != nil { return err }

	if u.ed == nil { ... }

	if !dOldKeyVal.Equals(dNewKeyVal) {
		_, rowExists, err := u.t.table.GetRow(ctx, dNewKeyVal.(types.Tuple), u.t.sch)
		if err != nil {
			return errhand.BuildDError("failed to read table").AddCause(err).Build()
		}
		if rowExists {
			newRowAsStrings := make([]string, len(newRow))
			for i, val := range newRow {
				newRowAsStrings[i] = fmt.Sprintf("%v", val)
			}
			return fmt.Errorf("primary key collision: (%v)", strings.Join(newRowAsStrings, ", "))
		}
		u.ed.Remove(dOldKey)
	} else {
		u.ed.Set(dOldKey, dNewRow.NomsMapValue(u.t.sch))
	}

	return nil
>> *)
Definition Update (u : tableEditor) (oldRow newRow : sql_Row) : option error * tableEditor :=
  match SqlRowToDoltRow (table (t u)) oldRow with
  | inr err => (Some (Base err), u)
  | inl dOldRow =>
  match SqlRowToDoltRow (table (t u)) newRow with
  | inr err => (Some (Base err), u)
  | inl dNewRow =>
  match NomsMapKey_Value dOldRow with
  | inr err => (Some (Base err), u)
  | inl dOldKeyVal =>
  match NomsMapKey_Value dNewRow with
  | inr err => (Some (Base err), u)
  | inl dNewKeyVal =>
  match editor_before u with
  | inr err => (Some err, {| t := t u; ed := None |})
  | inl e =>
      if negb (bool_decide (dOldKeyVal = dNewKeyVal)) then
        match GetRow (table (t u)) dNewKeyVal with
        | inr err => (Some (DError "failed to read table" err), {| t := t u; ed := Some e |})
        | inl rowExists =>
            if rowExists : bool then
              let newRowAsStrings := List.map fmt_v newRow in
              (Some (Errorf ("primary key collision: (" ++ Join newRowAsStrings ", " ++ ")")),
               {| t := t u; ed := Some e |})
            else
              (None, {| t := t u; ed := Some (MapEditor_Remove dOldKeyVal e) |})
        end
      else
        (None, {| t := t u; ed := Some (MapEditor_Set dOldKeyVal (NomsMapValue dNewRow) e) |})
  end end end end end.

(** [tableEditor.Insert]: the error it returns and the editor after the
    call.
<<
	dRow, err := SqlRowToDoltRow(r.t.table.Format(), sqlRow, r.t.sch)
	if err != nil {
		return err
	}

	key, err := dRow.NomsMapKey(r.t.sch).Value(ctx)
	if err != nil {
		return errhand.BuildDError("failed to get row key").AddCause(err).Build()
	}
	_, rowExists, err := r.t.table.GetRow(ctx, key.(types.Tuple), r.t.sch)
	if err != nil {
		return errhand.BuildDError("failed to read table").AddCause(err).Build()
	}
	if rowExists {
		return errors.New("duplicate primary key given")
	}

	if r.ed == nil { ... }

	r.ed = r.ed.Set(key, dRow.NomsMapValue(r.t.sch))
	return nil
>> *)
Definition Insert (r : tableEditor) (sqlRow : sql_Row) : option error * tableEditor :=
  match SqlRowToDoltRow (table (t r)) sqlRow with
  | inr err => (Some (Base err), r)
  | inl dRow =>
  match NomsMapKey_Value dRow with
  | inr err => (Some (DError "failed to get row key" err), r)
  | inl key =>
  match GetRow (table (t r)) key with
  | inr err => (Some (DError "failed to read table" err), r)
  | inl rowExists =>
      if rowExists : bool then (Some (Errorf "duplicate primary key given"), r)
      else
        match editor_before r with
        | inr err => (Some err, {| t := t r; ed := None |})
        | inl e =>
            (None, {| t := t r; ed := Some (MapEditor_Set key (NomsMapValue dRow) e) |})
        end
  end end end.

(** [tableEditor.Delete]:
<<
	dRow, err := SqlRowToDoltRow(r.t.table.Format(), sqlRow, r.t.sch)
	if err != nil {
		return err
	}

	key, err := dRow.NomsMapKey(r.t.sch).Value(ctx)
	if err != nil {
		return errhand.BuildDError("failed to get row key").AddCause(err).Build()
	}

	if r.ed == nil { ... }

	r.ed = r.ed.Remove(key)
	return nil
>> *)
Definition Delete (r : tableEditor) (sqlRow : sql_Row) : option error * tableEditor :=
  match SqlRowToDoltRow (table (t r)) sqlRow with
  | inr err => (Some (Base err), r)
  | inl dRow =>
  match NomsMapKey_Value dRow with
  | inr err => (Some (DError "failed to get row key" err), r)
  | inl key =>
  match editor_before r with
  | inr err => (Some err, {| t := t r; ed := None |})
  | inl e => (None, {| t := t r; ed := Some (MapEditor_Remove key e) |})
  end end end.

(** [Inserter], [Deleter], [Replacer] and [Updater]:
<<
	return &tableEditor{
		t: t,
	}
>> *)
Definition Inserter (t : DoltTable) : tableEditor := {| t := t; ed := None |}.
Definition Deleter (t : DoltTable) : tableEditor := {| t := t; ed := None |}.
Definition Replacer (t : DoltTable) : tableEditor := {| t := t; ed := None |}.
Definition Updater (t : DoltTable) : tableEditor := {| t := t; ed := None |}.

(** A call of one of the three editing methods, and a sequence of such
    calls on one editor, whatever each of them returns. *)
Inductive edit : Type :=
| CallInsert (sqlRow : sql_Row)
| CallUpdate (oldRow newRow : sql_Row)
| CallDelete (sqlRow : sql_Row).

Definition call (r : tableEditor) (c : edit) : option error * tableEditor :=
  match c with
  | CallInsert sqlRow => Insert r sqlRow
  | CallUpdate oldRow newRow => Update r oldRow newRow
  | CallDelete sqlRow => Delete r sqlRow
  end.

Definition calls (r : tableEditor) (cs : list edit) : tableEditor :=
  fold_left (fun r c => snd (call r c)) cs r.

(** *** The partition iterator *)

(** [doltTablePartition] has no field of its own. *)
Inductive doltTablePartition : Type := mkPartition.

Record doltTablePartitionIter : Type := mkPartitionIter { i : Z }.

Definition partitionName : string := "single".

(** [Key]: <<return []byte(partitionName)>> *)
Definition Key (p : doltTablePartition) : string := partitionName.

(** [Partitions]: <<return &doltTablePartitionIter{}, nil>> *)
Definition Partitions (t : DoltTable) : doltTablePartitionIter := {| i := 0 |}.

(** [Next]: the partition or [io.EOF] ([None]), and the iterator after
    the call.
<<
	if itr.i > 0 {
		return nil, io.EOF
	}
	itr.i++

	return &doltTablePartition{}, nil
>> *)
Definition Next (itr : doltTablePartitionIter)
  : option doltTablePartition * doltTablePartitionIter :=
  if 0 <? i itr then (None, itr)
  else (Some mkPartition, {| i := Int.to_int64 (i itr + 1) |}).

(** The results of [n] calls of [Next] in a row. *)
Fixpoint Next_n (n : nat) (itr : doltTablePartitionIter)
  : list (option doltTablePartition) :=
  match n with
  | O => []
  | S n' => fst (Next itr) :: Next_n n' (snd (Next itr))
  end.

End Editor.

(** *** Writing the edits back

    [types.MapEditor.Map], [doltdb.Table.UpdateRows] and
    [doltdb.PutTable] are declared in packages that are not at hand;
    [Close] is modelled over any such declarations.  The root value is
    the field [root] of the [Database] the table points to.  An editor
    holds its table by value here, where the source shares one
    [*DoltTable] among the editors of a table: what [Close] assigns is
    seen through the editor that was closed, which is all that a
    statement about one editor observes. *)
Class DoltStore `{Dolt} : Type := {
  RootValue : Type;
  (** [mapEditor.Map(ctx)] *)
  MapEditor_Map : gmap Tuple types_Value -> gmap Tuple types_Value + base_error;
  (** [t.table.UpdateRows(ctx, updated)] *)
  UpdateRows : doltdb_Table -> gmap Tuple types_Value -> doltdb_Table + base_error;
  (** [doltdb.PutTable(ctx, t.db.root, t.db.root.VRW(), t.name, newTable)] *)
  PutTable : RootValue -> string -> doltdb_Table -> RootValue + base_error
}.

Section Store.
Context `{DoltStore}.

Record Database : Type := mkDatabase { root : RootValue }.

(** [updateTable]: the error, the table and the database after the call.
<<
	updated, err := mapEditor.Map(ctx)
	if err != nil {
		return errhand.BuildDError("failed to modify table").AddCause(err).Build()
	}

	newTable, err := t.table.UpdateRows(ctx, updated)
	if err != nil {
		return errhand.BuildDError("failed to update rows").AddCause(err).Build()
	}

	newRoot, err := doltdb.PutTable(ctx, t.db.root, t.db.root.VRW(), t.name, newTable)
	if err != nil {
		return errhand.BuildDError("failed to write table back to database").AddCause(err).Build()
	}

	t.table = newTable
	t.db.root = newRoot
	return nil
>> *)
Definition updateTable (t : DoltTable) (db : Database) (mapEditor : MapEditor)
  : option error * DoltTable * Database :=
  match MapEditor_Map mapEditor with
  | inr err => (Some (DError "failed to modify table" err), t, db)
  | inl updated =>
  match UpdateRows (table t) updated with
  | inr err => (Some (DError "failed to update rows" err), t, db)
  | inl newTable =>
  match PutTable (root db) (name t) newTable with
  | inr err => (Some (DError "failed to write table back to database" err), t, db)
  | inl newRoot => (None, {| name := name t; table := newTable |}, {| root := newRoot |})
  end end end.

(** [tableEditor.Close]:
<<
	if r.ed != nil {
		return r.t.updateTable(ctx, r.ed)
	}
	return nil
>> *)
Definition Close (r : tableEditor) (db : Database) : option error * tableEditor * Database :=
  match ed r with
  | Some e =>
      let '(err, t', db') := updateTable (t r) db e in
      (err, {| t := t'; ed := Some e |}, db')
  | None => (None, r, db)
  end.

End Store.

End Sqle.

(** ** Concrete instances, for the examples *)

Module Demo.
Import Int S3 Sqle.

(** A table format with one byte of index per chunk and a two-byte
    footer; addresses are numbers. *)
#[export] Instance demo_nbs : NBS := {|
  addr := Z;
  addr_eq_dec := _;
  addr_countable := _;
  addr_String := fun a => ("table-" ++ fmt_d a)%string;
  tableIndex := list Z;
  indexSize := fun chunkCount => chunkCount;
  footerSize := 2;
  parseTableIndex := fun buff => Some buff;
  index_chunkCount := fun index => Z.of_nat (length index) - 2
|}.

Definition reset_error : S3.error := NetOpError (OsSyscallError (Errno ECONNRESET)).

(** A service that serves [payload] in full. *)
Definition serving (payload : list Z) : s3svc :=
  fun _ _ =>
    inl {| ContentLength := Some (Z.of_nat (length payload));
           Body := {| delivered := payload; failure := None |} |}.

(** A service whose first [n] responses break off after one byte with a
    connection reset, and that serves [payload] in full from then on. *)
Definition resetting (n : nat) (payload : list Z) : s3svc :=
  fun k input =>
    if (k <? n)%nat
    then inl {| ContentLength := Some (Z.of_nat (length payload));
                Body := {| delivered := firstn 1 payload; failure := Some reset_error |} |}
    else serving payload k input.

(** A service whose requests fail with a connection reset. *)
Definition refusing : s3svc := fun _ _ => inr reset_error.

(** A service that declares one byte more than it is asked for. *)
Definition overlong (payload : list Z) : s3svc :=
  fun _ _ =>
    inl {| ContentLength := Some (Z.of_nat (length payload) + 1);
           Body := {| delivered := payload; failure := None |} |}.

Definition demo_world (readRl : option chan) (indexCache : option (gmap Z (list Z))) : world :=
  {| requests := 0; readRl := readRl; indexCache := indexCache;
     draws := 0; rand := fun _ => 2 ^ 52; trace := [] |}.

Definition demo_reader (svc : s3svc) : s3TableReader :=
  {| s3tr_tableReader := None; s3 := svc; bucket := "bucket"; h := 7 |}.

(** A table of rows [key :: value] keyed by their first column. *)
#[export] Instance demo_dolt : Dolt := {|
  sql_Value := Z;
  row_Row := list Z;
  Tuple := Z;
  Tuple_eq_dec := _;
  Tuple_countable := _;
  types_Value := list Z;
  doltdb_Table := gmap Z (list Z);
  base_error := unit;
  fmt_v := fmt_d;
  SqlRowToDoltRow := fun _ r => inl r;
  NomsMapKey_Value := fun r => match r with k :: _ => inl k | [] => inr tt end;
  NomsMapValue := fun r => tl r;
  GetRow := fun tbl k => inl (bool_decide (is_Some (tbl !! k)));
  GetRowData := fun tbl => inl tbl
|}.

Definition demo_table : gmap Z (list Z) := <[1 := [10]]> (<[3 := [30]]> ∅).

Definition demo_editor : tableEditor :=
  {| t := {| name := "t"; table := demo_table |}; ed := None |}.

(** A service whose responses declare [payload] and break off after
    [k] bytes of it, at the end of the stream or with the error [err]. *)
Definition breaking (k : nat) (err : option S3.error) (payload : list Z) : s3svc :=
  fun _ _ =>
    inl {| ContentLength := Some (Z.of_nat (length payload));
           Body := {| delivered := firstn k payload; failure := err |} |}.

(** A connection reset that is not wrapped in a [*net.OpError]. *)
Definition bare_reset : S3.error := OsSyscallError (Errno ECONNRESET).

(** A store that keeps the tables it is given under their names, and
    refuses a table without a name. *)
#[export] Instance demo_store : DoltStore := {|
  RootValue := list (string * gmap Z (list Z));
  MapEditor_Map := fun m => inl m;
  UpdateRows := fun _ m => inl m;
  PutTable := fun root name tbl =>
    if String.eqb name EmptyString then inr tt else inl ((name, tbl) :: root)
|}.

Definition demo_db : Database := {| root := [] |}.

(** An editor with a pending row, on a table that has no name. *)
Definition nameless_editor : tableEditor :=
  {| t := {| name := EmptyString; table := demo_table |};
     ed := Some (MapEditor_Set 2 [20] demo_table) |}.

End Demo.

(** * Properties *)

(** ** Varints *)

Module VarintFacts.
Import Int Varint.

Lemma land_low_shiftl (a b s : Z) :
  0 <= s -> 0 <= a < 2 ^ s -> Z.land a (Z.shiftl b s) = 0.
Proof.
  intros Hs Ha. apply Z.bits_inj'. intros n Hn.
  rewrite Z.land_spec, Z.bits_0.
  destruct (Z.ltb_spec n s) as [Hlt | Hge].
  - rewrite Z.shiftl_spec_low by lia. apply andb_false_r.
  - destruct (Z.eq_dec a 0) as [-> | Hnz].
    + now rewrite Z.bits_0.
    + rewrite (Z.bits_above_log2 a n); [reflexivity | lia |].
      assert (Z.log2 a < s) by (apply Z.log2_lt_pow2; lia). lia.
Qed.

Lemma lor_low_shiftl (a b s : Z) :
  0 <= s -> 0 <= a < 2 ^ s -> Z.lor a (Z.shiftl b s) = a + b * 2 ^ s.
Proof.
  intros Hs Ha.
  rewrite <- Z.lxor_lor, <- Z.add_nocarry_lxor, Z.shiftl_mul_pow2;
    auto using land_low_shiftl.
Qed.

Lemma lor_lt_pow2 (a b n : Z) :
  0 <= n -> 0 <= a < 2 ^ n -> 0 <= b < 2 ^ n -> 0 <= Z.lor a b < 2 ^ n.
Proof.
  intros Hn Ha Hb.
  assert (H0 : 0 <= Z.lor a b) by (apply Z.lor_nonneg; lia).
  split; [exact H0|].
  destruct (Z.eq_dec (Z.lor a b) 0) as [-> | Hnz]; [lia|].
  apply Z.log2_lt_pow2; [lia|].
  rewrite Z.log2_lor by lia.
  destruct (Z.eq_dec a 0) as [-> | Ha0]; destruct (Z.eq_dec b 0) as [-> | Hb0];
    try (rewrite Z.lor_0_l in Hnz || rewrite Z.lor_0_r in Hnz); try lia.
  - rewrite Z.max_r; [apply Z.log2_lt_pow2; lia | simpl; apply Z.log2_nonneg].
  - rewrite Z.max_l; [apply Z.log2_lt_pow2; lia | simpl; apply Z.log2_nonneg].
  - apply Z.max_lub_lt; apply Z.log2_lt_pow2; lia.
Qed.

(** The continuation byte the encoder writes, and what the decoder reads
    back from it. *)
Lemma lor_bit7 (l h : Z) :
  0 <= l < 2 ^ 7 -> h = 0 \/ h = 1 ->
  Z.lor (l + h * 2 ^ 7) (Z.shiftl 1 7) = l + 2 ^ 7.
Proof.
  intros Hl Hh.
  rewrite <- lor_low_shiftl by lia.
  rewrite <- Z.lor_assoc, <- Z.shiftl_lor.
  replace (Z.lor h 1) with 1 by (destruct Hh as [-> | ->]; reflexivity).
  rewrite lor_low_shiftl by lia. lia.
Qed.

Lemma cont_byte (x : Z) :
  0 <= x -> Z.lor (to_byte x) 0x80 = x mod 128 + 128.
Proof.
  intros Hx. unfold to_byte.
  assert (E : x mod 256 = x mod 128 + (x / 128) mod 2 * 2 ^ 7).
  { change (2 ^ 7) with 128. Z.to_euclidean_division_equations. lia. }
  rewrite E. apply (lor_bit7 (x mod 128) ((x / 128) mod 2)).
  - change (2 ^ 7) with 128. Z.to_euclidean_division_equations. lia.
  - Z.to_euclidean_division_equations. lia.
Qed.

Lemma land_0x7f (b : Z) : Z.land b 0x7f = b mod 128.
Proof. change 0x7f with (Z.ones 7). now rewrite Z.land_ones by lia. Qed.

Lemma shl64_small (b s : Z) :
  0 <= s -> 0 <= b -> b * 2 ^ s < 2 ^ 64 -> shl64 b s = b * 2 ^ s.
Proof.
  intros Hs Hb Hlt. unfold shl64, wrap64.
  rewrite Z.shiftl_mul_pow2 by lia.
  apply Z.mod_small. split; [|lia].
  apply Z.mul_nonneg_nonneg; [lia|]. apply Z.pow_nonneg. lia.
Qed.

Lemma pow2_7_succ (i : Z) : 0 <= i -> 2 ^ (7 * (i + 1)) = 128 * 2 ^ (7 * i).
Proof.
  intros Hi. replace (7 * (i + 1)) with (7 + 7 * i) by lia.
  rewrite Z.pow_add_r by lia. reflexivity.
Qed.

Lemma lor_low_mul (a b s : Z) :
  0 <= s -> 0 <= a < 2 ^ s -> Z.lor a (b * 2 ^ s) = a + b * 2 ^ s.
Proof.
  intros. rewrite <- (lor_low_shiftl a b s) by lia.
  now rewrite Z.shiftl_mul_pow2 by lia.
Qed.

Lemma Uvarint_loop_last (b : Z) (rest : list Z) (i acc : Z) :
  0 <= i <= 9 -> 0 <= b < 128 -> (i = 9 -> b <= 1) ->
  0 <= acc < 2 ^ (7 * i) -> b * 2 ^ (7 * i) < 2 ^ 64 ->
  Uvarint_loop (b :: rest) i acc (7 * i) = (acc + b * 2 ^ (7 * i), i + 1).
Proof.
  intros Hi Hb H9 Hacc Hlt. cbn [Uvarint_loop].
  destruct (Z.ltb_spec b 0x80) as [_ | ?]; [|lia].
  assert ((9 <? i) || ((i =? 9) && (1 <? b)) = false) as ->.
  { destruct (Z.ltb_spec 9 i); [lia|]. destruct (Z.eqb_spec i 9); [|reflexivity].
    destruct (Z.ltb_spec 1 b); [lia | reflexivity]. }
  rewrite shl64_small, lor_low_mul by lia. reflexivity.
Qed.

Lemma Uvarint_loop_cont (b : Z) (rest : list Z) (i acc : Z) :
  0 <= i -> 128 <= b ->
  0 <= acc < 2 ^ (7 * i) -> (b mod 128) * 2 ^ (7 * i) < 2 ^ 64 ->
  Uvarint_loop (b :: rest) i acc (7 * i)
  = Uvarint_loop rest (i + 1) (acc + (b mod 128) * 2 ^ (7 * i)) (7 * (i + 1)).
Proof.
  intros Hi Hb Hacc Hlt. cbn [Uvarint_loop].
  destruct (Z.ltb_spec b 0x80) as [? | _]; [lia|].
  rewrite land_0x7f, shl64_small, lor_low_mul by (try lia; apply Z.mod_pos_bound; lia).
  f_equal. lia.
Qed.

Lemma Uvarint_loop_PutUvarint_loop (fuel : nat) :
  forall v i acc rest,
    0 <= i -> i + Z.of_nat fuel = 9 ->
    0 <= v -> v * 2 ^ (7 * i) < 2 ^ 64 ->
    0 <= acc < 2 ^ (7 * i) ->
    Uvarint_loop (PutUvarint_loop fuel v ++ rest) i acc (7 * i)
    = (acc + v * 2 ^ (7 * i), i + Z.of_nat (length (PutUvarint_loop fuel v))).
Proof.
  induction fuel as [|fuel IH]; intros v i acc rest Hi Hif Hv Hlt Hacc.
  - assert (i = 9) as -> by lia.
    assert (v <= 1) by (change (2 ^ (7 * 9)) with (2 ^ 63) in Hlt; lia).
    cbn [PutUvarint_loop app length]. unfold to_byte.
    rewrite (Z.mod_small v 256) by lia.
    rewrite Uvarint_loop_last by lia. reflexivity.
  - assert (HP : 0 < 2 ^ (7 * i)) by (apply Z.pow_pos_nonneg; lia).
    cbn [PutUvarint_loop]. destruct (Z.leb_spec 0x80 v) as [Hge | Hsmall].
    + rewrite cont_byte by lia. cbn [app length].
      assert (Hm : 0 <= v mod 128 < 128) by (apply Z.mod_pos_bound; lia).
      assert (Hd : v = 128 * (v / 128) + v mod 128) by (apply Z.div_mod; lia).
      assert (Hq : 0 <= v / 128) by (apply Z.div_pos; lia).
      assert (E : (v mod 128 + 128) mod 128 = v mod 128).
      { Z.to_euclidean_division_equations. lia. }
      rewrite Uvarint_loop_cont; rewrite ?E; try lia; try nia.
      rewrite Z.shiftr_div_pow2 by lia. change (2 ^ 7) with 128.
      pose proof (pow2_7_succ i Hi) as HS.
      rewrite IH; try lia; try (rewrite HS; nia).
      f_equal; [rewrite HS; nia | lia].
    + cbn [app length]. unfold to_byte. rewrite (Z.mod_small v 256) by lia.
      rewrite Uvarint_loop_last by lia. f_equal.
Qed.

Lemma Uvarint_PutUvarint (v : Z) (rest : list Z) :
  is_uint64 v ->
  Uvarint (PutUvarint v ++ rest) = (v, Z.of_nat (length (PutUvarint v))).
Proof.
  intros [Hv0 Hv]. unfold Uvarint, PutUvarint.
  change (Uvarint_loop (PutUvarint_loop 9 v ++ rest) 0 0 0)
    with (Uvarint_loop (PutUvarint_loop 9 v ++ rest) 0 0 (7 * 0)).
  rewrite (Uvarint_loop_PutUvarint_loop 9 v 0 0 rest);
    change (2 ^ (7 * 0)) with 1; try lia.
  f_equal. lia.
Qed.

(** The length of an encoding: groups of seven bits, none of them a
    leading zero group. *)
Lemma PutUvarint_loop_length (fuel : nat) :
  forall v, 0 <= v ->
    let n := Z.of_nat (length (PutUvarint_loop fuel v)) in
    1 <= n <= Z.of_nat fuel + 1 /\
    (1 < n -> 2 ^ (7 * (n - 1)) <= v) /\
    (v < 2 ^ (7 * (Z.of_nat fuel + 1)) -> v < 2 ^ (7 * n)).
Proof.
  induction fuel as [|fuel IH]; intros v Hv n; subst n.
  - cbn [PutUvarint_loop length]. repeat split; lia.
  - cbn [PutUvarint_loop]. destruct (Z.leb_spec 0x80 v) as [Hge | Hsmall].
    + cbn [length]. rewrite Z.shiftr_div_pow2 by lia. change (2 ^ 7) with 128.
      assert (Hq : 0 <= v / 128) by (apply Z.div_pos; lia).
      destruct (IH (v / 128) Hq) as (Hn & Hlow & Hup).
      rewrite !Nat2Z.inj_succ. unfold Z.succ.
      set (m := Z.of_nat (length (PutUvarint_loop fuel (v / 128)))) in *.
      assert (Hd : v = 128 * (v / 128) + v mod 128) by (apply Z.div_mod; lia).
      assert (Hm : 0 <= v mod 128 < 128) by (apply Z.mod_pos_bound; lia).
      repeat split; try lia.
      * intros _. replace (m + 1 - 1) with ((m - 1) + 1) by lia.
        rewrite pow2_7_succ by lia.
        destruct (Z.eq_dec m 1) as [-> | Hne].
        -- change (2 ^ (7 * (1 - 1))) with 1. lia.
        -- specialize (Hlow ltac:(lia)). lia.
      * intros Hlt. rewrite pow2_7_succ in Hlt by lia. rewrite pow2_7_succ by lia.
        assert (v / 128 < 2 ^ (7 * (Z.of_nat fuel + 1))) by lia.
        specialize (Hup ltac:(assumption)). lia.
    + cbn [length]. repeat split; lia.
Qed.

Lemma PutUvarint_length (v : Z) :
  is_uint64 v ->
  let n := Z.of_nat (length (PutUvarint v)) in
  1 <= n <= 10 /\ (1 < n -> 2 ^ (7 * (n - 1)) <= v) /\ v < 2 ^ (7 * n).
Proof.
  intros [Hv0 Hv]. destruct (PutUvarint_loop_length 9 v Hv0) as (Hn & Hlow & Hup).
  unfold PutUvarint. cbv zeta. repeat split; lia.
Qed.

(** What the byte-at-a-time decoder can return for a count of [n] bytes. *)
Lemma Uvarint_loop_bound (buf : list Z) :
  forall i acc v n,
    Forall is_byte buf -> 0 <= i -> 0 <= acc < 2 ^ (7 * i) ->
    Uvarint_loop buf i acc (7 * i) = (v, n) -> 0 < n ->
    i < n /\ 0 <= v < 2 ^ (7 * n).
Proof.
  induction buf as [|b buf IH]; intros i acc v n Hbytes Hi Hacc Hrun Hn.
  - cbn in Hrun. injection Hrun as <- <-. lia.
  - inversion Hbytes as [|? ? Hb Hbuf]; subst. unfold is_byte in Hb.
    assert (HP : 0 < 2 ^ (7 * i)) by (apply Z.pow_pos_nonneg; lia).
    pose proof (pow2_7_succ i Hi) as HS.
    assert (Hstep : forall c, 0 <= c < 128 ->
              0 <= Z.lor acc (shl64 c (7 * i)) < 2 ^ (7 * (i + 1))).
    { intros c Hc. apply lor_lt_pow2; [lia | lia |].
      unfold shl64, wrap64. rewrite Z.shiftl_mul_pow2 by lia.
      assert (0 <= c * 2 ^ (7 * i)) by nia.
      assert (0 <= (c * 2 ^ (7 * i)) mod 2 ^ 64 <= c * 2 ^ (7 * i)).
      { split; [apply Z.mod_pos_bound; lia | apply Z.mod_le; lia]. }
      nia. }
    cbn [Uvarint_loop] in Hrun. destruct (Z.ltb_spec b 0x80) as [Hlt | Hge].
    + destruct ((9 <? i) || ((i =? 9) && (1 <? b))).
      * injection Hrun as <- <-. lia.
      * injection Hrun as <- <-. split; [lia|]. apply Hstep. lia.
    + replace (7 * i + 7) with (7 * (i + 1)) in Hrun by lia.
      apply IH in Hrun; try assumption; try lia.
      rewrite land_0x7f. apply Hstep. apply Z.mod_pos_bound. lia.
Qed.

Lemma Uvarint_bound (buf : list Z) (v n : Z) :
  Forall is_byte buf -> Uvarint buf = (v, n) -> 0 < n -> 0 <= v < 2 ^ (7 * n).
Proof.
  intros Hb Hrun Hn.
  apply (Uvarint_loop_bound buf 0 0 v n); try assumption; lia.
Qed.

Lemma PutUvarint_minimal (buf : list Z) (v n : Z) :
  is_uint64 v -> Forall is_byte buf -> Uvarint buf = (v, n) -> 0 < n ->
  Z.of_nat (length (PutUvarint v)) <= n.
Proof.
  intros Hv Hb Hrun Hn.
  destruct (PutUvarint_length v Hv) as (Hlen & Hlow & _).
  pose proof (Uvarint_bound buf v n Hb Hrun Hn) as [_ Hup].
  set (m := Z.of_nat (length (PutUvarint v))) in *.
  destruct (Z.le_gt_cases m n) as [Hle | Hgt]; [exact Hle | exfalso].
  specialize (Hlow ltac:(lia)).
  assert (2 ^ (7 * n) <= 2 ^ (7 * (m - 1))) by (apply Z.pow_le_mono_r; lia).
  lia.
Qed.

Lemma Uvarint_loop_cons (b : Z) (buf : list Z) (i x s : Z) :
  Uvarint_loop (b :: buf) i x s =
  if b <? 0x80 then
    if (9 <? i) || ((i =? 9) && (1 <? b)) then (0, - (i + 1))
    else (Z.lor x (shl64 b s), i + 1)
  else Uvarint_loop buf (i + 1) (Z.lor x (shl64 (Z.land b 0x7f) s)) (s + 7).
Proof. reflexivity. Qed.

Lemma overflow_test_lt9 (i b : Z) :
  i < 9 -> (9 <? i) || ((i =? 9) && (1 <? b)) = false.
Proof.
  intros Hi. destruct (Z.ltb_spec 9 i); [lia|].
  destruct (Z.eqb_spec i 9); [lia | reflexivity].
Qed.

Lemma Uvarint_loop_overflow (buf : list Z) :
  forall i x s, 9 < i -> snd (Uvarint_loop buf i x s) <= 0.
Proof.
  induction buf as [|b buf IH]; intros i x s Hi; [cbn; lia|].
  rewrite Uvarint_loop_cons. destruct (b <? 0x80).
  - destruct (Z.ltb_spec 9 i); [cbn; lia | lia].
  - apply IH. lia.
Qed.

Ltac unrolled_arm buf :=
  let b := fresh "b" in
  let Hb := fresh "Hb" in
  destruct buf as [|b buf];
  [ cbn in *; lia
  | rewrite Uvarint_loop_cons in *;
    cbn [idx nth_error];
    destruct (b <? 0x80) eqn:Hb;
    [ rewrite overflow_test_lt9 by lia; reflexivity | ] ].

Lemma lor_0_shl64_0 (c : Z) : 0 <= c < 2 ^ 64 -> Z.lor 0 (shl64 c 0) = c.
Proof.
  intros Hc. rewrite Z.lor_0_l, shl64_small; rewrite ?Z.pow_0_r; lia.
Qed.

Lemma unrolled_agrees (buf : list Z) :
  Forall is_byte buf ->
  0 < snd (Uvarint buf) ->
  (snd (Uvarint buf) = 10 -> nth_error buf 9 = Some 1) ->
  unrolledDecodeUVarint buf = Some (Uvarint buf).
Proof.
  unfold Uvarint, unrolledDecodeUVarint. intros Hbytes Hpos Hten.
  destruct buf as [|b0 buf]; [cbn in *; lia|].
  assert (Hb0 : 0 <= b0 < 256) by (inversion Hbytes; assumption).
  assert (Hl0 : 0 <= Z.land b0 0x7f < 128)
    by (rewrite land_0x7f; apply Z.mod_pos_bound; lia).
  clear Hbytes.
  rewrite Uvarint_loop_cons in *. cbn [idx nth_error].
  rewrite !lor_0_shl64_0 in * by lia.
  destruct (b0 <? 0x80) eqn:Hb; [rewrite overflow_test_lt9 by lia; reflexivity|].
  do 8 unrolled_arm buf.
  destruct buf as [|last buf]; [cbn in *; lia|].
  rewrite Uvarint_loop_cons in *. cbn [idx nth_error] in *.
  destruct (last <? 0x80) eqn:Hlast.
  - change (0 + 1 + 1 + 1 + 1 + 1 + 1 + 1 + 1 + 1) with 9 in *.
    change (9 <? 9) with false in *. change (9 =? 9) with true in *.
    cbn [orb andb] in *.
    revert Hpos Hten. destruct (1 <? last); cbn [snd]; [lia|].
    intros _ Hten. specialize (Hten eq_refl). injection Hten as ->.
    reflexivity.
  - exfalso. revert Hpos. apply Z.le_ngt. apply Uvarint_loop_overflow. lia.
Qed.

Lemma PutUvarint_loop_bytes (fuel : nat) :
  forall v, 0 <= v -> Forall is_byte (PutUvarint_loop fuel v).
Proof.
  induction fuel as [|fuel IH]; intros v Hv; cbn [PutUvarint_loop].
  - constructor; [|constructor]. apply Z.mod_pos_bound. lia.
  - destruct (0x80 <=? v).
    + constructor.
      * rewrite cont_byte by lia. unfold is_byte.
        pose proof (Z.mod_pos_bound v 128). lia.
      * apply IH. apply Z.shiftr_nonneg. exact Hv.
    + constructor; [|constructor]. apply Z.mod_pos_bound. lia.
Qed.

Lemma PutUvarint_loop_last_byte (fuel : nat) :
  forall v, 0 <= v -> length (PutUvarint_loop fuel v) = S fuel ->
    nth_error (PutUvarint_loop fuel v) fuel
    = Some (to_byte (v / 2 ^ (7 * Z.of_nat fuel))).
Proof.
  induction fuel as [|fuel IH]; intros v Hv Hlen.
  - cbn. now rewrite Z.div_1_r.
  - cbn [PutUvarint_loop] in *. destruct (0x80 <=? v); [|discriminate].
    cbn [length] in Hlen. cbn [nth_error].
    rewrite IH; [| apply Z.shiftr_nonneg; exact Hv | congruence].
    replace (7 * Z.of_nat (S fuel)) with (7 + 7 * Z.of_nat fuel) by lia.
    rewrite Z.shiftr_div_pow2, Z.div_div, <- Z.pow_add_r by lia.
    reflexivity.
Qed.

Lemma PutUvarint_tenth (v : Z) (rest : list Z) :
  is_uint64 v -> length (PutUvarint v) = 10%nat ->
  nth_error (PutUvarint v ++ rest) 9 = Some 1.
Proof.
  intros Hv Hlen. destruct (PutUvarint_length v Hv) as (_ & Hlow & _).
  rewrite Hlen in Hlow. specialize (Hlow ltac:(lia)).
  change (2 ^ (7 * (Z.of_nat 10 - 1))) with (2 ^ 63) in Hlow.
  rewrite nth_error_app1 by (rewrite Hlen; lia).
  unfold PutUvarint in *. rewrite PutUvarint_loop_last_byte by (destruct Hv; auto).
  change (2 ^ (7 * Z.of_nat 9)) with (2 ^ 63).
  destruct Hv as [Hv0 Hv]. f_equal. unfold to_byte.
  assert (v / 2 ^ 63 = 1) as ->; [|reflexivity].
  Z.to_euclidean_division_equations. lia.
Qed.

Lemma unrolled_PutUvarint (v : Z) (rest : list Z) :
  is_uint64 v -> Forall is_byte rest ->
  unrolledDecodeUVarint (PutUvarint v ++ rest)
  = Some (v, Z.of_nat (length (PutUvarint v))).
Proof.
  intros Hv Hrest.
  pose proof (Uvarint_PutUvarint v rest Hv) as Hcanon.
  destruct (PutUvarint_length v Hv) as (Hlen & _).
  rewrite <- Hcanon. apply unrolled_agrees.
  - apply Forall_app. split; [|exact Hrest].
    apply PutUvarint_loop_bytes. destruct Hv; assumption.
  - rewrite Hcanon. cbn [snd]. lia.
  - rewrite Hcanon. cbn [snd]. intros H10.
    apply PutUvarint_tenth; [exact Hv | lia].
Qed.

(** Zig-zag. *)
Lemma zigzag_uint64 (x : Z) : is_int64 x -> is_uint64 (zigzag x).
Proof.
  intros _. unfold zigzag, is_uint64, not64, shl64, wrap64.
  destruct (x <? 0); apply Z.mod_pos_bound; lia.
Qed.

Lemma zigzag_value (x : Z) :
  is_int64 x -> zigzag x = if x <? 0 then - 2 * x - 1 else 2 * x.
Proof.
  intros [Hlo Hhi]. unfold zigzag, not64, shl64, wrap64, to_uint64.
  rewrite Z.shiftl_mul_pow2 by lia. change (2 ^ 1) with 2.
  unfold Z.lnot. destruct (Z.ltb_spec x 0).
  - Z.to_euclidean_division_equations. lia.
  - Z.to_euclidean_division_equations. lia.
Qed.

Lemma land_1 (u : Z) : Z.land u 1 = u mod 2.
Proof. change 1 with (Z.ones 1). now rewrite Z.land_ones by lia. Qed.

Lemma unzigzag_zigzag (x : Z) : is_int64 x -> unzigzag (zigzag x) = x.
Proof.
  intros Hx. rewrite zigzag_value by exact Hx. destruct Hx as [Hlo Hhi].
  unfold unzigzag, to_int64.
  rewrite !land_1, !Z.shiftr_div_pow2 by lia. change (2 ^ 1) with 2.
  unfold Z.lnot.
  destruct (Z.ltb_spec x 0).
  - assert (E : (- 2 * x - 1) mod 2 = 1) by (Z.to_euclidean_division_equations; lia).
    rewrite E. cbn [Z.eqb].
    assert (Hq : (- 2 * x - 1) / 2 = - x - 1) by (Z.to_euclidean_division_equations; lia).
    rewrite Hq, Z.mod_small by lia.
    destruct (Z.ltb_spec (- x - 1) (2 ^ 63)); lia.
  - assert (E : (2 * x) mod 2 = 0) by (Z.to_euclidean_division_equations; lia).
    rewrite E. cbn [Z.eqb].
    assert (Hq : (2 * x) / 2 = x) by (Z.to_euclidean_division_equations; lia).
    rewrite Hq, Z.mod_small by lia.
    destruct (Z.ltb_spec x (2 ^ 63)); lia.
Qed.

Lemma Uvarint_loop_uint64 (buf : list Z) :
  forall i acc s, is_uint64 acc -> is_uint64 (fst (Uvarint_loop buf i acc s)).
Proof.
  assert (Hshl : forall c s, 0 <= shl64 c s < 2 ^ 64).
  { intros c s. unfold shl64, wrap64. apply Z.mod_pos_bound. lia. }
  induction buf as [|b buf IH]; intros i acc s Hacc; [cbn; unfold is_uint64; lia|].
  rewrite Uvarint_loop_cons. destruct (b <? 0x80).
  - destruct ((9 <? i) || ((i =? 9) && (1 <? b))); cbn [fst]; unfold is_uint64 in *; [lia|].
    apply lor_lt_pow2; [lia | exact Hacc | apply Hshl].
  - apply IH. unfold is_uint64 in *. apply lor_lt_pow2; [lia | exact Hacc | apply Hshl].
Qed.

Lemma zigzag_unzigzag (ux : Z) : is_uint64 ux -> zigzag (unzigzag ux) = ux.
Proof.
  intros [Hlo Hhi].
  assert (Hq : 0 <= ux / 2 < 2 ^ 63) by (Z.to_euclidean_division_equations; lia).
  assert (Hm : ux mod 2 = 0 \/ ux mod 2 = 1) by (Z.to_euclidean_division_equations; lia).
  assert (Hd : ux = 2 * (ux / 2) + ux mod 2) by (apply Z.div_mod; lia).
  assert (Hx : to_int64 (Z.shiftr ux 1) = ux / 2).
  { unfold to_int64. rewrite Z.shiftr_div_pow2 by lia. change (2 ^ 1) with 2.
    rewrite Z.mod_small by lia. destruct (Z.ltb_spec (ux / 2) (2 ^ 63)); lia. }
  unfold unzigzag. rewrite Hx, land_1.
  destruct Hm as [Hm | Hm]; rewrite Hm; cbn [Z.eqb].
  - rewrite zigzag_value by (unfold is_int64; lia).
    destruct (Z.ltb_spec (ux / 2) 0); lia.
  - unfold Z.lnot. rewrite zigzag_value by (unfold is_int64; lia).
    destruct (Z.ltb_spec (Z.pred (- (ux / 2))) 0); lia.
Qed.

Lemma PutUvarint_loop_last_nonzero (fuel : nat) :
  forall v, 1 <= v -> v < 2 ^ (7 * (Z.of_nat fuel + 1)) ->
    last (PutUvarint_loop fuel v) 0 <> 0.
Proof.
  induction fuel as [|fuel IH]; intros v Hv Hlt.
  - cbn [PutUvarint_loop last]. unfold to_byte.
    change (2 ^ (7 * (Z.of_nat 0 + 1))) with 128 in Hlt. rewrite Z.mod_small; lia.
  - cbn [PutUvarint_loop]. destruct (Z.leb_spec 0x80 v) as [Hge | Hsmall].
    + assert (Hq : 1 <= Z.shiftr v 7 /\ Z.shiftr v 7 < 2 ^ (7 * (Z.of_nat fuel + 1))).
      { rewrite Z.shiftr_div_pow2 by lia. change (2 ^ 7) with 128.
        replace (7 * (Z.of_nat (S fuel) + 1)) with (7 * ((Z.of_nat fuel + 1) + 1)) in Hlt by lia.
        rewrite pow2_7_succ in Hlt by lia.
        split; [Z.to_euclidean_division_equations; lia|].
        apply Z.div_lt_upper_bound; lia. }
      specialize (IH _ (proj1 Hq) (proj2 Hq)).
      destruct (PutUvarint_loop fuel (Z.shiftr v 7)) as [|c l] eqn:E.
      * destruct fuel; cbn in E; [discriminate | destruct (_ <=? _); discriminate].
      * exact IH.
    + cbn [last]. unfold to_byte. rewrite Z.mod_small; lia.
Qed.

Lemma PutUvarint_last_nonzero (v : Z) :
  is_uint64 v -> 0 < v -> last (PutUvarint v) 0 <> 0.
Proof.
  intros [_ Hv] Hpos. apply PutUvarint_loop_last_nonzero; [lia|].
  change (2 ^ (7 * (Z.of_nat 9 + 1))) with (2 ^ 70). lia.
Qed.

Lemma Varint_PutVarint (v : Z) (rest : list Z) :
  is_int64 v ->
  Varint (PutVarint v ++ rest) = (v, Z.of_nat (length (PutVarint v))).
Proof.
  intros Hv. unfold Varint, PutVarint.
  rewrite Uvarint_PutUvarint by (apply zigzag_uint64; exact Hv).
  now rewrite unzigzag_zigzag.
Qed.

Lemma unrolled_PutVarint (v : Z) (rest : list Z) :
  is_int64 v -> Forall is_byte rest ->
  unrolledDecodeVarint (PutVarint v ++ rest)
  = Some (v, Z.of_nat (length (PutVarint v))).
Proof.
  intros Hv Hrest. unfold unrolledDecodeVarint, PutVarint.
  rewrite unrolled_PutUvarint by auto using zigzag_uint64.
  now rewrite unzigzag_zigzag.
Qed.

Lemma PutVarint_minimal (buf : list Z) (v n : Z) :
  is_int64 v -> Forall is_byte buf -> Varint buf = (v, n) -> 0 < n ->
  Z.of_nat (length (PutVarint v)) <= n.
Proof.
  intros Hv Hb Hrun Hn. unfold Varint in Hrun.
  destruct (Uvarint buf) as [ux n'] eqn:Hu. injection Hrun as Hux <-.
  assert (Hux64 : is_uint64 ux).
  { pose proof (Uvarint_loop_uint64 buf 0 0 0) as H. unfold Uvarint in Hu.
    rewrite Hu in H. apply H. unfold is_uint64. lia. }
  assert (zigzag v = ux) as Hz by (rewrite <- Hux; now apply zigzag_unzigzag).
  unfold PutVarint. rewrite Hz.
  now apply (PutUvarint_minimal buf ux n').
Qed.

Lemma PutUvarint_each_length (n : nat) :
  (1 <= n <= 10)%nat ->
  is_uint64 (2 ^ (7 * (Z.of_nat n - 1))) /\
  length (PutUvarint (2 ^ (7 * (Z.of_nat n - 1)))) = n.
Proof.
  intros Hn.
  assert (Hc : (n = 1 \/ n = 2 \/ n = 3 \/ n = 4 \/ n = 5 \/ n = 6 \/ n = 7 \/ n = 8 \/
                n = 9 \/ n = 10)%nat) by lia.
  unfold is_uint64.
  repeat (destruct Hc as [Hc | Hc];
          [subst n; split; [split; vm_compute; congruence | vm_compute; reflexivity]|]).
  subst n; split; [split; vm_compute; congruence | vm_compute; reflexivity].
Qed.

(** C2. For every unsigned 64-bit value, and for every signed 64-bit
    value under the zig-zag encoding, the unrolled fast-path decoder
    applied to the value's varint encoding (followed by any bytes)
    returns the value and the byte count the byte-at-a-time decoder
    returns, which are the value itself and the length of the encoding;
    the lengths are 1 to 10 and each of them occurs. *)
Theorem unrolled_decoders_agree_with_canonical (rest : list Z) :
  Forall is_byte rest ->
  (forall v, is_uint64 v ->
     unrolledDecodeUVarint (PutUvarint v ++ rest) = Some (Uvarint (PutUvarint v ++ rest)) /\
     Uvarint (PutUvarint v ++ rest) = (v, Z.of_nat (length (PutUvarint v))) /\
     (1 <= length (PutUvarint v) <= 10)%nat) /\
  (forall v, is_int64 v ->
     unrolledDecodeVarint (PutVarint v ++ rest) = Some (Varint (PutVarint v ++ rest)) /\
     Varint (PutVarint v ++ rest) = (v, Z.of_nat (length (PutVarint v))) /\
     (1 <= length (PutVarint v) <= 10)%nat) /\
  (forall n, (1 <= n <= 10)%nat ->
     exists v, is_uint64 v /\ length (PutUvarint v) = n).
Proof.
  intros Hrest. repeat split.
  - rewrite unrolled_PutUvarint, Uvarint_PutUvarint by assumption. reflexivity.
  - now apply Uvarint_PutUvarint.
  - destruct (PutUvarint_length v) as (Hlen & _); [assumption | lia].
  - destruct (PutUvarint_length v) as (Hlen & _); [assumption | lia].
  - rewrite unrolled_PutVarint, Varint_PutVarint by assumption. reflexivity.
  - now apply Varint_PutVarint.
  - destruct (PutUvarint_length (zigzag v)) as (Hlen & _);
      [now apply zigzag_uint64 | unfold PutVarint; lia].
  - destruct (PutUvarint_length (zigzag v)) as (Hlen & _);
      [now apply zigzag_uint64 | unfold PutVarint; lia].
  - intros n Hn. exists (2 ^ (7 * (Z.of_nat n - 1))). now apply PutUvarint_each_length.
Qed.

Lemma unrolled_decoders_agree_with_canonical_witness :
  Forall is_byte [7; 255] /\ is_uint64 (2 ^ 64 - 1) /\ is_int64 (- 2 ^ 63) /\
  unrolledDecodeUVarint (PutUvarint (2 ^ 64 - 1) ++ [7; 255])
  = Some (Uvarint (PutUvarint (2 ^ 64 - 1) ++ [7; 255])) /\
  Varint (PutVarint (- 2 ^ 63) ++ [7; 255])
  = (- 2 ^ 63, Z.of_nat (length (PutVarint (- 2 ^ 63)))).
Proof.
  assert (Hrest : Forall is_byte [7; 255])
    by (repeat constructor; unfold is_byte; lia).
  assert (Hu : is_uint64 (2 ^ 64 - 1)) by (unfold is_uint64; lia).
  assert (Hs : is_int64 (- 2 ^ 63)) by (unfold is_int64; lia).
  destruct (unrolled_decoders_agree_with_canonical [7; 255] Hrest) as (Hun & Hsi & _).
  split; [exact Hrest|]. split; [exact Hu|]. split; [exact Hs|]. split.
  - exact (proj1 (Hun _ Hu)).
  - exact (proj1 (proj2 (Hsi _ Hs))).
Defined.

(** C7. Decoding the varint encoding of a value yields the value, for
    every [uint64] and, under zig-zag, every [int64]; and the encoding
    is minimal: no byte sequence that decodes to the value is shorter,
    and the last byte of a longer-than-one encoding is not zero, so no
    continuation byte is redundant. *)
Theorem varint_roundtrip_and_minimal :
  (forall v, is_uint64 v ->
     Uvarint (PutUvarint v) = (v, Z.of_nat (length (PutUvarint v))) /\
     unrolledDecodeUVarint (PutUvarint v) = Some (v, Z.of_nat (length (PutUvarint v))) /\
     (forall buf n, Forall is_byte buf -> Uvarint buf = (v, n) -> 0 < n ->
        Z.of_nat (length (PutUvarint v)) <= n) /\
     ((1 < length (PutUvarint v))%nat -> last (PutUvarint v) 0 <> 0)) /\
  (forall v, is_int64 v ->
     Varint (PutVarint v) = (v, Z.of_nat (length (PutVarint v))) /\
     unrolledDecodeVarint (PutVarint v) = Some (v, Z.of_nat (length (PutVarint v))) /\
     (forall buf n, Forall is_byte buf -> Varint buf = (v, n) -> 0 < n ->
        Z.of_nat (length (PutVarint v)) <= n) /\
     ((1 < length (PutVarint v))%nat -> last (PutVarint v) 0 <> 0)).
Proof.
  split; intros v Hv; repeat split.
  - rewrite <- (app_nil_r (PutUvarint v)) at 1. now apply Uvarint_PutUvarint.
  - rewrite <- (app_nil_r (PutUvarint v)) at 1. now apply unrolled_PutUvarint.
  - intros buf n Hb Hrun Hn. now apply (PutUvarint_minimal buf v n).
  - intros Hlen. apply PutUvarint_last_nonzero; [exact Hv|].
    destruct (PutUvarint_length v Hv) as (_ & Hlow & _).
    specialize (Hlow ltac:(lia)).
    assert (0 < 2 ^ (7 * (Z.of_nat (length (PutUvarint v)) - 1)))
      by (apply Z.pow_pos_nonneg; lia).
    lia.
  - rewrite <- (app_nil_r (PutVarint v)) at 1. now apply Varint_PutVarint.
  - rewrite <- (app_nil_r (PutVarint v)) at 1. now apply unrolled_PutVarint.
  - intros buf n Hb Hrun Hn. now apply (PutVarint_minimal buf v n).
  - intros Hlen. unfold PutVarint in *.
    pose proof (zigzag_uint64 v Hv) as Hz.
    apply PutUvarint_last_nonzero; [exact Hz|].
    destruct (PutUvarint_length (zigzag v) Hz) as (_ & Hlow & _).
    specialize (Hlow ltac:(lia)).
    assert (0 < 2 ^ (7 * (Z.of_nat (length (PutUvarint (zigzag v))) - 1)))
      by (apply Z.pow_pos_nonneg; lia).
    lia.
Qed.

Lemma varint_roundtrip_and_minimal_witness :
  is_uint64 300 /\ is_int64 (-300) /\
  Uvarint (PutUvarint 300) = (300, 2) /\
  Varint (PutVarint (-300)) = (-300, 2) /\
  (Forall is_byte [172; 130; 0] -> Uvarint [172; 130; 0] = (300, 3) -> 0 < 3 ->
     Z.of_nat (length (PutUvarint 300)) <= 3).
Proof.
  assert (Hu : is_uint64 300) by (unfold is_uint64; lia).
  assert (Hs : is_int64 (-300)) by (unfold is_int64; lia).
  destruct varint_roundtrip_and_minimal as [Hun Hsi].
  split; [exact Hu|]. split; [exact Hs|]. split; [|split].
  - exact (proj1 (Hun _ Hu)).
  - exact (proj1 (Hsi _ Hs)).
  - exact (proj1 (proj2 (proj2 (Hun _ Hu))) [172; 130; 0] 3).
Defined.

End VarintFacts.

(** ** The float codec *)

Module CodecFacts.
Import Int Varint Codec VarintFacts.

Lemma shl_align_same (m : positive) (e : Z) : shl_align m e e = (m, e).
Proof. unfold shl_align. now rewrite Z.sub_diag. Qed.

Lemma odd_mantissa_spec (m : positive) :
  forall e m' e', odd_mantissa m e = (m', e') ->
    Zpos (digits2_pos m') + e' = Zpos (digits2_pos m) + e /\
    e <= e' /\ (m' <= m)%positive /\
    shl_align m' e' e = (m, e).
Proof.
  induction m as [p IH | p IH |]; intros e m' e' Hodd; cbn [odd_mantissa] in Hodd.
  - injection Hodd as <- <-. repeat split; try lia. apply shl_align_same.
  - destruct (IH _ _ _ Hodd) as (Hd & He & Hm & Hal).
    cbn [digits2_pos]. rewrite Pos2Z.inj_succ.
    repeat split; try lia.
    unfold shl_align in *.
    destruct (e + 1 - e') as [|d|d] eqn:Hdiff; try lia.
    + injection Hal as -> ->.
      replace (e - (e + 1)) with (Zneg 1) by lia. reflexivity.
    + injection Hal as Hit.
      replace (e - e') with (Zneg (Pos.succ d)) by lia.
      rewrite Pos.iter_succ, Hit. reflexivity.
  - injection Hodd as <- <-. repeat split; try lia. apply shl_align_same.
Qed.

Lemma binary_round_aux_canonical (s : bool) (m : positive) (e : Z) :
  bounded prec emax m e = true ->
  binary_round_aux prec emax s (Zpos m) e loc_Exact = S754_finite s m e.
Proof.
  unfold bounded, canonical_mantissa. intros Hb.
  apply andb_prop in Hb as [Hc He]. apply Z.eqb_eq in Hc.
  unfold binary_round_aux, shr_fexp. cbn [Zdigits2 shr_record_of_loc].
  rewrite Hc, Z.sub_diag. cbn [shr shr_m loc_of_shr_record round_nearest_even Zdigits2 shr_record_of_loc].
  rewrite Hc, Z.sub_diag. cbn [shr shr_m]. now rewrite He.
Qed.

Lemma binary_round_odd_mantissa (s : bool) (m m' : positive) (e e' : Z) :
  bounded prec emax m e = true -> odd_mantissa m e = (m', e') ->
  binary_round prec emax s m' e' = S754_finite s m e.
Proof.
  intros Hb Hodd. destruct (odd_mantissa_spec _ _ _ _ Hodd) as (Hd & _ & _ & Hal).
  unfold binary_round. rewrite Hd.
  assert (Hc : fexp prec emax (Zpos (digits2_pos m) + e) = e).
  { unfold bounded, canonical_mantissa in Hb.
    apply andb_prop in Hb as [Hc _]. now apply Z.eqb_eq in Hc. }
  rewrite Hc, Hal. now apply binary_round_aux_canonical.
Qed.

Lemma digits2_pos_bound (m : positive) : Zpos m < 2 ^ Zpos (digits2_pos m).
Proof.
  induction m as [p IH | p IH |]; cbn [digits2_pos];
    rewrite ?Pos2Z.inj_succ, ?Z.pow_succ_r by lia; lia.
Qed.

Lemma bounded_ranges (m : positive) (e : Z) :
  bounded prec emax m e = true ->
  Zpos m < 2 ^ 53 /\ -1074 <= e <= 971 /\ Zpos (digits2_pos m) <= 53.
Proof.
  unfold bounded, canonical_mantissa, fexp, SpecFloat.emin, prec, emax.
  intros Hb. apply andb_prop in Hb as [Hc He].
  apply Z.eqb_eq in Hc. apply Z.leb_le in He.
  assert (Hd : Zpos (digits2_pos m) <= 53) by lia.
  repeat split; try lia.
  pose proof (digits2_pos_bound m).
  assert (2 ^ Zpos (digits2_pos m) <= 2 ^ 53) by (apply Z.pow_le_mono_r; lia).
  lia.
Qed.

(** Reading back what [writeInt] wrote. *)

Lemma PutVarint_bytes (v : Z) : Forall is_byte (PutVarint v).
Proof.
  apply PutUvarint_loop_bytes. unfold zigzag, not64, shl64, wrap64.
  destruct (v <? 0); apply Z.mod_pos_bound; lia.
Qed.

Lemma readInt_writeInt (w : binaryNomsWriter) (v : Z) (rest : list Z) :
  is_int64 v -> Forall is_byte rest ->
  readInt {| buff := writeInt w v ++ rest; offset := Z.of_nat (length w) |}
  = Some (v, {| buff := writeInt w v ++ rest;
                offset := Z.of_nat (length (writeInt w v)) |}).
Proof.
  intros Hv Hrest. unfold readInt, writeInt. cbn [buff offset].
  rewrite Nat2Z.id, <- app_assoc, skipn_app, skipn_all, Nat.sub_diag, skipn_O.
  cbn [app]. rewrite unrolled_PutVarint by assumption.
  rewrite length_app, Nat2Z.inj_add. reflexivity.
Qed.

Lemma float64ToIntExp_int64 (f : spec_float) (i exp : Z) :
  is_float64 f -> float64ToIntExp f = Some (i, exp) ->
  is_int64 i /\ is_int64 exp.
Proof.
  unfold is_float64, is_int64. intros Hvalid Hpair.
  destruct f as [s | s | | s m e]; cbn in Hpair; try discriminate.
  - injection Hpair as <- <-. lia.
  - destruct (odd_mantissa m e) as [m' e'] eqn:Hodd.
    injection Hpair as <- <-.
    destruct (odd_mantissa_spec _ _ _ _ Hodd) as (Hd & He & Hm & _).
    destruct (bounded_ranges m e Hvalid) as (Hm53 & Hrange & Hdig).
    assert (0 < Zpos (digits2_pos m')) by lia.
    split; [destruct s|]; lia.
Qed.

Lemma fracExpToFloat_float64ToIntExp (f : spec_float) (i exp : Z) :
  is_float64 f -> f <> S754_zero true ->
  float64ToIntExp f = Some (i, exp) -> fracExpToFloat i exp = f.
Proof.
  unfold is_float64. intros Hvalid Hnz Hpair.
  destruct f as [s | s | | s m e]; cbn in Hpair; try discriminate.
  - injection Hpair as <- <-. destruct s; [congruence | reflexivity].
  - destruct (odd_mantissa m e) as [m' e'] eqn:Hodd.
    injection Hpair as <- <-. unfold fracExpToFloat.
    destruct s; cbn [binary_normalize];
      now apply binary_round_odd_mantissa.
Qed.

Lemma readFloat_writeFloat (w w' : binaryNomsWriter) (f : spec_float) (rest : list Z) :
  is_float64 f -> f <> S754_zero true -> Forall is_byte rest ->
  writeFloat w f = Some w' ->
  readFloat {| buff := w' ++ rest; offset := Z.of_nat (length w) |}
  = Some (f, {| buff := w' ++ rest; offset := Z.of_nat (length w') |}).
Proof.
  intros Hvalid Hnz Hrest Hwrite. unfold writeFloat in Hwrite.
  destruct (float64ToIntExp f) as [[i exp]|] eqn:Hpair; [|discriminate].
  injection Hwrite as <-.
  destruct (float64ToIntExp_int64 f i exp Hvalid Hpair) as [Hi Hexp].
  unfold readFloat.
  assert (Hsplit : writeInt (writeInt w i) exp ++ rest
                   = writeInt w i ++ (PutVarint exp ++ rest)).
  { unfold writeInt. now rewrite <- !app_assoc. }
  rewrite Hsplit at 1.
  rewrite readInt_writeInt;
    [| exact Hi | apply Forall_app; split; [apply PutVarint_bytes | exact Hrest]].
  cbn [fst snd]. rewrite <- Hsplit.
  rewrite readInt_writeInt by assumption. cbn [fst snd].
  now rewrite (fracExpToFloat_float64ToIntExp f i exp).
Qed.

(** Numerically equal floats. *)
Lemma SFeqb_finite (f g : spec_float) :
  is_finite f = true -> is_finite g = true -> SFeqb f g = true ->
  f = g \/ (exists s s', f = S754_zero s /\ g = S754_zero s').
Proof.
  unfold SFeqb, SFcompare.
  destruct f as [s | s | | s m e], g as [s' | s' | | s' m' e']; cbn [is_finite];
    try discriminate; intros _ _ Heq.
  - right. eauto.
  - destruct s'; discriminate.
  - destruct s; discriminate.
  - left.
    destruct s, s'; try discriminate;
      destruct (Z.compare_spec e e') as [-> | |]; try discriminate;
      destruct (Pos.compare_cont Eq m m') eqn:Hm; try discriminate;
      apply Pos.compare_cont_Eq in Hm as [_ ?] || apply Pos.compare_eq in Hm;
      subst; reflexivity.
Qed.

Lemma SFeqb_refl (f : spec_float) : is_finite f = true -> SFeqb f f = true.
Proof.
  unfold SFeqb, SFcompare. destruct f as [s | s | | s m e]; cbn [is_finite];
    try discriminate; intros _; [reflexivity|].
  destruct s; rewrite Z.compare_refl;
    change (Pos.compare_cont Eq m m) with (Pos.compare m m);
    now rewrite Pos.compare_refl.
Qed.

Lemma float64ToIntExp_finite (f : spec_float) :
  is_finite f = true -> exists i exp, float64ToIntExp f = Some (i, exp).
Proof.
  destruct f as [s | s | | s m e]; cbn [is_finite]; try discriminate; intros _.
  - exists 0, 0. reflexivity.
  - cbn [float64ToIntExp]. destruct (odd_mantissa m e) as [m' e']. eauto.
Qed.

Lemma encodeFloat_writeFloat (f : spec_float) :
  encodeFloat f = writeFloat newBinaryNomsWriter f.
Proof. unfold encodeFloat. now destruct (writeFloat newBinaryNomsWriter f). Qed.

Lemma encodeFloat_finite (f : spec_float) :
  is_finite f = true -> exists bytes, encodeFloat f = Some bytes.
Proof.
  intros Hf. destruct (float64ToIntExp_finite f Hf) as (i & exp & Hp).
  rewrite encodeFloat_writeFloat. unfold writeFloat. rewrite Hp. eauto.
Qed.

Lemma decodeFloat_encodeFloat (f : spec_float) (bytes rest : list Z) :
  is_float64 f -> f <> S754_zero true -> Forall is_byte rest ->
  encodeFloat f = Some bytes ->
  decodeFloat (bytes ++ rest) = Some (f, Z.of_nat (length bytes)).
Proof.
  intros Hvalid Hnz Hrest Henc. rewrite encodeFloat_writeFloat in Henc.
  unfold decodeFloat.
  change 0 with (Z.of_nat (length newBinaryNomsWriter)).
  now rewrite (readFloat_writeFloat _ _ f rest Hvalid Hnz Hrest Henc).
Qed.

Lemma encodeFloat_SFeqb (f g : spec_float) :
  is_finite f = true -> is_finite g = true -> SFeqb f g = true ->
  encodeFloat f = encodeFloat g.
Proof.
  intros Hf Hg Heq.
  destruct (SFeqb_finite f g Hf Hg Heq) as [-> | (s & s' & -> & ->)]; reflexivity.
Qed.

Lemma spec_float_eq_dec_zero (x : spec_float) :
  (exists s, x = S754_zero s) \/ ~ (exists s, x = S754_zero s).
Proof.
  destruct x as [s | s | | s m e]; [left; eauto | right | right | right];
    intros [s' Hs]; discriminate.
Qed.

Lemma encodeFloat_injective (f g : spec_float) (bytes : list Z) :
  is_float64 f -> is_float64 g -> is_finite f = true -> is_finite g = true ->
  encodeFloat f = Some bytes -> encodeFloat g = Some bytes -> SFeqb f g = true.
Proof.
  intros Hvf Hvg Hf Hg Hef Heg.
  assert (Hnil : Forall is_byte []) by constructor.
  assert (Hzero : forall x, is_float64 x -> encodeFloat x = Some [0; 0] ->
                            exists s, x = S754_zero s).
  { intros x Hvx Hex. destruct (spec_float_eq_dec_zero x) as [[s ->] | Hx]; [eauto|].
    assert (Hxz : x <> S754_zero true) by (intros ->; apply Hx; eauto).
    pose proof (decodeFloat_encodeFloat x [0; 0] [] Hvx Hxz Hnil Hex) as Hd.
    vm_compute in Hd. injection Hd as <-. eauto. }
  destruct (spec_float_eq_dec_zero f) as [[s ->] | Hfz].
  - assert (bytes = [0; 0]) as -> by (vm_compute in Hef; congruence).
    destruct (Hzero g Hvg Heg) as [s' ->]. reflexivity.
  - destruct (spec_float_eq_dec_zero g) as [[s ->] | Hgz].
    + assert (bytes = [0; 0]) as -> by (vm_compute in Heg; congruence).
      destruct (Hzero f Hvf Hef) as [s' ->]. reflexivity.
    + assert (f <> S754_zero true) as Hf' by (intros ->; apply Hfz; eauto).
      assert (g <> S754_zero true) as Hg' by (intros ->; apply Hgz; eauto).
      pose proof (decodeFloat_encodeFloat f bytes [] Hvf Hf' Hnil Hef) as Hdf.
      pose proof (decodeFloat_encodeFloat g bytes [] Hvg Hg' Hnil Heg) as Hdg.
      rewrite Hdf in Hdg. injection Hdg as ->. now apply SFeqb_refl.
Qed.

(** C6, as amended.  For every finite float other than negative zero
    the reader gives back exactly the float that was written (same
    sign, mantissa and exponent) and consumes exactly the bytes
    the writer produced; negative zero is written as positive zero is,
    [0; 0], and read back as positive zero.  The encoding is canonical:
    two finite floats have the same encoding exactly when they are
    numerically equal. *)
Theorem float_roundtrip_up_to_sign_of_zero (f : spec_float) :
  is_float64 f -> is_finite f = true ->
  exists bytes,
    encodeFloat f = Some bytes /\
    (f <> S754_zero true ->
       forall rest, Forall is_byte rest ->
         decodeFloat (bytes ++ rest) = Some (f, Z.of_nat (length bytes))) /\
    (f = S754_zero true ->
       bytes = [0; 0] /\ decodeFloat bytes = Some (S754_zero false, 2)) /\
    (forall g, is_float64 g -> is_finite g = true ->
       (encodeFloat g = Some bytes <-> SFeqb f g = true)).
Proof.
  intros Hvalid Hfin. destruct (encodeFloat_finite f Hfin) as [bytes Henc].
  exists bytes. split; [exact Henc|]. split; [|split].
  - intros Hnz rest Hrest. now apply decodeFloat_encodeFloat.
  - intros ->. vm_compute in Henc. injection Henc as <-. split; reflexivity.
  - intros g Hvg Hg. split.
    + intros Heg. now apply (encodeFloat_injective f g bytes).
    + intros Heq. rewrite <- Henc. symmetry. now apply encodeFloat_SFeqb.
Qed.

Lemma float_roundtrip_up_to_sign_of_zero_witness :
  is_float64 (float64_of 0.75) /\ is_finite (float64_of 0.75) = true /\
  exists bytes,
    encodeFloat (float64_of 0.75) = Some bytes /\
    (float64_of 0.75 <> S754_zero true ->
       forall rest, Forall is_byte rest ->
         decodeFloat (bytes ++ rest) = Some (float64_of 0.75, Z.of_nat (length bytes))) /\
    (float64_of 0.75 = S754_zero true ->
       bytes = [0; 0] /\ decodeFloat bytes = Some (S754_zero false, 2)) /\
    (forall g, is_float64 g -> is_finite g = true ->
       (encodeFloat g = Some bytes <-> SFeqb (float64_of 0.75) g = true)).
Proof.
  split; [vm_compute; reflexivity|]. split; [vm_compute; reflexivity|].
  apply (float_roundtrip_up_to_sign_of_zero (float64_of 0.75));
    vm_compute; reflexivity.
Defined.

(** C6, as stated, fails at negative zero: it is a finite float64, it
    is written as [0; 0], and [0; 0] is read back as positive zero. *)
Lemma float_roundtrip_fails_at_negative_zero :
  ~ (forall f bytes,
       is_float64 f -> is_finite f = true -> encodeFloat f = Some bytes ->
       decodeFloat bytes = Some (f, Z.of_nat (length bytes))).
Proof.
  intros Hclaim.
  specialize (Hclaim (float64_of (-0)) [0; 0] eq_refl eq_refl eq_refl).
  vm_compute in Hclaim. discriminate.
Qed.

(** C8. The float encoder produces the two-byte vectors of the
    specification, and the decoder maps each of them back to the value,
    consuming both bytes. *)
Theorem float_example_vectors :
  (encodeFloat (float64_of 0) = Some [0; 0] /\
   encodeFloat (float64_of 1) = Some [2; 0] /\
   encodeFloat (float64_of 2) = Some [2; 2] /\
   encodeFloat (float64_of (-2)) = Some [1; 2] /\
   encodeFloat (float64_of 0.5) = Some [2; 1] /\
   encodeFloat (float64_of (-0.5)) = Some [1; 1] /\
   encodeFloat (float64_of 0.25) = Some [2; 3] /\
   encodeFloat (float64_of 256) = Some [2; 16] /\
   encodeFloat (float64_of (-15)) = Some [29; 0]) /\
  (decodeFloat [0; 0] = Some (float64_of 0, 2) /\
   decodeFloat [2; 0] = Some (float64_of 1, 2) /\
   decodeFloat [2; 2] = Some (float64_of 2, 2) /\
   decodeFloat [1; 2] = Some (float64_of (-2), 2) /\
   decodeFloat [2; 1] = Some (float64_of 0.5, 2) /\
   decodeFloat [1; 1] = Some (float64_of (-0.5), 2) /\
   decodeFloat [2; 3] = Some (float64_of 0.25, 2) /\
   decodeFloat [2; 16] = Some (float64_of 256, 2) /\
   decodeFloat [29; 0] = Some (float64_of (-15), 2)).
Proof. vm_compute. repeat split. Qed.

(** The two remaining vectors of [TestCodecWriteFloat] and
    [TestCodecReadFloat]. *)
Example float_test_vectors_3_and_15 :
  encodeFloat (float64_of 3) = Some [6; 0] /\
  encodeFloat (float64_of 15) = Some [30; 0] /\
  decodeFloat [6; 0] = Some (float64_of 3, 2) /\
  decodeFloat [30; 0] = Some (float64_of 15, 2).
Proof. vm_compute. repeat split. Qed.

End CodecFacts.

(** ** The S3 table reader *)

Module S3Facts.
Import Int S3.

Section ReaderFacts.
Context `{NBS}.

Lemma world_eq (w w' : world) :
  requests w = requests w' -> readRl w = readRl w' -> indexCache w = indexCache w' ->
  draws w = draws w' -> rand w = rand w' -> trace w = trace w' -> w = w'.
Proof. destruct w, w'; cbn; intros; subst; reflexivity. Qed.

Lemma advance_advance (w : world) (a b a' b' : nat) (evs evs' : list event) :
  advance (advance w a b evs) a' b' evs' = advance w (a + a') (b + b') (evs ++ evs').
Proof. apply world_eq; cbn; try reflexivity; try lia. now rewrite app_assoc. Qed.

Lemma advance_0 (w : world) : advance w 0 0 [] = w.
Proof. apply world_eq; cbn; try reflexivity; try lia. now rewrite app_nil_r. Qed.

Lemma read_request_run (s3tr : s3TableReader) (p : list Z) (hdr : string) (w : world) :
  let res := s3 s3tr (requests w) (input_of s3tr hdr) in
  let a := attempt_of res (length p) in
  read_request s3tr p hdr w
  = (attempt_outcome a (attempt_fill res p),
     advance w 1 0 (request_events (input_of s3tr hdr) a)).
Proof.
  cbv zeta. unfold read_request, attempt_of, attempt_fill, bind, GetObject.
  fold (input_of s3tr hdr).
  destruct (s3 s3tr (requests w) (input_of s3tr hdr)) as [result | err]; cbn.
  - destruct (ContentLength result) as [cl|]; cbn.
    + destruct (cl =? Z.of_nat (length p)); cbn.
      * destruct (ReadFull (Body result) (length p)) as [n [e|]]; cbn;
          (f_equal; apply world_eq; cbn; try reflexivity; try lia;
           now rewrite <- app_assoc).
      * f_equal. apply world_eq; cbn; try reflexivity; lia.
    + f_equal. apply world_eq; cbn; try reflexivity; lia.
  - f_equal. apply world_eq; cbn; try reflexivity; lia.
Qed.

Lemma read_run (s3tr : s3TableReader) (p : list Z) (hdr : string) (w : world) :
  gate_open w ->
  let res := s3 s3tr (requests w) (input_of s3tr hdr) in
  let a := attempt_of res (length p) in
  read s3tr p hdr w
  = (attempt_outcome a (attempt_fill res p),
     advance w 1 0 (attempt_events (gated w) (input_of s3tr hdr) a)).
Proof.
  cbv zeta. unfold gate_open, read, gated, attempt_events.
  destruct (readRl w) as [c|] eqn:Hrl; [|intros _; apply read_request_run].
  intros Hfree. unfold bind at 1. unfold chan_send. rewrite Hrl.
  apply Nat.ltb_lt in Hfree. rewrite Hfree.
  unfold defer. rewrite read_request_run. cbn [requests set_readRl].
  set (res := s3 s3tr (requests w) (input_of s3tr hdr)).
  set (a := attempt_of res (length p)).
  destruct a as [v | n err]; cbn;
    (f_equal; apply world_eq; cbn; rewrite ?Hrl; try reflexivity; try lia;
     [ destruct c; reflexivity | now rewrite <- !app_assoc ]).
Qed.

Lemma ReadFull_fill_length (r : ReadCloser) (p : list Z) :
  length (ReadFull_fill r p) = length p.
Proof.
  unfold ReadFull_fill. rewrite length_app, length_firstn, length_skipn. lia.
Qed.

Lemma attempt_fill_length (res : GetObjectOutput + error) (p : list Z) :
  length (attempt_fill res p) = length p.
Proof.
  unfold attempt_fill. destruct res as [result|]; [|reflexivity].
  destruct (ContentLength result); [|reflexivity].
  destruct (_ =? _); [apply ReadFull_fill_length | reflexivity].
Qed.

Lemma buffer_after_length (w0 : world) (s3tr : s3TableReader) (hdr : string) (n : nat)
    (p : list Z) :
  length (buffer_after w0 s3tr hdr n p) = length p.
Proof. induction n as [|n IH]; cbn; [reflexivity|]. now rewrite attempt_fill_length. Qed.

Lemma retry_loop_step (w0 : world) (s3tr : s3TableReader) (hdr : string) (p0 : list Z)
    (k fuel : nat) (n : Z) (err : option error) :
  gate_open w0 -> isConnReset err = true ->
  retry_loop (S fuel) s3tr hdr (backoff_at k) n err (buffer_after w0 s3tr hdr (S k) p0)
    (advance w0 (S k) k (readRange_events w0 s3tr hdr (length p0) k))
  = match nth_attempt w0 s3tr hdr (length p0) (S k) with
    | AttemptPanics v =>
        (Panicked v,
         advance w0 (S (S k)) (S k) (readRange_events w0 s3tr hdr (length p0) (S k)))
    | AttemptReturns n' err' =>
        retry_loop fuel s3tr hdr (backoff_at (S k)) n' err'
          (buffer_after w0 s3tr hdr (S (S k)) p0)
          (advance w0 (S (S k)) (S k) (readRange_events w0 s3tr hdr (length p0) (S k)))
    end.
Proof.
  intros Hgate Hreset.
  cbn [retry_loop]. rewrite Hreset.
  unfold bind at 1. unfold Duration.
  change (draws_random (backoff_at k)) with true. cbn [fst snd].
  unfold bind at 1. unfold emit at 1.
  unfold bind at 1. unfold emit at 1.
  unfold bind at 1.
  match goal with |- context [read s3tr ?p hdr ?w] =>
    set (w2 := w);
    assert (Hw2 : w2 = advance w0 (S k) (S k)
              (readRange_events w0 s3tr hdr (length p0) k ++
               [EvRetrying (retry_delay w0 k); EvSleep (retry_delay w0 k)]))
  end.
  { subst w2. apply world_eq; cbn; try reflexivity; try lia.
    rewrite <- !app_assoc. reflexivity. }
  rewrite Hw2. rewrite read_run by exact Hgate.
  rewrite buffer_after_length.
  cbn [requests advance].
  fold (nth_attempt w0 s3tr hdr (length p0) (S k)).
  rewrite advance_advance.
  assert (Hev :
    (readRange_events w0 s3tr hdr (length p0) k ++
       [EvRetrying (retry_delay w0 k); EvSleep (retry_delay w0 k)]) ++
      attempt_events (gated (advance w0 (S k) (S k)
           (readRange_events w0 s3tr hdr (length p0) k ++
            [EvRetrying (retry_delay w0 k); EvSleep (retry_delay w0 k)])))
        (input_of s3tr hdr) (nth_attempt w0 s3tr hdr (length p0) (S k))
    = readRange_events w0 s3tr hdr (length p0) (S k)).
  { unfold readRange_events. cbn [retries_events]. unfold nth_attempt.
    rewrite <- !app_assoc. reflexivity. }
  rewrite Hev.
  replace (S k + 1)%nat with (S (S k)) by lia.
  replace (S k + 0)%nat with (S k) by lia.
  destruct (nth_attempt w0 s3tr hdr (length p0) (S k)) as [v | n' err']; reflexivity.
Qed.

Lemma retry_loop_run (w0 : world) (s3tr : s3TableReader) (hdr : string) (p0 : list Z)
    (N : nat) :
  gate_open w0 ->
  (forall j, (j < N)%nat -> returns_conn_reset (nth_attempt w0 s3tr hdr (length p0) j) = true) ->
  returns_conn_reset (nth_attempt w0 s3tr hdr (length p0) N) = false ->
  forall m k fuel n err,
    (k + m = N)%nat -> (m <= fuel)%nat ->
    nth_attempt w0 s3tr hdr (length p0) k = AttemptReturns n err ->
    retry_loop fuel s3tr hdr (backoff_at k) n err (buffer_after w0 s3tr hdr (S k) p0)
      (advance w0 (S k) k (readRange_events w0 s3tr hdr (length p0) k))
    = (attempt_outcome (nth_attempt w0 s3tr hdr (length p0) N)
         (buffer_after w0 s3tr hdr (S N) p0),
       advance w0 (S N) N (readRange_events w0 s3tr hdr (length p0) N)).
Proof.
  intros Hgate Hresets Hfinal.
  induction m as [|m IH]; intros k fuel n err Hk Hfuel Hcur.
  - assert (k = N) as -> by lia.
    rewrite Hcur in Hfinal |- *. cbn [returns_conn_reset] in Hfinal.
    destruct fuel; cbn [retry_loop]; rewrite Hfinal; reflexivity.
  - assert (Hreset : isConnReset err = true).
    { specialize (Hresets k ltac:(lia)). now rewrite Hcur in Hresets. }
    destruct fuel as [|fuel]; [lia|].
    rewrite retry_loop_step by assumption.
    destruct (nth_attempt w0 s3tr hdr (length p0) (S k)) as [v | n' err'] eqn:Hnext.
    + assert (S k = N) as HN.
      { destruct (Nat.eq_dec (S k) N) as [E | NE]; [exact E | exfalso].
        specialize (Hresets (S k) ltac:(lia)). rewrite Hnext in Hresets. discriminate. }
      rewrite <- HN, Hnext. reflexivity.
    + apply (IH (S k) fuel n' err'); [lia | lia | exact Hnext].
Qed.

Lemma retry_loop_out_of_fuel (w0 : world) (s3tr : s3TableReader) (hdr : string)
    (p0 : list Z) (K : nat) :
  gate_open w0 ->
  (forall j, (j <= K)%nat -> returns_conn_reset (nth_attempt w0 s3tr hdr (length p0) j) = true) ->
  forall fuel k n err,
    (k + fuel = K)%nat ->
    nth_attempt w0 s3tr hdr (length p0) k = AttemptReturns n err ->
    retry_loop fuel s3tr hdr (backoff_at k) n err (buffer_after w0 s3tr hdr (S k) p0)
      (advance w0 (S k) k (readRange_events w0 s3tr hdr (length p0) k))
    = (OutOfFuel, advance w0 (S K) K (readRange_events w0 s3tr hdr (length p0) K)).
Proof.
  intros Hgate Hresets.
  induction fuel as [|fuel IH]; intros k n err Hk Hcur.
  - assert (k = K) as -> by lia.
    specialize (Hresets K ltac:(lia)). rewrite Hcur in Hresets. cbn [returns_conn_reset] in Hresets.
    cbn [retry_loop]. rewrite Hresets. reflexivity.
  - assert (Hreset : isConnReset err = true).
    { specialize (Hresets k ltac:(lia)). now rewrite Hcur in Hresets. }
    rewrite retry_loop_step by assumption.
    pose proof (Hresets (S k) ltac:(lia)) as Hnext.
    destruct (nth_attempt w0 s3tr hdr (length p0) (S k)) as [v | n' err'] eqn:Hn;
      [discriminate|].
    apply (IH (S k) n' err'); [lia | exact Hn].
Qed.

Lemma readRange_first (fuel : nat) (s3tr : s3TableReader) (hdr : string) (p0 : list Z)
    (w0 : world) :
  gate_open w0 ->
  readRange fuel s3tr p0 hdr w0
  = match nth_attempt w0 s3tr hdr (length p0) 0 with
    | AttemptPanics v =>
        (Panicked v, advance w0 1 0 (readRange_events w0 s3tr hdr (length p0) 0))
    | AttemptReturns n err =>
        if isConnReset err
        then retry_loop fuel s3tr hdr (backoff_at 0) n err (buffer_after w0 s3tr hdr 1 p0)
               (advance w0 1 0 (readRange_events w0 s3tr hdr (length p0) 0))
        else (Returned (n, err, buffer_after w0 s3tr hdr 1 p0),
              advance w0 1 0 (readRange_events w0 s3tr hdr (length p0) 0))
    end.
Proof.
  intros Hgate. unfold readRange. unfold bind at 1. rewrite read_run by exact Hgate.
  unfold nth_attempt, readRange_events. cbn [retries_events buffer_after].
  rewrite app_nil_r, Nat.add_0_r.
  destruct (attempt_of _ _) as [v | n err]; cbn [attempt_outcome fst snd]; [reflexivity|].
  destruct (isConnReset err); reflexivity.
Qed.

(** A ranged read whose first [N] attempts are reset and whose next
    attempt is not. *)
Lemma readRange_run (w0 : world) (s3tr : s3TableReader) (hdr : string) (p0 : list Z)
    (N fuel : nat) :
  gate_open w0 -> (N <= fuel)%nat ->
  (forall j, (j < N)%nat -> returns_conn_reset (nth_attempt w0 s3tr hdr (length p0) j) = true) ->
  returns_conn_reset (nth_attempt w0 s3tr hdr (length p0) N) = false ->
  readRange fuel s3tr p0 hdr w0
  = (attempt_outcome (nth_attempt w0 s3tr hdr (length p0) N)
       (buffer_after w0 s3tr hdr (S N) p0),
     advance w0 (S N) N (readRange_events w0 s3tr hdr (length p0) N)).
Proof.
  intros Hgate Hfuel Hresets Hfinal. rewrite readRange_first by exact Hgate.
  destruct (nth_attempt w0 s3tr hdr (length p0) 0) as [v | n err] eqn:H0.
  - destruct N as [|N]; [now rewrite H0|].
    specialize (Hresets O ltac:(lia)). rewrite H0 in Hresets. discriminate.
  - destruct (isConnReset err) eqn:Hreset.
    + apply (retry_loop_run w0 s3tr hdr p0 N Hgate Hresets Hfinal N 0%nat fuel n err);
        [lia | lia | exact H0].
    + destruct N as [|N]; [now rewrite H0|].
      specialize (Hresets O ltac:(lia)). rewrite H0 in Hresets. cbn in Hresets. congruence.
Qed.

(** A ranged read all of whose attempts are reset goes on for as long as
    it is given fuel. *)
Lemma readRange_out_of_fuel (w0 : world) (s3tr : s3TableReader) (hdr : string)
    (p0 : list Z) (fuel : nat) :
  gate_open w0 ->
  (forall j, (j <= fuel)%nat -> returns_conn_reset (nth_attempt w0 s3tr hdr (length p0) j) = true) ->
  readRange fuel s3tr p0 hdr w0
  = (OutOfFuel, advance w0 (S fuel) fuel (readRange_events w0 s3tr hdr (length p0) fuel)).
Proof.
  intros Hgate Hresets. rewrite readRange_first by exact Hgate.
  pose proof (Hresets O ltac:(lia)) as H0.
  destruct (nth_attempt w0 s3tr hdr (length p0) 0) as [v | n err] eqn:E0; [discriminate|].
  cbn [returns_conn_reset] in H0. rewrite H0.
  apply (retry_loop_out_of_fuel w0 s3tr hdr p0 fuel Hgate Hresets fuel 0%nat n err);
    [lia | exact E0].
Qed.

(** Every run of a ranged read is one of the two. *)
Lemma reset_prefix (f : nat -> bool) (K : nat) :
  (exists N, (N <= K)%nat /\ (forall j, (j < N)%nat -> f j = true) /\ f N = false) \/
  (forall j, (j <= K)%nat -> f j = true).
Proof.
  induction K as [|K [(N & HN & Hpre & Hfin) | Hall]].
  - destruct (f O) eqn:E.
    + right. intros j Hj. now replace j with O by lia.
    + left. exists O. repeat split; [lia | intros; lia | exact E].
  - left. exists N. repeat split; [lia | exact Hpre | exact Hfin].
  - destruct (f (S K)) eqn:E.
    + right. intros j Hj. destruct (Nat.eq_dec j (S K)) as [-> | ?]; [exact E | apply Hall; lia].
    + left. exists (S K). repeat split; [lia | intros j Hj; apply Hall; lia | exact E].
Qed.

Lemma readRange_cases (w0 : world) (s3tr : s3TableReader) (hdr : string) (p0 : list Z)
    (fuel : nat) :
  gate_open w0 ->
  exists N o,
    (N <= fuel)%nat /\
    (forall j, (j < N)%nat ->
       returns_conn_reset (nth_attempt w0 s3tr hdr (length p0) j) = true) /\
    readRange fuel s3tr p0 hdr w0
    = (o, advance w0 (S N) N (readRange_events w0 s3tr hdr (length p0) N)) /\
    (o = OutOfFuel \/
     o = attempt_outcome (nth_attempt w0 s3tr hdr (length p0) N)
           (buffer_after w0 s3tr hdr (S N) p0)).
Proof.
  intros Hgate.
  destruct (reset_prefix
              (fun j => returns_conn_reset (nth_attempt w0 s3tr hdr (length p0) j)) fuel)
    as [(N & HN & Hpre & Hfin) | Hall].
  - exists N, (attempt_outcome (nth_attempt w0 s3tr hdr (length p0) N)
                 (buffer_after w0 s3tr hdr (S N) p0)).
    split; [exact HN|]. split; [exact Hpre|].
    split; [now apply readRange_run | now right].
  - exists fuel, OutOfFuel.
    split; [lia|]. split; [intros j Hj; apply Hall; lia|].
    split; [now apply readRange_out_of_fuel | now left].
Qed.

(** *** The shape of the trace of a ranged read *)

Lemma filter_attempt_events_GetObject (g : bool) (input : GetObjectInput) (a : attempt_result) :
  List.filter is_GetObject (attempt_events g input a) = [EvGetObject input].
Proof. destruct g, a as [v | n [e|]]; reflexivity. Qed.

Lemma filter_attempt_events_retry (g : bool) (input : GetObjectInput) (a : attempt_result) :
  List.filter is_retry_step (attempt_events g input a) = [].
Proof. destruct g, a as [v | n [e|]]; reflexivity. Qed.

Lemma filter_attempt_events_Send (g : bool) (input : GetObjectInput) (a : attempt_result) :
  List.filter is_Send (attempt_events g input a) = if g then [EvSend] else [].
Proof. destruct g, a as [v | n [e|]]; reflexivity. Qed.

Lemma filter_attempt_events_Receive (g : bool) (input : GetObjectInput) (a : attempt_result) :
  List.filter is_Receive (attempt_events g input a) = if g then [EvReceive] else [].
Proof. destruct g, a as [v | n [e|]]; reflexivity. Qed.

Lemma filter_attempt_events_CachePut (g : bool) (input : GetObjectInput) (a : attempt_result) :
  List.filter is_CachePut (attempt_events g input a) = [].
Proof. destruct g, a as [v | n [e|]]; reflexivity. Qed.

Lemma gate_disciplined_attempt (input : GetObjectInput) (a : attempt_result) :
  gate_disciplined false (attempt_events true input a) = true.
Proof. destruct a as [v | n [e|]]; reflexivity. Qed.

Lemma gate_disciplined_app (evs evs' : list event) :
  forall held,
    gate_disciplined held evs = true -> gate_disciplined false evs' = true ->
    gate_disciplined held (evs ++ evs') = true.
Proof.
  induction evs as [|e evs IH]; intros held H1 H2.
  - destruct held; [discriminate | exact H2].
  - destruct e, held; cbn [app gate_disciplined negb andb] in *;
      try discriminate; auto.
Qed.

Section Events.
Variables (w : world) (s3tr : s3TableReader) (hdr : string) (len_p : nat).

Lemma filter_readRange_events_GetObject (N : nat) :
  List.filter is_GetObject (readRange_events w s3tr hdr len_p N)
  = repeat (EvGetObject (input_of s3tr hdr)) (S N).
Proof.
  unfold readRange_events. rewrite filter_app, filter_attempt_events_GetObject.
  change (repeat ?x (S N)) with ([x] ++ repeat x N). f_equal.
  induction N as [|N IH]; [reflexivity|].
  cbn [retries_events]. rewrite !filter_app, IH, filter_attempt_events_GetObject.
  cbn [List.filter is_GetObject app]. now rewrite <- repeat_cons.
Qed.

Lemma filter_readRange_events_retry (N : nat) :
  List.filter is_retry_step (readRange_events w s3tr hdr len_p N) = retry_steps w N.
Proof.
  unfold readRange_events, retry_steps.
  rewrite filter_app, filter_attempt_events_retry. cbn [app].
  induction N as [|N IH]; [reflexivity|].
  cbn [retries_events]. rewrite !filter_app, IH, filter_attempt_events_retry.
  rewrite seq_S, flat_map_app. cbn [List.filter is_retry_step flat_map app Nat.add].
  now rewrite ?app_nil_r.
Qed.

Lemma filter_readRange_events_Send (N : nat) :
  List.filter is_Send (readRange_events w s3tr hdr len_p N)
  = if gated w then repeat EvSend (S N) else [].
Proof.
  unfold readRange_events. rewrite filter_app, filter_attempt_events_Send.
  induction N as [|N IH]; [cbn; destruct (gated w); reflexivity|].
  cbn [retries_events]. rewrite !filter_app, filter_attempt_events_Send.
  rewrite app_assoc, IH. cbn [List.filter is_Send app].
  destruct (gated w); [|reflexivity].
  now rewrite <- repeat_cons.
Qed.

Lemma filter_readRange_events_Receive (N : nat) :
  List.filter is_Receive (readRange_events w s3tr hdr len_p N)
  = if gated w then repeat EvReceive (S N) else [].
Proof.
  unfold readRange_events. rewrite filter_app, filter_attempt_events_Receive.
  induction N as [|N IH]; [cbn; destruct (gated w); reflexivity|].
  cbn [retries_events]. rewrite !filter_app, filter_attempt_events_Receive.
  rewrite app_assoc, IH. cbn [List.filter is_Receive app].
  destruct (gated w); [|reflexivity].
  now rewrite <- repeat_cons.
Qed.

Lemma filter_readRange_events_CachePut (N : nat) :
  List.filter is_CachePut (readRange_events w s3tr hdr len_p N) = [].
Proof.
  unfold readRange_events. rewrite filter_app, filter_attempt_events_CachePut. cbn [app].
  induction N as [|N IH]; [reflexivity|].
  cbn [retries_events]. now rewrite !filter_app, IH, filter_attempt_events_CachePut.
Qed.

Lemma gate_disciplined_readRange_events (N : nat) :
  gated w = true -> gate_disciplined false (readRange_events w s3tr hdr len_p N) = true.
Proof.
  intros Hg. unfold readRange_events. rewrite Hg.
  apply gate_disciplined_app; [apply gate_disciplined_attempt|].
  induction N as [|N IH]; [reflexivity|].
  cbn [retries_events]. rewrite Hg.
  apply gate_disciplined_app; [exact IH|].
  cbn [app gate_disciplined negb andb]. apply gate_disciplined_attempt.
Qed.

End Events.

Lemma count_retry_steps (w : world) (N : nat) :
  count_events is_Retrying (retry_steps w N) = N.
Proof.
  unfold count_events, retry_steps. induction N as [|N IH]; [reflexivity|].
  rewrite seq_S, flat_map_app, filter_app, length_app, IH. cbn. lia.
Qed.

(** *** The delays *)

Lemma ForAttempt_bounds (k : nat) (r : Z) :
  0 <= r < 2 ^ 53 ->
  128 * Microsecond <= ForAttempt readRange_backoff k r
    <= Z.min (128 * Microsecond * 2 ^ Z.of_nat k) (1024 * Millisecond).
Proof.
  intros Hr. unfold ForAttempt, readRange_backoff, Millisecond, Microsecond, MaxInt64.
  cbn [Min Max Factor Jitter].
  change (128 * 1000 <=? 0) with false. change (1024 * (1000 * 1000) <=? 0) with false.
  change (1024 * (1000 * 1000) <=? 128 * 1000) with false. change (2 <=? 0) with false.
  cbv iota.
  assert (Hp : 1 <= 2 ^ Z.of_nat k) by (apply (Z.pow_le_mono_r 2 0); lia).
  set (P := 2 ^ Z.of_nat k) in *.
  assert (Hj : 0 <= r * (128 * 1000 * P - 128 * 1000) / 2 ^ 53 <= 128 * 1000 * P - 128 * 1000).
  { split.
    - apply Z.div_pos; [nia | lia].
    - apply Z.div_le_upper_bound; [lia | nia]. }
  set (j := r * (128 * 1000 * P - 128 * 1000) / 2 ^ 53) in *.
  clearbody j P.
  destruct (Z.leb_spec (1024 * (1000 * 1000)) (128 * 1000)); [lia|].
  destruct (Z.ltb_spec (2 ^ 63 - 1) (j + 128 * 1000)); [lia|].
  destruct (Z.ltb_spec (j + 128 * 1000) (128 * 1000)); [lia|].
  destruct (Z.ltb_spec (1024 * (1000 * 1000)) (j + 128 * 1000)); lia.
Qed.

Lemma ForAttempt_first (r : Z) : ForAttempt readRange_backoff 0 r = 128 * Microsecond.
Proof.
  unfold ForAttempt, readRange_backoff, Millisecond, Microsecond, MaxInt64.
  cbn [Min Max Factor Jitter].
  change (2 ^ Z.of_nat 0) with 1.
  replace (128 * 1000 * 1 - 128 * 1000) with 0 by lia.
  rewrite Z.mul_0_r. reflexivity.
Qed.

(** *** Construction *)

Lemma indexCache_get_run (h : addr) (w : world) :
  indexCache_get h w = (Returned (cache_lookup w h), advance w 0 0 (cache_get_events w h)).
Proof.
  unfold indexCache_get, cache_lookup, cache_get_events.
  destruct (indexCache w) as [c|] eqn:Hc.
  - cbn. f_equal. apply world_eq; cbn; rewrite ?Hc; try reflexivity; lia.
  - now rewrite advance_0.
Qed.

Lemma gate_open_advance (w : world) (a b : nat) (evs : list event) :
  gate_open w -> gate_open (advance w a b evs).
Proof. intros Hg. exact Hg. Qed.

Lemma newS3TableReader_hit (fuel : nat) (s3 : s3svc) (bucket : string) (h : addr)
    (chunkCount : Z) (w : world) (index : tableIndex) :
  cache_lookup w h = Some index ->
  newS3TableReader fuel s3 bucket h chunkCount w
  = (if chunkCount =? index_chunkCount index
     then Returned (new_source s3 bucket h (Some index))
     else Panicked PanicFalse,
     advance w 0 0 [EvCacheGet h]).
Proof.
  intros Hhit. unfold newS3TableReader. unfold bind at 1.
  rewrite indexCache_get_run, Hhit.
  assert (cache_get_events w h = [EvCacheGet h]) as ->.
  { unfold cache_get_events, cache_lookup in *. now destruct (indexCache w). }
  unfold bind, ret, PanicIfFalse, count, new_source. cbn.
  destruct (chunkCount =? index_chunkCount index); reflexivity.
Qed.

Lemma indexCache_put_run (h : addr) (index : tableIndex) (w : world) :
  indexCache_put h index w
  = (Returned tt,
     {| requests := requests w; readRl := readRl w;
        indexCache := cache_after_put w h index;
        draws := draws w; rand := rand w;
        trace := trace w ++ cache_put_events w h index |}).
Proof.
  unfold indexCache_put, cache_after_put, cache_put_events.
  destruct (indexCache w) as [c|] eqn:Hc; [reflexivity|].
  f_equal. apply world_eq; cbn; try reflexivity; [now rewrite Hc | now rewrite app_nil_r].
Qed.

Lemma newS3TableReader_miss (fuel : nat) (s3 : s3svc) (bucket : string) (h : addr)
    (chunkCount : Z) (w : world) :
  cache_lookup w h = None ->
  newS3TableReader fuel s3 bucket h chunkCount w
  = let w1 := advance w 0 0 (cache_get_events w h) in
    let r := readRange fuel (new_source s3 bucket h None)
               (repeat 0 (Z.to_nat (newS3TableReader_size chunkCount)))
               (newS3TableReader_rangeHeader chunkCount) w1 in
    after_read s3 bucket h chunkCount (fst r) (snd r).
Proof.
  intros Hmiss. unfold newS3TableReader. unfold bind at 1.
  rewrite indexCache_get_run, Hmiss. cbv zeta.
  unfold bind at 1. unfold bind at 1.
  change {| s3tr_tableReader := None; s3 := s3; bucket := bucket; h := h |}
    with (new_source s3 bucket h None).
  destruct (readRange _ _ _ _ _) as [[[[n [e|]] buff] | v | | ] w2]; cbn [fst snd after_read];
    try reflexivity.
  unfold bind at 1. unfold PanicIfError, ret. cbn [fst snd].
  unfold bind at 1. unfold PanicIfFalse.
  destruct (newS3TableReader_size chunkCount =? to_uint64 n); [|reflexivity].
  unfold ret at 1.
  destruct (parseTableIndex buff) as [index|]; [|reflexivity].
  unfold bind at 1. unfold bind at 1. rewrite indexCache_put_run.
  unfold ret at 1. unfold bind, PanicIfFalse, count, ret, panic, new_source. cbn.
  destruct (chunkCount =? index_chunkCount index); reflexivity.
Qed.

(** C1, as amended.  A ranged read retries for as long as the read of
    the response body fails with a connection reset: after [N] such
    attempts it ends with the next attempt, having made exactly [N]
    retries and [N + 1] requests; each retry logs its delay and then
    sleeps for it.  The delays are jittered between 128 microseconds and
    the doubling envelope [128us * 2^k], capped at 1.024 seconds, and
    the first is 128 microseconds.  What ends the read is returned when
    it is a success or an error of the body read that is not a reset;
    an error of the [GetObject] request itself, reset or not, is raised
    as a panic at once and is not retried.  While every attempt is
    reset the read goes on, whatever the fuel. *)
Theorem readRange_retries_body_resets
    (w0 : world) (s3tr : s3TableReader) (hdr : string) (p : list Z) (fuel : nat) :
  gate_open w0 ->
  (forall N, (N <= fuel)%nat ->
     (forall j, (j < N)%nat ->
        returns_conn_reset (nth_attempt w0 s3tr hdr (length p) j) = true) ->
     returns_conn_reset (nth_attempt w0 s3tr hdr (length p) N) = false ->
     let r := readRange fuel s3tr p hdr w0 in
     fst r = attempt_outcome (nth_attempt w0 s3tr hdr (length p) N)
               (buffer_after w0 s3tr hdr (S N) p) /\
     (forall n err, nth_attempt w0 s3tr hdr (length p) N = AttemptReturns n err ->
        fst r = Returned (n, err, buffer_after w0 s3tr hdr (S N) p)) /\
     (forall e, s3 s3tr (requests w0 + N)%nat (input_of s3tr hdr) = inr e ->
        fst r = Panicked (PanicError e)) /\
     requests (snd r) = (requests w0 + S N)%nat /\
     exists evs,
       trace (snd r) = trace w0 ++ evs /\
       List.filter is_retry_step evs = retry_steps w0 N /\
       List.filter is_GetObject evs = repeat (EvGetObject (input_of s3tr hdr)) (S N)) /\
  ((forall j, (j <= fuel)%nat ->
      returns_conn_reset (nth_attempt w0 s3tr hdr (length p) j) = true) ->
   fst (readRange fuel s3tr p hdr w0) = OutOfFuel /\
   requests (snd (readRange fuel s3tr p hdr w0)) = (requests w0 + S fuel)%nat) /\
  (forall k, 0 <= rand w0 (draws w0 + k)%nat < 2 ^ 53 ->
     128 * Microsecond <= retry_delay w0 k
       <= Z.min (128 * Microsecond * 2 ^ Z.of_nat k) (1024 * Millisecond)) /\
  retry_delay w0 0 = 128 * Microsecond.
Proof.
  intros Hgate. split; [|split; [|split]].
  - intros N HN Hresets Hfinal r. subst r.
    rewrite (readRange_run w0 s3tr hdr p N fuel Hgate HN Hresets Hfinal).
    cbn [fst snd advance requests trace].
    split; [reflexivity|]. split; [|split; [|split; [reflexivity|]]].
    + intros n err Ha. now rewrite Ha.
    + intros e He. unfold nth_attempt. now rewrite He.
    + eexists. split; [reflexivity|].
      split; [apply filter_readRange_events_retry | apply filter_readRange_events_GetObject].
  - intros Hall. rewrite (readRange_out_of_fuel w0 s3tr hdr p fuel Hgate Hall).
    split; reflexivity.
  - intros k Hr. now apply ForAttempt_bounds.
  - apply ForAttempt_first.
Qed.



Lemma count_Retrying_readRange_events (w : world) (s3tr : s3TableReader) (hdr : string)
    (len_p N : nat) :
  count_events is_Retrying (readRange_events w s3tr hdr len_p N) = N.
Proof.
  unfold count_events.
  assert (Hsub : forall l, List.filter is_Retrying l
                           = List.filter is_Retrying (List.filter is_retry_step l)).
  { induction l as [|e l IH]; [reflexivity|].
    destruct e; cbn [List.filter is_Retrying is_retry_step]; rewrite ?IH; reflexivity. }
  rewrite Hsub, filter_readRange_events_retry. apply count_retry_steps.
Qed.

Lemma newS3TableReader_count (fuel : nat) (s3 : s3svc) (bucket : string) (h : addr)
    (chunkCount : Z) (w : world) (source : s3TableReader) :
  fst (newS3TableReader fuel s3 bucket h chunkCount w) = Returned source ->
  count source = chunkCount.
Proof.
  destruct (cache_lookup w h) as [index|] eqn:Hc.
  - rewrite (newS3TableReader_hit _ _ _ _ _ _ _ Hc). cbn [fst].
    destruct (Z.eqb_spec chunkCount (index_chunkCount index)); [|discriminate].
    intros Hs. injection Hs as <-. cbn. congruence.
  - rewrite (newS3TableReader_miss _ _ _ _ _ _ Hc). cbv zeta.
    destruct (readRange _ _ _ _ _) as [[[[n [e|]] buff] | v | | ] w2];
      cbn [fst snd after_read]; try discriminate.
    destruct (_ =? to_uint64 n); [|discriminate].
    destruct (parseTableIndex buff) as [index|]; [|discriminate].
    cbn [fst].
    destruct (Z.eqb_spec chunkCount (index_chunkCount index)); [|discriminate].
    intros Hs. injection Hs as <-. cbn. congruence.
Qed.

(** C4. A chunk count of the index, from the cache or parsed, that
    differs from the expected one makes the construction panic, with no
    request after the index was obtained, and no construction returns a
    reader whose count differs from the expected one.  In a ranged
    read, a response whose content length differs from the length of
    the buffer makes the read panic; its request is the last one, even
    after earlier attempts were retried. *)
Theorem integrity_mismatch_is_fatal
    (fuel : nat) (s3 : s3svc) (bucket : string) (h : addr) (chunkCount : Z) (w : world) :
  let r := newS3TableReader fuel s3 bucket h chunkCount w in
  (forall index, cache_lookup w h = Some index -> index_chunkCount index <> chunkCount ->
     fst r = Panicked PanicFalse /\ requests (snd r) = requests w) /\
  (cache_lookup w h = None ->
   forall n buff w2 index,
     readRange fuel (new_source s3 bucket h None)
       (repeat 0 (Z.to_nat (newS3TableReader_size chunkCount)))
       (newS3TableReader_rangeHeader chunkCount)
       (advance w 0 0 (cache_get_events w h))
     = (Returned (n, None, buff), w2) ->
     newS3TableReader_size chunkCount = to_uint64 n ->
     parseTableIndex buff = Some index ->
     index_chunkCount index <> chunkCount ->
     fst r = Panicked PanicFalse /\
     requests (snd r) = requests w2 /\
     trace (snd r) = trace w2 ++ cache_put_events w2 h index) /\
  (forall source, fst r = Returned source -> count source = chunkCount) /\
  (forall (s3tr : s3TableReader) (p : list Z) (hdr : string) (w0 : world) (N : nat)
          (result : GetObjectOutput) (contentLength : Z),
     gate_open w0 -> (N <= fuel)%nat ->
     (forall j, (j < N)%nat ->
        returns_conn_reset (nth_attempt w0 s3tr hdr (length p) j) = true) ->
     S3.s3 s3tr (requests w0 + N)%nat (input_of s3tr hdr) = inl result ->
     ContentLength result = Some contentLength ->
     contentLength <> Z.of_nat (length p) ->
     fst (readRange fuel s3tr p hdr w0) = Panicked PanicFalse /\
     requests (snd (readRange fuel s3tr p hdr w0)) = (requests w0 + S N)%nat /\
     exists evs,
       trace (snd (readRange fuel s3tr p hdr w0)) = trace w0 ++ evs /\
       count_events is_Retrying evs = N /\
       count_events is_GetObject evs = S N).
Proof.
  intros r. split; [|split; [|split]].
  - intros index Hhit Hne. subst r. rewrite (newS3TableReader_hit _ _ _ _ _ _ _ Hhit).
    destruct (Z.eqb_spec chunkCount (index_chunkCount index)); [congruence|].
    cbn. split; [reflexivity | lia].
  - intros Hmiss n buff w2 index Hread Hsize Hparse Hne. subst r.
    rewrite (newS3TableReader_miss _ _ _ _ _ _ Hmiss). cbv zeta. rewrite Hread.
    cbn [fst snd after_read]. rewrite Hsize, Z.eqb_refl, Hparse.
    destruct (Z.eqb_spec chunkCount (index_chunkCount index)); [congruence|].
    cbn. repeat split.
  - intros source. apply newS3TableReader_count.
  - intros s3tr p hdr w0 N result contentLength Hgate HN Hresets Hres Hcl Hne.
    assert (Ha : nth_attempt w0 s3tr hdr (length p) N = AttemptPanics PanicFalse).
    { unfold nth_attempt, attempt_of. rewrite Hres, Hcl.
      destruct (Z.eqb_spec contentLength (Z.of_nat (length p))); [contradiction | reflexivity]. }
    assert (Hfinal : returns_conn_reset (nth_attempt w0 s3tr hdr (length p) N) = false)
      by (now rewrite Ha).
    rewrite (readRange_run w0 s3tr hdr p N fuel Hgate HN Hresets Hfinal), Ha.
    cbn [fst snd attempt_outcome advance requests trace].
    split; [reflexivity|]. split; [reflexivity|].
    eexists. split; [reflexivity|].
    split; [apply count_Retrying_readRange_events|].
    unfold count_events. rewrite filter_readRange_events_GetObject. apply repeat_length.
Qed.

(** C5. With a rate-limit channel configured and a slot free, every
    attempt sends on the channel before it issues its request and
    receives from it when it ends, whether it returns a success, returns
    an error or panics; so a ranged read, however it ends, leaves the
    channel as it found it, holds a slot at every request and none
    while it sleeps, and has sent and received once per request. *)
Theorem rate_limit_slot_released_on_every_path
    (fuel : nat) (s3tr : s3TableReader) (p : list Z) (hdr : string) (w : world) (c : chan) :
  readRl w = Some c -> (queued c < cap c)%nat ->
  (let a := attempt_of (S3.s3 s3tr (requests w) (input_of s3tr hdr)) (length p) in
   let r := read s3tr p hdr w in
   fst r = attempt_outcome a (attempt_fill (S3.s3 s3tr (requests w) (input_of s3tr hdr)) p) /\
   trace (snd r)
   = trace w ++ EvSend :: request_events (input_of s3tr hdr) a ++ [EvReceive] /\
   readRl (snd r) = Some c) /\
  (let r := readRange fuel s3tr p hdr w in
   readRl (snd r) = Some c /\
   exists evs,
     trace (snd r) = trace w ++ evs /\
     gate_disciplined false evs = true /\
     count_events is_Send evs = count_events is_GetObject evs /\
     count_events is_Receive evs = count_events is_GetObject evs).
Proof.
  intros Hrl Hfree.
  assert (Hgate : gate_open w) by (unfold gate_open; now rewrite Hrl).
  assert (Hgated : gated w = true) by (unfold gated; now rewrite Hrl).
  split.
  - cbv zeta. rewrite (read_run s3tr p hdr w Hgate). cbv zeta.
    cbn [fst snd advance trace readRl]. rewrite Hgated.
    repeat split. exact Hrl.
  - cbv zeta.
    destruct (readRange_cases w s3tr hdr p fuel Hgate) as (N & o & _ & _ & Hrun & _).
    rewrite Hrun. cbn [snd advance readRl trace].
    split; [exact Hrl|]. eexists. split; [reflexivity|].
    split; [now apply gate_disciplined_readRange_events|].
    unfold count_events.
    rewrite filter_readRange_events_Send, filter_readRange_events_Receive,
      filter_readRange_events_GetObject, Hgated, !repeat_length.
    split; reflexivity.
Qed.

Lemma ReadAt_end_wraps_once (len_p : nat) (off : Z) :
  ReadAt_end len_p off = to_int64 (off + Z.of_nat len_p - 1).
Proof.
  unfold ReadAt_end, to_int64.
  set (a := off + Z.of_nat len_p). replace (off + Z.of_nat len_p - 1) with (a - 1) by lia.
  clearbody a.
  assert (Hm : forall x, (x - 1) mod 2 ^ 64 = (x mod 2 ^ 64 - 1) mod 2 ^ 64).
  { intros x. rewrite (Zminus_mod x 1), (Zminus_mod (x mod 2 ^ 64) 1), Z.mod_mod by lia.
    reflexivity. }
  assert (Hs : forall x, (x - 2 ^ 64 - 1) mod 2 ^ 64 = (x - 1) mod 2 ^ 64).
  { intros x. replace (x - 2 ^ 64 - 1) with (x - 1 + (-1) * 2 ^ 64) by lia.
    apply Z.mod_add. lia. }
  destruct (Z.ltb_spec (a mod 2 ^ 64) (2 ^ 63)).
  - now rewrite <- Hm.
  - now rewrite Hs, <- Hm.
Qed.

Lemma to_int64_id (x : Z) : is_int64 x -> to_int64 x = x.
Proof.
  unfold is_int64, to_int64. intros Hx.
  destruct (Z.ltb_spec (x mod 2 ^ 64) (2 ^ 63));
    Z.to_euclidean_division_equations; lia.
Qed.

(** C9. For every offset and every buffer, [ReadAt] issues its
    requests, and at least one, with the range header
    ["bytes=<off>-<end>"] where [end] is [off + n - 1] as an [int64];
    for a buffer of at least one byte whose last byte offset is an
    [int64], that is the number [off + n - 1]: the inclusive range of
    exactly the [n] bytes asked for. *)
Theorem ReadAt_requests_inclusive_range
    (fuel : nat) (s3tr : s3TableReader) (p : list Z) (off : Z) (w : world) :
  gate_open w ->
  let end_ := to_int64 (off + Z.of_nat (length p) - 1) in
  let header := ("bytes=" ++ fmt_d off ++ "-" ++ fmt_d end_)%string in
  (exists N evs,
     trace (snd (ReadAt fuel s3tr p off w)) = trace w ++ evs /\
     List.filter is_GetObject evs
     = repeat (EvGetObject {| Bucket := bucket s3tr; Key := addr_String (hash s3tr);
                              Range := header |}) (S N)) /\
  (is_int64 off -> (1 <= length p)%nat -> off + Z.of_nat (length p) - 1 <= MaxInt64 ->
   end_ = off + Z.of_nat (length p) - 1 /\ end_ - off + 1 = Z.of_nat (length p)).
Proof.
  intros Hgate end_ header. split.
  - assert (Hh : ReadAt_rangeHeader (length p) off = header).
    { unfold ReadAt_rangeHeader. now rewrite ReadAt_end_wraps_once. }
    unfold ReadAt. rewrite Hh.
    destruct (readRange_cases w s3tr header p fuel Hgate) as (N & o & _ & _ & Hrun & _).
    exists N. eexists. rewrite Hrun. cbn [snd advance trace].
    split; [reflexivity|]. apply filter_readRange_events_GetObject.
  - intros Hoff Hlen Hfit. subst end_.
    rewrite to_int64_id by (unfold is_int64, MaxInt64 in *; lia). lia.
Qed.

End ReaderFacts.

(** *** The theorems at work on concrete runs *)

Import Demo.

(** Two resets while reading the body, then a full read: two retries,
    three requests, and the bytes are returned. *)
Lemma readRange_retries_body_resets_witness :
  let w := demo_world None None in
  let r := readRange 5 (demo_reader (resetting 2 [7; 8; 9])) [0; 0; 0] "bytes=0-2"%string w in
  gate_open w /\
  fst r = Returned (3, None, [7; 8; 9]) /\
  requests (snd r) = 3%nat /\
  count_events is_Retrying (trace (snd r)) = 2%nat.
Proof.
  cbv zeta. split; [exact I|].
  pose proof (readRange_retries_body_resets (demo_world None None)
                (demo_reader (resetting 2 [7; 8; 9])) "bytes=0-2"%string [0; 0; 0] 5 I)
    as (Hrun & _).
  specialize (Hrun 2%nat ltac:(lia)).
  assert (Hresets : forall j, (j < 2)%nat ->
            returns_conn_reset
              (nth_attempt (demo_world None None) (demo_reader (resetting 2 [7; 8; 9]))
                 "bytes=0-2"%string (length [0; 0; 0]) j) = true).
  { intros j Hj. destruct j as [|[|j]]; [reflexivity | reflexivity | lia]. }
  destruct (Hrun Hresets eq_refl) as (Hout & _ & _ & Hreq & _).
  split; [exact Hout|]. split; [exact Hreq|]. vm_compute. reflexivity.
Defined.

(** C1, as stated, fails where the request itself is reset: the attempt
    fails with a connection reset, and the read panics after its one
    request, with no retry and nothing returned. *)
Lemma readRange_panics_on_reset_of_the_request :
  let w := demo_world None None in
  let s3tr := demo_reader refusing in
  let r := readRange 5 s3tr [0; 0; 0] "bytes=0-2"%string w in
  isConnReset (attempt_error (nth_attempt w s3tr "bytes=0-2"%string 3 0)) = true /\
  fst r = Panicked (PanicError reset_error) /\
  requests (snd r) = 1%nat /\
  count_events is_Retrying (trace (snd r)) = 0%nat /\
  count_events is_GetObject (trace (snd r)) = 1%nat.
Proof. vm_compute. repeat split. Qed.


(** A cached index of two chunks where one is expected, and a response
    that declares four bytes for a buffer of three. *)
Lemma integrity_mismatch_is_fatal_witness :
  let hit := demo_world None (Some (<[7 := [4; 5; 6; 7]]> ∅)) in
  let w := demo_world None None in
  cache_lookup hit 7 = Some [4; 5; 6; 7] /\
  index_chunkCount [4; 5; 6; 7] <> 1 /\
  fst (newS3TableReader 5 (serving [4; 5; 6]) "bucket"%string 7 1 hit) = Panicked PanicFalse /\
  gate_open w /\
  fst (readRange 5 (demo_reader (overlong [7; 8; 9])) [0; 0; 0] "bytes=0-2"%string w)
  = Panicked PanicFalse /\
  requests (snd (readRange 5 (demo_reader (overlong [7; 8; 9])) [0; 0; 0] "bytes=0-2"%string w))
  = 1%nat.
Proof.
  cbv zeta.
  assert (Hhit : cache_lookup (demo_world None (Some (<[7 := [4; 5; 6; 7]]> ∅))) 7
                 = Some [4; 5; 6; 7]) by (vm_compute; reflexivity).
  assert (Hne : index_chunkCount [4; 5; 6; 7] <> 1) by (vm_compute; discriminate).
  split; [exact Hhit|]. split; [exact Hne|].
  split.
  - pose proof (integrity_mismatch_is_fatal 5 (serving [4; 5; 6]) "bucket"%string 7 1
                  (demo_world None (Some (<[7 := [4; 5; 6; 7]]> ∅)))) as (Hcached & _).
    exact (proj1 (Hcached _ Hhit Hne)).
  - split; [exact I|].
    pose proof (integrity_mismatch_is_fatal 5 (serving [4; 5; 6]) "bucket"%string 7 1
                  (demo_world None None)) as (_ & _ & _ & Hlen).
    destruct (Hlen (demo_reader (overlong [7; 8; 9])) [0; 0; 0] "bytes=0-2"%string
                (demo_world None None) O
                {| ContentLength := Some 4;
                   Body := {| delivered := [7; 8; 9]; failure := None |} |} 4
                I ltac:(lia) ltac:(intros j Hj; lia) eq_refl eq_refl ltac:(discriminate))
      as (Hout & Hreq & _).
    split; [exact Hout | exact Hreq].
Defined.

(** A read through a channel of capacity one, with one reset. *)
Lemma rate_limit_slot_released_on_every_path_witness :
  let c := {| cap := 1; queued := 0 |} in
  let w := demo_world (Some c) None in
  let r := readRange 5 (demo_reader (resetting 1 [7; 8; 9])) [0; 0; 0] "bytes=0-2"%string w in
  readRl w = Some c /\ (queued c < cap c)%nat /\
  readRl (snd r) = Some c /\
  exists evs,
    trace (snd r) = trace w ++ evs /\
    gate_disciplined false evs = true /\
    count_events is_Send evs = count_events is_GetObject evs /\
    count_events is_Receive evs = count_events is_GetObject evs.
Proof.
  cbv zeta. split; [reflexivity|]. split; [cbn; lia|].
  exact (proj2 (rate_limit_slot_released_on_every_path 5
                  (demo_reader (resetting 1 [7; 8; 9])) [0; 0; 0] "bytes=0-2"%string
                  (demo_world (Some {| cap := 1; queued := 0 |}) None)
                  {| cap := 1; queued := 0 |} eq_refl ltac:(cbn; lia))).
Defined.

(** Four bytes at offset 100. *)
Lemma ReadAt_requests_inclusive_range_witness :
  let w := demo_world None None in
  gate_open w /\
  is_int64 100 /\ (1 <= length [0; 0; 0; 0])%nat /\
  100 + Z.of_nat (length [0; 0; 0; 0]) - 1 <= MaxInt64 /\
  to_int64 (100 + Z.of_nat (length [0; 0; 0; 0]) - 1) = 103 /\
  exists N evs,
    trace (snd (ReadAt 5 (demo_reader (serving [1; 2; 3; 4])) [0; 0; 0; 0] 100 w))
    = trace w ++ evs /\
    List.filter is_GetObject evs
    = repeat (EvGetObject {| Bucket := "bucket"%string; Key := "table-7"%string;
                             Range := "bytes=100-103"%string |}) (S N).
Proof.
  cbv zeta.
  assert (H1 : is_int64 100) by (unfold is_int64; lia).
  assert (H2 : (1 <= length [0; 0; 0; 0])%nat) by (cbn; lia).
  assert (H3 : 100 + Z.of_nat (length [0; 0; 0; 0]) - 1 <= MaxInt64)
    by (unfold MaxInt64; cbn; lia).
  split; [exact I|]. split; [exact H1|]. split; [exact H2|]. split; [exact H3|].
  destruct (ReadAt_requests_inclusive_range 5 (demo_reader (serving [1; 2; 3; 4]))
              [0; 0; 0; 0] 100 (demo_world None None) I) as (Hreq & Hend).
  split; [exact (proj1 (Hend H1 H2 H3)) | exact Hreq].
Defined.

End S3Facts.

(** ** The SQL table editor *)

Module SqleFacts.
Import Sqle.

Section EditorFacts.
Context `{Dolt}.

(** C10. An [Update] whose new row has another primary key than the
    old row, and that returns nil, has found no row under the new key
    in the table and has only removed the old key from the pending
    edits: the old key is gone, and the new key holds what it held
    before the call, nothing where it held nothing; the new row is not
    written.  Only with an unchanged key is the new row set. *)
Theorem Update_changed_key_only_removes
    (u u' : tableEditor) (oldRow newRow : sql_Row) (dOldRow dNewRow : row_Row)
    (dOldKeyVal dNewKeyVal : Tuple) (e : MapEditor) :
  SqlRowToDoltRow (table (t u)) oldRow = inl dOldRow ->
  SqlRowToDoltRow (table (t u)) newRow = inl dNewRow ->
  NomsMapKey_Value dOldRow = inl dOldKeyVal ->
  NomsMapKey_Value dNewRow = inl dNewKeyVal ->
  editor_before u = inl e ->
  Update u oldRow newRow = (None, u') ->
  (dOldKeyVal <> dNewKeyVal ->
     GetRow (table (t u)) dNewKeyVal = inl false /\
     ed u' = Some (MapEditor_Remove dOldKeyVal e) /\
     MapEditor_Remove dOldKeyVal e !! dOldKeyVal = None /\
     MapEditor_Remove dOldKeyVal e !! dNewKeyVal = e !! dNewKeyVal /\
     (e !! dNewKeyVal = None -> MapEditor_Remove dOldKeyVal e !! dNewKeyVal = None)) /\
  (dOldKeyVal = dNewKeyVal ->
     ed u' = Some (MapEditor_Set dOldKeyVal (NomsMapValue dNewRow) e)).
Proof.
  intros Hold Hnew Hkold Hknew Hed Hupd.
  unfold Update in Hupd.
  rewrite Hold, Hnew, Hkold, Hknew, Hed in Hupd.
  split.
  - intros Hne. rewrite bool_decide_eq_false_2 in Hupd by exact Hne.
    cbn [negb] in Hupd.
    destruct (GetRow (table (t u)) dNewKeyVal) as [[|]|err]; try discriminate.
    injection Hupd as <-. cbn [ed]. unfold MapEditor_Remove, MapEditor in *.
    repeat split.
    + apply lookup_delete_eq.
    + now apply lookup_delete_ne.
    + intros Hnone. rewrite lookup_delete_ne by exact Hne. exact Hnone.
  - intros Heq. rewrite bool_decide_eq_true_2 in Hupd by exact Heq.
    cbn [negb] in Hupd. injection Hupd as <-. reflexivity.
Qed.

End EditorFacts.

Import Demo.

(** Moving the row of key 1 to the free key 2: the editor loses key 1
    and gains nothing under key 2. *)
Lemma Update_changed_key_only_removes_witness :
  let u' := snd (Update demo_editor [1; 10] [2; 20]) in
  Update demo_editor [1; 10] [2; 20] = (None, u') /\
  (1 : Z) <> 2 /\
  ed u' = Some (MapEditor_Remove 1 demo_table) /\
  MapEditor_Remove 1 demo_table !! (2 : Z) = None.
Proof.
  cbv zeta.
  assert (Hupd : Update demo_editor [1; 10] [2; 20]
                 = (None, snd (Update demo_editor [1; 10] [2; 20])))
    by (vm_compute; reflexivity).
  assert (Hne : (1 : Z) <> 2) by discriminate.
  split; [exact Hupd|]. split; [exact Hne|].
  destruct (Update_changed_key_only_removes demo_editor
              (snd (Update demo_editor [1; 10] [2; 20])) [1; 10] [2; 20]
              [1; 10] [2; 20] 1 2 demo_table eq_refl eq_refl eq_refl eq_refl eq_refl Hupd)
    as (Hdiff & _).
  destruct (Hdiff Hne) as (_ & Hed & _ & _ & Hnew).
  split; [exact Hed|]. apply Hnew. vm_compute. reflexivity.
Defined.

End SqleFacts.

(** * Further properties of the code *)

(** ** Varints: the benchmark's entries, lengths and edge cases *)

Module VarintEdgeFacts.
Import Int Varint VarintFacts.

(** *** The length of an encoding, by the size of the value *)

Lemma PutUvarint_length_le (v k : Z) :
  is_uint64 v -> 1 <= k ->
  (Z.of_nat (length (PutUvarint v)) <= k <-> v < 2 ^ (7 * k)).
Proof.
  intros Hv Hk. destruct (PutUvarint_length v Hv) as (Hn & Hlow & Hup).
  set (n := Z.of_nat (length (PutUvarint v))) in *. split.
  - intros Hle.
    assert (2 ^ (7 * n) <= 2 ^ (7 * k)) by (apply Z.pow_le_mono_r; lia). lia.
  - intros Hlt. destruct (Z.le_gt_cases n k) as [Hle | Hgt]; [exact Hle | exfalso].
    specialize (Hlow ltac:(lia)).
    assert (2 ^ (7 * k) <= 2 ^ (7 * (n - 1))) by (apply Z.pow_le_mono_r; lia). lia.
Qed.

Lemma PutUvarint_length_between (v k : Z) :
  0 <= k <= 9 -> 0 <= v < 2 ^ (7 * (k + 1)) -> v < 2 ^ 64 ->
  (k = 0 \/ 2 ^ (7 * k) <= v) ->
  Z.of_nat (length (PutUvarint v)) = k + 1.
Proof.
  intros Hk Hv H64 Hlow.
  assert (Hu : is_uint64 v) by (unfold is_uint64; lia).
  pose proof (proj2 (PutUvarint_length_le v (k + 1) Hu ltac:(lia)) ltac:(lia)) as Hle.
  destruct (PutUvarint_length v Hu) as (Hn & _ & _).
  destruct (Z.eq_dec k 0) as [-> | Hk0]; [lia|].
  destruct Hlow as [? | Hlow]; [lia|].
  destruct (Z.le_gt_cases (Z.of_nat (length (PutUvarint v))) k) as [Hc | Hc]; [|lia].
  apply (PutUvarint_length_le v k Hu) in Hc; lia.
Qed.

(** The bytes of an encoding before its last are continuation bytes. *)
Lemma PutUvarint_loop_continuation (fuel : nat) :
  forall v k, 0 <= v -> (k < length (PutUvarint_loop fuel v))%nat ->
    Forall (fun b => 0x80 <= b) (firstn k (PutUvarint_loop fuel v)).
Proof.
  induction fuel as [|fuel IH]; intros v k Hv Hk.
  - cbn in Hk. replace k with O by lia. constructor.
  - cbn [PutUvarint_loop] in *. destruct (0x80 <=? v).
    + destruct k as [|k]; [constructor|]. cbn [firstn length] in *. constructor.
      * rewrite cont_byte by lia. pose proof (Z.mod_pos_bound v 128). lia.
      * apply IH; [apply Z.shiftr_nonneg; exact Hv | lia].
    + cbn in Hk. replace k with O by lia. constructor.
Qed.

Lemma Uvarint_loop_continuation (buf : list Z) :
  Forall (fun b => 0x80 <= b) buf ->
  forall i x s, Uvarint_loop buf i x s = (0, 0).
Proof.
  induction 1 as [|b buf Hb _ IH]; intros i x s; [reflexivity|].
  rewrite Uvarint_loop_cons. destruct (Z.ltb_spec b 0x80); [lia | apply IH].
Qed.

Lemma Uvarint_loop_count (buf : list Z) :
  forall i x s, 0 <= i ->
    snd (Uvarint_loop buf i x s) <= 10 /\
    snd (Uvarint_loop buf i x s) <= i + Z.of_nat (length buf) /\
    (snd (Uvarint_loop buf i x s) <= 0 -> fst (Uvarint_loop buf i x s) = 0).
Proof.
  induction buf as [|b buf IH]; intros i x s Hi; [cbn; lia|].
  rewrite Uvarint_loop_cons. cbn [length]. destruct (b <? 0x80).
  - destruct (Z.ltb_spec 9 i) as [H9 | H9]; cbn [orb fst snd]; [lia|].
    destruct ((i =? 9) && (1 <? b)); cbn [fst snd]; lia.
  - destruct (IH (i + 1) (Z.lor x (shl64 (Z.land b 0x7f) s)) (s + 7)) as (H1 & H2 & H3); lia.
Qed.

(** X1. The entries [BenchmarkUnrolledDecodeUVarint] prepares are as it
    requires them: for every index [i] and every random number, the
    value built from [i mod 9] continuation groups is written in
    [i mod 9 + 1] bytes into the nine-byte buffer, and both decoders of
    the benchmark, given the whole buffer, return that value and that
    size. *)
Theorem benchmark_entries_decode_to_their_values (i : nat) (r : Z) :
  exists e,
    toDecode i r = Some (e, Z.of_nat (i mod 9) + 1) /\
    is_uint64 (val e) /\
    length (encoding e) = 9%nat /\
    Uvarint (encoding e) = (val e, Z.of_nat (i mod 9) + 1) /\
    unrolledDecodeUVarint (encoding e) = Some (val e, Z.of_nat (i mod 9) + 1).
Proof.
  unfold toDecode, toDecode_min.
  assert (Hj : (i mod 9 < 9)%nat) by (apply Nat.mod_upper_bound; lia).
  set (j := (i mod 9)%nat) in *. clearbody j.
  rewrite land_0x7f.
  assert (Hr : 0 <= r mod 128 < 128) by (apply Z.mod_pos_bound; lia).
  set (low := r mod 128) in *. clearbody low.
  set (m := Nat.iter j (fun min => Z.lor (shl64 min 7) 0x80) 0).
  assert (Hm : 0 <= m /\ m + 128 <= 2 ^ (7 * (Z.of_nat j + 1)) /\
               (j = O \/ 2 ^ (7 * Z.of_nat j) <= m)).
  { subst m. do 9 (destruct j as [|j]; [vm_compute; intuition congruence|]). lia. }
  destruct Hm as (Hm0 & Hmup & Hmlow).
  assert (Hpow : 2 ^ (7 * (Z.of_nat j + 1)) <= 2 ^ 63)
    by (apply Z.pow_le_mono_r; lia).
  assert (Hw : wrap64 (m + low) = m + low) by (unfold wrap64; apply Z.mod_small; lia).
  rewrite Hw. set (v := m + low) in *.
  assert (Hv : is_uint64 v) by (unfold is_uint64; lia).
  assert (Hlen : Z.of_nat (length (PutUvarint v)) = Z.of_nat j + 1).
  { apply PutUvarint_length_between; lia. }
  unfold PutUvarint_into. rewrite repeat_length.
  destruct (Nat.leb_spec (length (PutUvarint v)) 9) as [_ | ?]; [|lia].
  eexists. split; [cbn [fst snd]; rewrite Hlen; reflexivity|].
  cbn [val encoding]. split; [exact Hv|]. split; [|split].
  - rewrite length_app, length_skipn, repeat_length. lia.
  - rewrite Uvarint_PutUvarint by exact Hv. now rewrite Hlen.
  - rewrite unrolled_PutUvarint; [now rewrite Hlen | exact Hv |].
    apply Forall_forall. intros b Hb.
    assert (Hin : In b (repeat 0 9)).
    { rewrite <- (firstn_skipn (length (PutUvarint v)) (repeat 0 9)).
      apply in_or_app. now right. }
    apply repeat_spec in Hin. subst b. unfold is_byte. lia.
Qed.

(** X2. The zig-zag encoding of the test's comment: a signed value [n]
    is written as the unsigned varint of [2*n] where it is not negative
    and of [2*(-n) - 1] where it is; so the values of small magnitude
    are the short ones: the encoding has at most [k] bytes exactly
    where [-2^(7k-1) <= n < 2^(7k-1)]. *)
Theorem PutVarint_length_by_magnitude (n k : Z) :
  is_int64 n -> 1 <= k <= 9 ->
  PutVarint n = PutUvarint (if n <? 0 then 2 * (- n) - 1 else 2 * n) /\
  (Z.of_nat (length (PutVarint n)) <= k <-> - 2 ^ (7 * k - 1) <= n < 2 ^ (7 * k - 1)).
Proof.
  intros Hn Hk. unfold PutVarint.
  pose proof (zigzag_uint64 n Hn) as Hz. rewrite zigzag_value in * by exact Hn.
  split; [destruct (n <? 0); f_equal; lia|].
  rewrite PutUvarint_length_le by (try exact Hz; lia).
  replace (7 * k) with ((7 * k - 1) + 1) at 1 by lia.
  rewrite Z.pow_add_r by lia. change (2 ^ 1) with 2.
  destruct (Z.ltb_spec n 0); lia.
Qed.

(** X3. A truncated encoding is not decoded: of any proper prefix of
    the encoding of a value, the byte-at-a-time decoder returns the
    value 0 and the count 0, which is how it reports a buffer that is
    too small. *)
Theorem Uvarint_of_truncated_encoding (v : Z) (k : nat) :
  is_uint64 v -> (k < length (PutUvarint v))%nat ->
  Uvarint (firstn k (PutUvarint v)) = (0, 0) /\
  Varint (firstn k (PutUvarint v)) = (0, 0).
Proof.
  intros [Hv _] Hk.
  assert (E : Uvarint (firstn k (PutUvarint v)) = (0, 0)).
  { apply Uvarint_loop_continuation. now apply PutUvarint_loop_continuation. }
  split; [exact E|]. unfold Varint. rewrite E. reflexivity.
Qed.

(** X4. Whatever the buffer holds, the byte-at-a-time decoder returns a
    count of at most 10 and of at most the length of the buffer, and a
    value that is a [uint64]; a count that is not positive (the buffer
    is too small, or the varint overflows 64 bits) comes with the
    value 0.  An empty buffer gives the count 0. *)
Theorem Uvarint_count_is_bounded (buf : list Z) :
  snd (Uvarint buf) <= 10 /\
  snd (Uvarint buf) <= Z.of_nat (length buf) /\
  is_uint64 (fst (Uvarint buf)) /\
  (snd (Uvarint buf) <= 0 -> fst (Uvarint buf) = 0) /\
  Uvarint [] = (0, 0).
Proof.
  unfold Uvarint.
  destruct (Uvarint_loop_count buf 0 0 0 ltac:(lia)) as (H1 & H2 & H3).
  repeat split; try assumption; try lia.
  - apply (Uvarint_loop_uint64 buf 0 0 0). unfold is_uint64. lia.
  - apply (Uvarint_loop_uint64 buf 0 0 0). unfold is_uint64. lia.
Qed.

(** X5. No encoding is the beginning of another: two byte streams that
    start with the encodings of two values and are equal start with the
    same value and go on alike.  So varints written one after the
    other, as the float codec writes them, are read back in one way
    only. *)
Theorem varint_streams_split_in_one_way (a b : Z) (r1 r2 : list Z) :
  (is_uint64 a -> is_uint64 b ->
   PutUvarint a ++ r1 = PutUvarint b ++ r2 -> a = b /\ r1 = r2) /\
  (is_int64 a -> is_int64 b ->
   PutVarint a ++ r1 = PutVarint b ++ r2 -> a = b /\ r1 = r2).
Proof.
  split; intros Ha Hb Heq.
  - pose proof (Uvarint_PutUvarint a r1 Ha) as H1.
    pose proof (Uvarint_PutUvarint b r2 Hb) as H2.
    rewrite Heq, H2 in H1. injection H1 as -> _.
    split; [reflexivity|]. now apply app_inv_head in Heq.
  - pose proof (Varint_PutVarint a r1 Ha) as H1.
    pose proof (Varint_PutVarint b r2 Hb) as H2.
    rewrite Heq, H2 in H1. injection H1 as -> _.
    split; [reflexivity|]. now apply app_inv_head in Heq.
Qed.

(** *** The theorems at work on concrete values *)

(** The value -64 is the least that takes one byte. *)
Lemma PutVarint_length_by_magnitude_witness :
  is_int64 (-64) /\ PutVarint (-64) = PutUvarint 127 /\
  Z.of_nat (length (PutVarint (-64))) <= 1.
Proof.
  assert (Hn : is_int64 (-64)) by (unfold is_int64; lia).
  destruct (PutVarint_length_by_magnitude (-64) 1 Hn ltac:(lia)) as (Henc & Hlen).
  split; [exact Hn|]. split; [exact Henc|]. apply Hlen. vm_compute. split; congruence.
Defined.

(** The first of the two bytes of 300 alone is not decoded. *)
Lemma Uvarint_of_truncated_encoding_witness :
  is_uint64 300 /\ (1 < length (PutUvarint 300))%nat /\
  Uvarint (firstn 1 (PutUvarint 300)) = (0, 0).
Proof.
  assert (Hv : is_uint64 300) by (unfold is_uint64; lia).
  assert (Hk : (1 < length (PutUvarint 300))%nat) by (vm_compute; lia).
  split; [exact Hv|]. split; [exact Hk|].
  exact (proj1 (Uvarint_of_truncated_encoding 300 1 Hv Hk)).
Defined.

(** The encoding of 300 followed by a byte is not that of 44 followed
    by others: equal streams carry equal values. *)
Lemma varint_streams_split_in_one_way_witness :
  is_uint64 300 /\ PutUvarint 300 ++ [1] = PutUvarint 300 ++ [1] /\
  (300 = 300 /\ [1] = [1]).
Proof.
  assert (Hv : is_uint64 300) by (unfold is_uint64; lia).
  split; [exact Hv|]. split; [reflexivity|].
  exact (proj1 (varint_streams_split_in_one_way 300 300 [1] [1]) Hv Hv eq_refl).
Defined.

End VarintEdgeFacts.

(** ** The S3 table reader: results, edge cases and the rate limit *)

Module ReaderEdgeFacts.
Import Int S3 S3Facts.

Section ReaderEdgeCases.
Context `{NBS}.

(** *** What [io.ReadFull] and [isConnReset] return *)

Lemma ReadFull_count (r : ReadCloser) (len_p : nat) :
  fst (ReadFull r len_p) = Z.of_nat (Nat.min len_p (length (delivered r))) /\
  (snd (ReadFull r len_p) = None <-> (len_p <= length (delivered r))%nat).
Proof.
  unfold ReadFull.
  destruct (Nat.leb_spec len_p (Nat.min len_p (length (delivered r)))) as [Hle | Hlt];
    cbn [fst snd]; (split; [reflexivity|]); split; intros Hx; try lia; try reflexivity.
  discriminate.
Qed.

Lemma isConnReset_wrapped (err : option error) :
  isConnReset err = true <-> err = Some (NetOpError (OsSyscallError (Errno ECONNRESET))).
Proof.
  split.
  - destruct err as [[[| [] | | | |] | | | | |]|]; cbn; try discriminate.
    intros Hn. apply Z.eqb_eq in Hn. now subst.
  - intros ->. reflexivity.
Qed.

Lemma ReadFull_broken (r : ReadCloser) (len_p : nat) (e : error) :
  (length (delivered r) < len_p)%nat -> failure r = Some e -> e <> EOF ->
  ReadFull r len_p = (Z.of_nat (length (delivered r)), Some e).
Proof.
  intros Hk Hf He. unfold ReadFull. rewrite Hf.
  replace (Nat.min len_p (length (delivered r))) with (length (delivered r)) by lia.
  destruct (Nat.leb_spec len_p (length (delivered r))); [lia|].
  destruct e; try reflexivity. congruence.
Qed.

Lemma ReadFull_fill_short (r : ReadCloser) (p : list Z) :
  (length (delivered r) <= length p)%nat ->
  ReadFull_fill r p = delivered r ++ skipn (length (delivered r)) p.
Proof.
  intros Hk. unfold ReadFull_fill.
  replace (Nat.min (length p) (length (delivered r))) with (length (delivered r)) by lia.
  now rewrite firstn_all.
Qed.

(** Every run of a ranged read: it ends with the first attempt that is
    not reset, or every attempt is reset and the fuel runs out. *)
Lemma readRange_ends (w0 : world) (s3tr : s3TableReader) (hdr : string) (p0 : list Z)
    (fuel : nat) :
  gate_open w0 ->
  (exists N,
     (N <= fuel)%nat /\
     (forall j, (j < N)%nat ->
        returns_conn_reset (nth_attempt w0 s3tr hdr (length p0) j) = true) /\
     returns_conn_reset (nth_attempt w0 s3tr hdr (length p0) N) = false /\
     readRange fuel s3tr p0 hdr w0
     = (attempt_outcome (nth_attempt w0 s3tr hdr (length p0) N)
          (buffer_after w0 s3tr hdr (S N) p0),
        advance w0 (S N) N (readRange_events w0 s3tr hdr (length p0) N))) \/
  ((forall j, (j <= fuel)%nat ->
      returns_conn_reset (nth_attempt w0 s3tr hdr (length p0) j) = true) /\
   readRange fuel s3tr p0 hdr w0
   = (OutOfFuel, advance w0 (S fuel) fuel (readRange_events w0 s3tr hdr (length p0) fuel))).
Proof.
  intros Hgate.
  destruct (reset_prefix
              (fun j => returns_conn_reset (nth_attempt w0 s3tr hdr (length p0) j)) fuel)
    as [(N & HN & Hpre & Hfin) | Hall].
  - left. exists N. repeat split; try assumption. now apply readRange_run.
  - right. split; [exact Hall | now apply readRange_out_of_fuel].
Qed.

Lemma nth_attempt_0 (w0 : world) (s3tr : s3TableReader) (hdr : string) (len_p : nat) :
  nth_attempt w0 s3tr hdr len_p 0
  = attempt_of (s3 s3tr (requests w0) (input_of s3tr hdr)) len_p.
Proof. unfold nth_attempt. now rewrite Nat.add_0_r. Qed.

(** A ranged read whose first attempt is not reset is that attempt. *)
Lemma readRange_one_attempt (w0 : world) (s3tr : s3TableReader) (hdr : string)
    (p0 : list Z) (fuel : nat) :
  gate_open w0 ->
  let res := s3 s3tr (requests w0) (input_of s3tr hdr) in
  returns_conn_reset (attempt_of res (length p0)) = false ->
  readRange fuel s3tr p0 hdr w0
  = (attempt_outcome (attempt_of res (length p0)) (attempt_fill res p0),
     advance w0 1 0
       (attempt_events (gated w0) (input_of s3tr hdr) (attempt_of res (length p0)))).
Proof.
  intros Hgate res Hfin.
  rewrite (readRange_run w0 s3tr hdr p0 0 fuel Hgate ltac:(lia) ltac:(intros; lia))
    by (rewrite nth_attempt_0; exact Hfin).
  rewrite nth_attempt_0. unfold readRange_events. cbn [retries_events buffer_after].
  now rewrite app_nil_r, Nat.add_0_r.
Qed.

(** X6. A ranged read that ends with a response that declares the
    length of the buffer and delivers at least as many bytes returns
    that length and no error, and the buffer holds the first bytes of
    that response and nothing of the attempts that were reset before
    it; it made one request per attempt and one retry per reset. *)
Theorem readRange_returns_the_bytes_served
    (w0 : world) (s3tr : s3TableReader) (hdr : string) (p : list Z) (fuel N : nat)
    (result : GetObjectOutput) :
  gate_open w0 -> (N <= fuel)%nat ->
  (forall j, (j < N)%nat ->
     returns_conn_reset (nth_attempt w0 s3tr hdr (length p) j) = true) ->
  s3 s3tr (requests w0 + N)%nat (input_of s3tr hdr) = inl result ->
  ContentLength result = Some (Z.of_nat (length p)) ->
  (length p <= length (delivered (Body result)))%nat ->
  let r := readRange fuel s3tr p hdr w0 in
  fst r = Returned (Z.of_nat (length p), None,
                    firstn (length p) (delivered (Body result))) /\
  requests (snd r) = (requests w0 + S N)%nat /\
  exists evs,
    trace (snd r) = trace w0 ++ evs /\
    count_events is_Retrying evs = N /\
    count_events is_GetObject evs = S N.
Proof.
  intros Hgate HN Hresets Hres Hcl Hlen r. subst r.
  destruct (ReadFull_count (Body result) (length p)) as (Hn & Herr).
  assert (Ha : nth_attempt w0 s3tr hdr (length p) N
               = AttemptReturns (Z.of_nat (length p)) None).
  { unfold nth_attempt, attempt_of. rewrite Hres, Hcl, Z.eqb_refl, Hn.
    rewrite (proj2 Herr Hlen). do 2 f_equal. lia. }
  rewrite (readRange_run w0 s3tr hdr p N fuel Hgate HN Hresets)
    by (rewrite Ha; reflexivity).
  rewrite Ha. cbn [fst snd attempt_outcome advance requests trace buffer_after].
  split; [|split; [reflexivity|]].
  - do 2 f_equal. unfold attempt_fill. rewrite Hres, Hcl, buffer_after_length, Z.eqb_refl.
    unfold ReadFull_fill. rewrite buffer_after_length.
    replace (Nat.min (length p) (length (delivered (Body result)))) with (length p) by lia.
    rewrite skipn_all2 by (rewrite buffer_after_length; lia).
    apply app_nil_r.
  - eexists. split; [reflexivity|].
    split; [apply count_Retrying_readRange_events|].
    unfold count_events. rewrite filter_readRange_events_GetObject. apply repeat_length.
Qed.

(** X7. [ReadAt] keeps the contract of [io.ReaderAt]: whenever it
    returns, the count lies between 0 and the length of the buffer, it
    is the length of the buffer exactly where the error is nil, and the
    buffer has kept its length; and the error it returns is never a
    connection reset. *)
Theorem ReadAt_keeps_the_ReaderAt_contract
    (fuel : nat) (s3tr : s3TableReader) (p : list Z) (off : Z) (w : world)
    (n : Z) (err : option error) (p' : list Z) :
  gate_open w ->
  fst (ReadAt fuel s3tr p off w) = Returned (n, err, p') ->
  0 <= n <= Z.of_nat (length p) /\
  (err = None <-> n = Z.of_nat (length p)) /\
  length p' = length p /\
  isConnReset err = false.
Proof.
  intros Hgate. unfold ReadAt.
  set (hdr := ReadAt_rangeHeader (length p) off).
  destruct (readRange_ends w s3tr hdr p fuel Hgate)
    as [(N & _ & _ & Hfin & ->) | (_ & ->)]; [|discriminate].
  cbn [fst]. unfold nth_attempt, attempt_of in *.
  destruct (s3 s3tr (requests w + N)%nat (input_of s3tr hdr)) as [result | e];
    [|discriminate].
  destruct (ContentLength result) as [cl|]; [|discriminate].
  destruct (cl =? Z.of_nat (length p)); [|discriminate].
  cbn [attempt_outcome returns_conn_reset] in *. intros Hret.
  injection Hret as <- <- <-.
  destruct (ReadFull_count (Body result) (length p)) as (Hn & Herr).
  rewrite Hn, Herr, attempt_fill_length, buffer_after_length.
  repeat split; try lia; try assumption.
Qed.

(** X8. A response that declares the length of the buffer and whose
    body ends after fewer bytes is not retried: the read returns the
    count of the bytes delivered and [io.ErrUnexpectedEOF], or [io.EOF]
    where nothing was delivered, after its one request and a line on
    stderr; the buffer holds the delivered bytes followed by what it
    held beyond them. *)
Theorem readRange_returns_a_short_body_at_once
    (w : world) (s3tr : s3TableReader) (hdr : string) (p : list Z) (fuel : nat)
    (result : GetObjectOutput) :
  gate_open w ->
  s3 s3tr (requests w) (input_of s3tr hdr) = inl result ->
  ContentLength result = Some (Z.of_nat (length p)) ->
  failure (Body result) = None ->
  (length (delivered (Body result)) < length p)%nat ->
  let k := length (delivered (Body result)) in
  let err := match k with O => EOF | S _ => ErrUnexpectedEOF end in
  readRange fuel s3tr p hdr w
  = (Returned (Z.of_nat k, Some err, delivered (Body result) ++ skipn k p),
     advance w 1 0
       (attempt_events (gated w) (input_of s3tr hdr) (AttemptReturns (Z.of_nat k) (Some err)))) /\
  In (EvFailedRead (input_of s3tr hdr) err) (trace (snd (readRange fuel s3tr p hdr w))) /\
  count_events is_Retrying
    (attempt_events (gated w) (input_of s3tr hdr) (AttemptReturns (Z.of_nat k) (Some err)))
  = O.
Proof.
  intros Hgate Hres Hcl Hf Hk k err.
  assert (Hrf : ReadFull (Body result) (length p) = (Z.of_nat k, Some err)).
  { unfold ReadFull. rewrite Hf. fold k.
    replace (Nat.min (length p) k) with k by lia.
    destruct (Nat.leb_spec (length p) k); [lia|].
    subst err. destruct k; reflexivity. }
  assert (Ha : attempt_of (s3 s3tr (requests w) (input_of s3tr hdr)) (length p)
               = AttemptReturns (Z.of_nat k) (Some err)).
  { unfold attempt_of. now rewrite Hres, Hcl, Z.eqb_refl, Hrf. }
  assert (Hrun : readRange fuel s3tr p hdr w
                 = (Returned (Z.of_nat k, Some err, delivered (Body result) ++ skipn k p),
                    advance w 1 0
                      (attempt_events (gated w) (input_of s3tr hdr)
                         (AttemptReturns (Z.of_nat k) (Some err))))).
  { rewrite readRange_one_attempt by (try exact Hgate; rewrite Ha; subst err; now destruct k).
    rewrite Ha. cbn [attempt_outcome]. do 3 f_equal.
    unfold attempt_fill. rewrite Hres, Hcl, Z.eqb_refl.
    apply ReadFull_fill_short. lia. }
  split; [exact Hrun|]. split.
  - rewrite Hrun. cbn [snd advance trace]. apply in_or_app. right.
    unfold attempt_events, request_events. destruct (gated w); cbn; auto.
  - unfold attempt_events, request_events. destruct (gated w); reflexivity.
Qed.

(** X9. Which failures of the body read are retried: only an
    [ECONNRESET] wrapped in an [*os.SyscallError] wrapped in a
    [*net.OpError].  A body that breaks off with any other error,
    [ECONNRESET] in another wrapping included, makes the read return
    that error after its one request; one that breaks off with the
    wrapped reset makes the read log a retry and issue a second
    request. *)
Theorem readRange_retries_only_the_wrapped_reset
    (w : world) (s3tr : s3TableReader) (hdr : string) (p : list Z) (fuel : nat)
    (result : GetObjectOutput) (e : error) :
  gate_open w ->
  s3 s3tr (requests w) (input_of s3tr hdr) = inl result ->
  ContentLength result = Some (Z.of_nat (length p)) ->
  failure (Body result) = Some e -> e <> EOF ->
  (length (delivered (Body result)) < length p)%nat ->
  let k := length (delivered (Body result)) in
  let r := readRange fuel s3tr p hdr w in
  (e <> NetOpError (OsSyscallError (Errno ECONNRESET)) ->
   fst r = Returned (Z.of_nat k, Some e, delivered (Body result) ++ skipn k p) /\
   requests (snd r) = (requests w + 1)%nat /\
   count_events is_Retrying (trace (snd r)) = count_events is_Retrying (trace w)) /\
  (e = NetOpError (OsSyscallError (Errno ECONNRESET)) -> (1 <= fuel)%nat ->
   (requests w + 2 <= requests (snd r))%nat /\
   (count_events is_Retrying (trace w) + 1 <= count_events is_Retrying (trace (snd r)))%nat).
Proof.
  intros Hgate Hres Hcl Hf He Hk k r. subst r.
  pose proof (ReadFull_broken (Body result) (length p) e Hk Hf He) as Hrf. fold k in Hrf.
  assert (Ha : attempt_of (s3 s3tr (requests w) (input_of s3tr hdr)) (length p)
               = AttemptReturns (Z.of_nat k) (Some e)).
  { unfold attempt_of. now rewrite Hres, Hcl, Z.eqb_refl, Hrf. }
  split.
  - intros Hne.
    assert (Hnr : isConnReset (Some e) = false).
    { destruct (isConnReset (Some e)) eqn:E; [|reflexivity].
      apply isConnReset_wrapped in E. congruence. }
    rewrite readRange_one_attempt by (try exact Hgate; rewrite Ha; exact Hnr).
    rewrite Ha. cbn [fst snd attempt_outcome advance requests trace].
    split; [|split; [reflexivity|]].
    + do 3 f_equal. unfold attempt_fill. rewrite Hres, Hcl, Z.eqb_refl.
      apply ReadFull_fill_short. lia.
    + unfold count_events. rewrite filter_app, length_app.
      unfold attempt_events, request_events. destruct (gated w); cbn; lia.
  - intros -> Hfuel.
    assert (H0 : returns_conn_reset (nth_attempt w s3tr hdr (length p) 0) = true).
    { rewrite nth_attempt_0, Ha. reflexivity. }
    assert (Hcount : forall M, (1 <= M)%nat ->
              (requests w + 2 <= requests (advance w (S M) M
                                             (readRange_events w s3tr hdr (length p) M)))%nat /\
              (count_events is_Retrying (trace w) + 1
               <= count_events is_Retrying
                    (trace (advance w (S M) M (readRange_events w s3tr hdr (length p) M))))%nat).
    { intros M HM. cbn [advance requests trace]. split; [lia|].
      unfold count_events at 2. rewrite filter_app, length_app.
      fold (count_events is_Retrying (trace w)).
      fold (count_events is_Retrying (readRange_events w s3tr hdr (length p) M)).
      rewrite count_Retrying_readRange_events. lia. }
    destruct (readRange_ends w s3tr hdr p fuel Hgate)
      as [(N & _ & _ & Hfin & ->) | (_ & ->)]; cbn [snd].
    + apply Hcount. destruct N; [congruence | lia].
    + apply Hcount. exact Hfuel.
Qed.

(** X10. No request is made without a slot of the rate-limit channel:
    where the channel is configured and all its slots are taken, a
    ranged read stops at the send on the channel, before it has issued
    a request or written a line; and so do [ReadAt] and the
    construction of a reader whose index is not cached. *)
Theorem no_request_without_a_free_slot
    (fuel : nat) (s3tr : s3TableReader) (p : list Z) (hdr : string) (off : Z)
    (chunkCount : Z) (w : world) (c : chan) :
  readRl w = Some c -> (cap c <= queued c)%nat ->
  readRange fuel s3tr p hdr w = (Blocked, w) /\
  ReadAt fuel s3tr p off w = (Blocked, w) /\
  (cache_lookup w (h s3tr) = None ->
   let r := newS3TableReader fuel (s3 s3tr) (bucket s3tr) (h s3tr) chunkCount w in
   fst r = Blocked /\ requests (snd r) = requests w /\
   trace (snd r) = trace w ++ cache_get_events w (h s3tr)).
Proof.
  intros Hrl Hfull.
  assert (Hblk : forall s q hd w', readRl w' = Some c -> readRange fuel s q hd w' = (Blocked, w')).
  { intros s q hd w' Hrl'. unfold readRange, bind, read. rewrite Hrl'.
    unfold bind, chan_send. rewrite Hrl'.
    destruct (Nat.ltb_spec (queued c) (cap c)); [lia | reflexivity]. }
  split; [now apply Hblk|]. split; [now apply Hblk|].
  intros Hmiss r. subst r. rewrite (newS3TableReader_miss _ _ _ _ _ _ Hmiss). cbv zeta.
  rewrite Hblk by exact Hrl. cbn [fst snd after_read advance requests trace].
  repeat split. lia.
Qed.

(** X11. With a free slot, or with no rate-limit channel, a ranged read
    never waits on the channel; and with no channel configured its
    trace holds no channel operation at all. *)
Theorem readRange_does_not_block_with_a_free_slot
    (fuel : nat) (s3tr : s3TableReader) (p : list Z) (hdr : string) (w : world) :
  gate_open w ->
  let r := readRange fuel s3tr p hdr w in
  fst r <> Blocked /\
  (readRl w = None ->
   readRl (snd r) = None /\
   exists evs,
     trace (snd r) = trace w ++ evs /\
     List.filter is_Send evs = [] /\ List.filter is_Receive evs = []).
Proof.
  intros Hgate r. subst r.
  destruct (readRange_cases w s3tr hdr p fuel Hgate) as (N & o & _ & _ & -> & Ho).
  cbn [fst snd advance readRl trace]. split.
  - destruct Ho as [-> | ->]; [discriminate|].
    destruct (nth_attempt w s3tr hdr (length p) N); discriminate.
  - intros Hnone. split; [exact Hnone|].
    eexists. split; [reflexivity|].
    rewrite filter_readRange_events_Send, filter_readRange_events_Receive.
    unfold gated. rewrite Hnone. split; reflexivity.
Qed.

(** X12. [ReadAt] with an empty buffer still issues a request; its
    range header runs from the offset to the byte before it.  It
    returns 0 and no error where the response declares no content,
    whatever the body holds, and any other declared length is fatal. *)
Theorem ReadAt_of_an_empty_buffer
    (fuel : nat) (s3tr : s3TableReader) (off : Z) (w : world) (result : GetObjectOutput)
    (contentLength : Z) :
  gate_open w ->
  let input := {| Bucket := bucket s3tr; Key := addr_String (hash s3tr);
                  Range := ("bytes=" ++ fmt_d off ++ "-" ++ fmt_d (to_int64 (off - 1)))%string |} in
  s3 s3tr (requests w) input = inl result ->
  ContentLength result = Some contentLength ->
  let r := ReadAt fuel s3tr [] off w in
  fst r = (if contentLength =? 0 then Returned (0, None, []) else Panicked PanicFalse) /\
  requests (snd r) = (requests w + 1)%nat /\
  List.filter is_GetObject (trace (snd r))
  = List.filter is_GetObject (trace w) ++ [EvGetObject input] /\
  (is_int64 (off - 1) -> to_int64 (off - 1) = off - 1).
Proof.
  intros Hgate input Hres Hcl r. subst r. unfold ReadAt.
  assert (Hh : input_of s3tr (ReadAt_rangeHeader (length (@nil Z)) off) = input).
  { unfold input_of, ReadAt_rangeHeader. rewrite ReadAt_end_wraps_once.
    cbn [length Z.of_nat]. now rewrite Z.add_0_r. }
  assert (Ha : attempt_of (s3 s3tr (requests w) input) (length (@nil Z))
               = if contentLength =? 0 then AttemptReturns 0 None
                 else AttemptPanics PanicFalse).
  { unfold attempt_of. rewrite Hres, Hcl. change (Z.of_nat (length (@nil Z))) with 0.
    destruct (contentLength =? 0); reflexivity. }
  rewrite readRange_one_attempt
    by (try exact Hgate; rewrite Hh, Ha; destruct (contentLength =? 0); reflexivity).
  rewrite Hh, Ha.
  cbn [fst snd advance requests trace]. split; [|split; [reflexivity|split]].
  - unfold attempt_fill. rewrite Hres, Hcl. change (Z.of_nat (length (@nil Z))) with 0.
    destruct (contentLength =? 0); reflexivity.
  - rewrite filter_app. f_equal. apply filter_attempt_events_GetObject.
  - apply to_int64_id.
Qed.

(** X13. In the construction of a reader whose index is not cached, the
    check of the size read ([size == uint64(n)]) cannot fail: a ranged
    read that returns no error has filled the whole buffer.  A read
    that returns an error makes the construction panic with that error
    and leaves the cache as it was; and a construction that panics on a
    failed check does so on the content length of a response or on the
    chunk count of the index parsed. *)
Theorem newS3TableReader_size_check_cannot_fail
    (fuel : nat) (svc : s3svc) (bucket : string) (h : addr) (chunkCount : Z) (w : world) :
  gate_open w -> cache_lookup w h = None ->
  let size := newS3TableReader_size chunkCount in
  let r1 := readRange fuel (new_source svc bucket h None) (repeat 0 (Z.to_nat size))
              (newS3TableReader_rangeHeader chunkCount)
              (advance w 0 0 (cache_get_events w h)) in
  let r := newS3TableReader fuel svc bucket h chunkCount w in
  (forall n buff, fst r1 = Returned (n, None, buff) ->
     size = to_uint64 n /\ length buff = Z.to_nat size) /\
  (forall n e buff, fst r1 = Returned (n, Some e, buff) ->
     r = (Panicked (PanicError e), snd r1) /\
     indexCache (snd r) = indexCache w /\
     List.filter is_CachePut (trace (snd r)) = List.filter is_CachePut (trace w)) /\
  (fst r = Panicked PanicFalse ->
   fst r1 = Panicked PanicFalse \/
   exists n buff index,
     fst r1 = Returned (n, None, buff) /\ parseTableIndex buff = Some index /\
     index_chunkCount index <> chunkCount).
Proof.
  intros Hgate Hmiss size r1 r.
  set (w1 := advance w 0 0 (cache_get_events w h)) in *.
  assert (Hgate1 : gate_open w1) by exact Hgate.
  assert (Hsize : 0 <= size < 2 ^ 64)
    by (subst size; unfold newS3TableReader_size, wrap64; apply Z.mod_pos_bound; lia).
  assert (Hfull : forall n buff, fst r1 = Returned (n, None, buff) ->
            size = to_uint64 n /\ length buff = Z.to_nat size).
  { intros n buff Hret. subst r1.
    set (src := new_source svc bucket h None) in *.
    set (hdr := newS3TableReader_rangeHeader chunkCount) in *.
    set (p := repeat 0 (Z.to_nat size)) in *.
    assert (Hp : length p = Z.to_nat size) by apply repeat_length.
    destruct (readRange_ends w1 src hdr p fuel Hgate1)
      as [(N & _ & _ & _ & Hrun) | (_ & Hrun)]; rewrite Hrun in Hret; [|discriminate].
    cbn [fst] in Hret. unfold nth_attempt, attempt_of in Hret.
    destruct (s3 src (requests w1 + N)%nat (input_of src hdr)) as [result | e];
      [|discriminate].
    destruct (ContentLength result) as [cl|]; [|discriminate].
    destruct (cl =? Z.of_nat (length p)); [|discriminate].
    cbn [attempt_outcome] in Hret. injection Hret as Hn Herr <-.
    destruct (ReadFull_count (Body result) (length p)) as (Hc & He).
    apply He in Herr. rewrite Hc in Hn.
    rewrite attempt_fill_length, buffer_after_length. split; [|exact Hp].
    subst n. unfold to_uint64. rewrite Z.mod_small; lia. }
  assert (Hr : r = after_read svc bucket h chunkCount (fst r1) (snd r1)).
  { subst r r1 w1 size. now rewrite (newS3TableReader_miss _ _ _ _ _ _ Hmiss). }
  split; [exact Hfull|]. split.
  - intros n e buff Hret. rewrite Hr, Hret. cbn [after_read]. split; [reflexivity|].
    cbn [snd]. subst r1.
    destruct (readRange_cases w1 (new_source svc bucket h None)
                (newS3TableReader_rangeHeader chunkCount) (repeat 0 (Z.to_nat size))
                fuel Hgate1) as (N & o & _ & _ & -> & _).
    subst w1. cbn [snd advance indexCache trace]. split; [reflexivity|].
    rewrite !filter_app, filter_readRange_events_CachePut.
    unfold cache_get_events. destruct (indexCache w); cbn; now rewrite !app_nil_r.
  - rewrite Hr. destruct (fst r1) as [[[n [e|]] buff] | v | | ] eqn:Hret;
      cbn [after_read fst]; try discriminate.
    + destruct (Hfull n buff eq_refl) as (Hs & _). fold size. rewrite Hs, Z.eqb_refl.
      destruct (parseTableIndex buff) as [index|] eqn:Hparse; cbn [fst]; [|discriminate].
      destruct (Z.eqb_spec chunkCount (index_chunkCount index)); [discriminate|].
      intros _. right. exists n, buff, index. repeat split; congruence.
    + intros Hv. left. injection Hv as ->. reflexivity.
Qed.

End ReaderEdgeCases.

(** *** The theorems at work on concrete runs *)

Import Demo.

(** Two attempts break off with a reset after one byte; the third
    serves the three bytes, and none of the earlier bytes is left. *)
Lemma readRange_returns_the_bytes_served_witness :
  let w := demo_world None None in
  let r := readRange 5 (demo_reader (resetting 2 [7; 8; 9])) [0; 0; 0] "bytes=0-2"%string w in
  gate_open w /\
  fst r = Returned (3, None, [7; 8; 9]) /\
  requests (snd r) = 3%nat.
Proof.
  cbv zeta. split; [exact I|].
  assert (Hresets : forall j, (j < 2)%nat ->
            returns_conn_reset
              (nth_attempt (demo_world None None) (demo_reader (resetting 2 [7; 8; 9]))
                 "bytes=0-2"%string (length [0; 0; 0]) j) = true).
  { intros j Hj. destruct j as [|[|j]]; [reflexivity | reflexivity | lia]. }
  destruct (readRange_returns_the_bytes_served (demo_world None None)
              (demo_reader (resetting 2 [7; 8; 9])) "bytes=0-2"%string [0; 0; 0] 5 2
              {| ContentLength := Some 3;
                 Body := {| delivered := [7; 8; 9]; failure := None |} |}
              I ltac:(lia) Hresets eq_refl eq_refl ltac:(cbn; lia))
    as (Hout & Hreq & _).
  split; [exact Hout | exact Hreq].
Defined.

(** Four bytes at offset 100, served in full. *)
Lemma ReadAt_keeps_the_ReaderAt_contract_witness :
  let w := demo_world None None in
  let p := [0; 0; 0; 0] in
  gate_open w /\
  fst (ReadAt 5 (demo_reader (serving [1; 2; 3; 4])) p 100 w)
  = Returned (4, None, [1; 2; 3; 4]) /\
  0 <= 4 <= Z.of_nat (length p) /\
  length [1; 2; 3; 4] = length p.
Proof.
  cbv zeta.
  assert (Hret : fst (ReadAt 5 (demo_reader (serving [1; 2; 3; 4])) [0; 0; 0; 0] 100
                        (demo_world None None))
                 = Returned (4, None, [1; 2; 3; 4])) by (vm_compute; reflexivity).
  destruct (ReadAt_keeps_the_ReaderAt_contract 5 (demo_reader (serving [1; 2; 3; 4]))
              [0; 0; 0; 0] 100 (demo_world None None) 4 None [1; 2; 3; 4] I Hret)
    as (Hn & _ & Hlen & _).
  split; [exact I|]. split; [exact Hret|]. split; [exact Hn | exact Hlen].
Defined.

(** A body of one byte where three are declared. *)
Lemma readRange_returns_a_short_body_at_once_witness :
  let w := demo_world None None in
  let r := readRange 5 (demo_reader (breaking 1 None [7; 8; 9])) [0; 0; 0] "bytes=0-2"%string w in
  gate_open w /\
  fst r = Returned (1, Some ErrUnexpectedEOF, [7; 0; 0]) /\
  requests (snd r) = 1%nat.
Proof.
  cbv zeta. split; [exact I|].
  destruct (readRange_returns_a_short_body_at_once (demo_world None None)
              (demo_reader (breaking 1 None [7; 8; 9])) "bytes=0-2"%string [0; 0; 0] 5
              {| ContentLength := Some 3; Body := {| delivered := [7]; failure := None |} |}
              I eq_refl eq_refl eq_refl ltac:(cbn; lia))
    as (Hrun & _).
  rewrite Hrun. split; reflexivity.
Defined.

(** A reset that is not wrapped in a [*net.OpError] is returned. *)
Lemma readRange_retries_only_the_wrapped_reset_witness :
  let w := demo_world None None in
  let r := readRange 5 (demo_reader (breaking 1 (Some bare_reset) [7; 8; 9])) [0; 0; 0]
             "bytes=0-2"%string w in
  gate_open w /\
  bare_reset <> EOF /\
  bare_reset <> NetOpError (OsSyscallError (Errno ECONNRESET)) /\
  fst r = Returned (1, Some bare_reset, [7; 0; 0]) /\
  requests (snd r) = 1%nat.
Proof.
  cbv zeta.
  assert (He : bare_reset <> EOF) by discriminate.
  assert (Hne : bare_reset <> NetOpError (OsSyscallError (Errno ECONNRESET))) by discriminate.
  split; [exact I|]. split; [exact He|]. split; [exact Hne|].
  destruct (readRange_retries_only_the_wrapped_reset (demo_world None None)
              (demo_reader (breaking 1 (Some bare_reset) [7; 8; 9])) "bytes=0-2"%string
              [0; 0; 0] 5
              {| ContentLength := Some 3;
                 Body := {| delivered := [7]; failure := Some bare_reset |} |}
              bare_reset I eq_refl eq_refl eq_refl He ltac:(cbn; lia))
    as (Hother & _).
  destruct (Hother Hne) as (Hout & Hreq & _).
  split; [exact Hout | exact Hreq].
Defined.

(** A channel of one slot that is taken. *)
Lemma no_request_without_a_free_slot_witness :
  let c := {| cap := 1; queued := 1 |} in
  let w := demo_world (Some c) None in
  readRl w = Some c /\ (cap c <= queued c)%nat /\
  readRange 5 (demo_reader (serving [7; 8; 9])) [0; 0; 0] "bytes=0-2"%string w = (Blocked, w).
Proof.
  cbv zeta. split; [reflexivity|]. split; [cbn; lia|].
  exact (proj1 (no_request_without_a_free_slot 5 (demo_reader (serving [7; 8; 9]))
                  [0; 0; 0] "bytes=0-2"%string 0 1
                  (demo_world (Some {| cap := 1; queued := 1 |}) None)
                  {| cap := 1; queued := 1 |} eq_refl ltac:(cbn; lia))).
Defined.

(** A read with no channel configured. *)
Lemma readRange_does_not_block_with_a_free_slot_witness :
  let w := demo_world None None in
  gate_open w /\
  fst (readRange 5 (demo_reader (resetting 1 [7; 8; 9])) [0; 0; 0] "bytes=0-2"%string w)
  <> Blocked.
Proof.
  cbv zeta. split; [exact I|].
  exact (proj1 (readRange_does_not_block_with_a_free_slot 5
                  (demo_reader (resetting 1 [7; 8; 9])) [0; 0; 0] "bytes=0-2"%string
                  (demo_world None None) I)).
Defined.

(** No bytes at offset 100: the range is 100 to 99. *)
Lemma ReadAt_of_an_empty_buffer_witness :
  let w := demo_world None None in
  let r := ReadAt 5 (demo_reader (serving [])) [] 100 w in
  gate_open w /\
  fst r = Returned (0, None, []) /\
  List.filter is_GetObject (trace (snd r))
  = [EvGetObject {| Bucket := "bucket"%string; Key := "table-7"%string;
                    Range := "bytes=100-99"%string |}].
Proof.
  cbv zeta. split; [exact I|].
  destruct (ReadAt_of_an_empty_buffer 5 (demo_reader (serving [])) 100
              (demo_world None None)
              {| ContentLength := Some 0; Body := {| delivered := []; failure := None |} |}
              0 I eq_refl eq_refl)
    as (Hout & _ & Hget & _).
  split; [exact Hout | exact Hget].
Defined.

(** The index read of a construction is cut short after one byte of
    three: the construction panics with the error of the read, and the
    cache stays empty. *)
Lemma newS3TableReader_size_check_cannot_fail_witness :
  let w := demo_world None (Some ∅) in
  let r := newS3TableReader 5 (breaking 1 None [4; 5; 6]) "bucket"%string 7 1 w in
  gate_open w /\ cache_lookup w 7 = None /\
  fst r = Panicked (PanicError ErrUnexpectedEOF) /\
  indexCache (snd r) = Some ∅.
Proof.
  cbv zeta.
  assert (Hmiss : cache_lookup (demo_world None (Some ∅)) 7 = None) by reflexivity.
  split; [exact I|]. split; [exact Hmiss|].
  destruct (newS3TableReader_size_check_cannot_fail (H := demo_nbs) 5
              (breaking 1 None [4; 5; 6])
              "bucket"%string 7 1 (demo_world None (Some ∅)) I Hmiss)
    as (_ & Herr & _).
  destruct (Herr 1 ErrUnexpectedEOF [4; 0; 0] ltac:(vm_compute; reflexivity))
    as (Hrun & Hcache & _).
  split; [now rewrite Hrun | exact Hcache].
Defined.

End ReaderEdgeFacts.

(** ** The SQL table editor: inserts, deletes, updates and close *)

Module EditorOpsFacts.
Import Sqle.

Section EditorOps.
Context `{Dolt}.

Lemma editor_before_pending (tbl : DoltTable) (e : MapEditor) :
  editor_before {| t := tbl; ed := Some e |} = inl e.
Proof. reflexivity. Qed.

(** X14. [Insert] of a row whose key is not in the table puts the row
    into the pending edits under its key and leaves the other keys as
    they were; the editor of a fresh [tableEditor] starts from the rows
    of the table. *)
Theorem Insert_sets_the_row_of_a_new_key
    (r : tableEditor) (sqlRow : sql_Row) (dRow : row_Row) (key : Tuple) (e : MapEditor) :
  SqlRowToDoltRow (table (t r)) sqlRow = inl dRow ->
  NomsMapKey_Value dRow = inl key ->
  GetRow (table (t r)) key = inl false ->
  editor_before r = inl e ->
  let e' := MapEditor_Set key (NomsMapValue dRow) e in
  Insert r sqlRow = (None, {| t := t r; ed := Some e' |}) /\
  e' !! key = Some (NomsMapValue dRow) /\
  (forall k, k <> key -> e' !! k = e !! k) /\
  (ed r = None -> GetRowData (table (t r)) = inl e).
Proof.
  intros Hrow Hkey Hget Hed e'. unfold Insert. rewrite Hrow, Hkey, Hget, Hed.
  subst e'. unfold MapEditor_Set, MapEditor in *.
  split; [reflexivity|]. split; [apply lookup_insert_eq|]. split.
  - intros k Hk. now apply lookup_insert_ne.
  - intros Hnil. unfold editor_before, newMapEditor in Hed. rewrite Hnil in Hed.
    destruct (GetRowData (table (t r))); congruence.
Qed.

(** X15. [Insert] asks the table, not the pending edits, whether the
    key is taken.  A row whose key is in the table is refused with
    "duplicate primary key given" and the editor is left as it was,
    also right after [Delete] of that row on the same editor, so the
    row stays removed; and a key that is not in the table can be
    inserted twice, the later row replacing the earlier. *)
Theorem Insert_checks_the_table_not_the_pending_edits
    (r : tableEditor) (sqlRow : sql_Row) (dRow : row_Row) (key : Tuple) (e : MapEditor) :
  SqlRowToDoltRow (table (t r)) sqlRow = inl dRow ->
  NomsMapKey_Value dRow = inl key ->
  editor_before r = inl e ->
  (GetRow (table (t r)) key = inl true ->
   Insert r sqlRow = (Some (Errorf "duplicate primary key given"), r) /\
   let r1 := snd (Delete r sqlRow) in
   Delete r sqlRow = (None, r1) /\
   Insert r1 sqlRow = (Some (Errorf "duplicate primary key given"), r1) /\
   ed r1 = Some (MapEditor_Remove key e) /\
   MapEditor_Remove key e !! key = None) /\
  (GetRow (table (t r)) key = inl false ->
   forall (sqlRow2 : sql_Row) (dRow2 : row_Row),
     SqlRowToDoltRow (table (t r)) sqlRow2 = inl dRow2 ->
     NomsMapKey_Value dRow2 = inl key ->
     let r1 := snd (Insert r sqlRow) in
     Insert r sqlRow = (None, r1) /\
     Insert r1 sqlRow2
     = (None, {| t := t r; ed := Some (MapEditor_Set key (NomsMapValue dRow2) e) |})).
Proof.
  intros Hrow Hkey Hed. split.
  - intros Hget.
    assert (Hins : forall r', t r' = t r ->
              Insert r' sqlRow = (Some (Errorf "duplicate primary key given"), r')).
    { intros r' Ht. unfold Insert. now rewrite Ht, Hrow, Hkey, Hget. }
    split; [now apply Hins|].
    assert (Hdel : Delete r sqlRow
                   = (None, {| t := t r; ed := Some (MapEditor_Remove key e) |})).
    { unfold Delete. now rewrite Hrow, Hkey, Hed. }
    rewrite Hdel. cbn [snd ed]. split; [reflexivity|]. split; [now apply Hins|].
    split; [reflexivity|]. unfold MapEditor_Remove, MapEditor in *. apply lookup_delete_eq.
  - intros Hget sqlRow2 dRow2 Hrow2 Hkey2.
    assert (Hins : Insert r sqlRow
                   = (None, {| t := t r; ed := Some (MapEditor_Set key (NomsMapValue dRow) e) |})).
    { unfold Insert. now rewrite Hrow, Hkey, Hget, Hed. }
    rewrite Hins. cbn [snd]. split; [reflexivity|].
    unfold Insert. cbn [t ed editor_before]. rewrite Hrow2, Hkey2, Hget.
    unfold MapEditor_Set, MapEditor in *. now rewrite insert_insert_eq.
Qed.

(** X16. [Delete] removes the key of the row from the pending edits and
    leaves the other keys as they were; it does not ask the table, and
    a key that is not pending is no error: the edits are then as they
    were.  Deleting the same row again changes nothing more. *)
Theorem Delete_removes_the_key
    (r : tableEditor) (sqlRow : sql_Row) (dRow : row_Row) (key : Tuple) (e : MapEditor) :
  SqlRowToDoltRow (table (t r)) sqlRow = inl dRow ->
  NomsMapKey_Value dRow = inl key ->
  editor_before r = inl e ->
  let e' := MapEditor_Remove key e in
  Delete r sqlRow = (None, {| t := t r; ed := Some e' |}) /\
  e' !! key = None /\
  (forall k, k <> key -> e' !! k = e !! k) /\
  (e !! key = None -> e' = e) /\
  Delete (snd (Delete r sqlRow)) sqlRow = Delete r sqlRow.
Proof.
  intros Hrow Hkey Hed e'.
  assert (Hdel : Delete r sqlRow = (None, {| t := t r; ed := Some e' |})).
  { unfold Delete. now rewrite Hrow, Hkey, Hed. }
  split; [exact Hdel|]. subst e'. unfold MapEditor_Remove, MapEditor in *.
  split; [apply lookup_delete_eq|]. split; [|split].
  - intros k Hk. now apply lookup_delete_ne.
  - apply delete_id.
  - rewrite Hdel. cbn [snd]. unfold Delete. cbn [t ed editor_before].
    rewrite Hrow, Hkey. unfold MapEditor_Remove, MapEditor. now rewrite delete_delete_eq.
Qed.

(** X17. [Insert] of a row with a new key followed by [Delete] of the
    same row leaves the pending edits as they were before the two
    calls. *)
Theorem Insert_then_Delete_restores_the_edits
    (r : tableEditor) (sqlRow : sql_Row) (dRow : row_Row) (key : Tuple) (e : MapEditor) :
  SqlRowToDoltRow (table (t r)) sqlRow = inl dRow ->
  NomsMapKey_Value dRow = inl key ->
  GetRow (table (t r)) key = inl false ->
  editor_before r = inl e ->
  e !! key = None ->
  let r1 := snd (Insert r sqlRow) in
  fst (Insert r sqlRow) = None /\
  Delete r1 sqlRow = (None, {| t := t r; ed := Some e |}).
Proof.
  intros Hrow Hkey Hget Hed Hnew r1. subst r1.
  unfold Insert. rewrite Hrow, Hkey, Hget, Hed. cbn [fst snd].
  split; [reflexivity|].
  unfold Delete. cbn [t ed editor_before]. rewrite Hrow, Hkey.
  unfold MapEditor_Remove, MapEditor_Set, MapEditor in *.
  now rewrite delete_insert_eq, delete_id.
Qed.

(** X18. [Update] with an unchanged key cannot fail once both rows
    convert and the editor is there: it does not ask the table, and it
    puts the new row under the key, leaving the other keys as they
    were. *)
Theorem Update_with_the_same_key_sets_the_row
    (u : tableEditor) (oldRow newRow : sql_Row) (dOldRow dNewRow : row_Row)
    (key : Tuple) (e : MapEditor) :
  SqlRowToDoltRow (table (t u)) oldRow = inl dOldRow ->
  SqlRowToDoltRow (table (t u)) newRow = inl dNewRow ->
  NomsMapKey_Value dOldRow = inl key ->
  NomsMapKey_Value dNewRow = inl key ->
  editor_before u = inl e ->
  let e' := MapEditor_Set key (NomsMapValue dNewRow) e in
  Update u oldRow newRow = (None, {| t := t u; ed := Some e' |}) /\
  e' !! key = Some (NomsMapValue dNewRow) /\
  (forall k, k <> key -> e' !! k = e !! k).
Proof.
  intros Hold Hnew Hkold Hknew Hed e'. unfold Update.
  rewrite Hold, Hnew, Hkold, Hknew, Hed.
  rewrite bool_decide_eq_true_2 by reflexivity. cbn [negb].
  subst e'. unfold MapEditor_Set, MapEditor in *.
  split; [reflexivity|]. split; [apply lookup_insert_eq|].
  intros k Hk. now apply lookup_insert_ne.
Qed.

(** X19. [Update] to a key that is in the table is refused: the error
    reads "primary key collision: (v1, v2, ...)" with the values of the
    new row, and no pending edit is changed; the old row is not
    removed.  The table is asked, not the pending edits. *)
Theorem Update_refuses_a_key_of_the_table
    (u : tableEditor) (oldRow newRow : sql_Row) (dOldRow dNewRow : row_Row)
    (dOldKeyVal dNewKeyVal : Tuple) (e : MapEditor) :
  SqlRowToDoltRow (table (t u)) oldRow = inl dOldRow ->
  SqlRowToDoltRow (table (t u)) newRow = inl dNewRow ->
  NomsMapKey_Value dOldRow = inl dOldKeyVal ->
  NomsMapKey_Value dNewRow = inl dNewKeyVal ->
  dOldKeyVal <> dNewKeyVal ->
  GetRow (table (t u)) dNewKeyVal = inl true ->
  editor_before u = inl e ->
  Update u oldRow newRow
  = (Some (Errorf ("primary key collision: (" ++ Join (List.map fmt_v newRow) ", " ++ ")")),
     {| t := t u; ed := Some e |}) /\
  editor_before (snd (Update u oldRow newRow)) = editor_before u.
Proof.
  intros Hold Hnew Hkold Hknew Hne Hget Hed.
  assert (Hupd : Update u oldRow newRow
                 = (Some (Errorf ("primary key collision: ("
                                  ++ Join (List.map fmt_v newRow) ", " ++ ")")),
                    {| t := t u; ed := Some e |})).
  { unfold Update. rewrite Hold, Hnew, Hkold, Hknew, Hed.
    rewrite bool_decide_eq_false_2 by exact Hne. cbn [negb]. now rewrite Hget. }
  split; [exact Hupd|]. rewrite Hupd. cbn [snd]. now rewrite editor_before_pending.
Qed.

Lemma editor_before_failed (r : tableEditor) (err : error) :
  editor_before r = inr err -> editor_before {| t := t r; ed := None |} = editor_before r.
Proof. unfold editor_before. destruct (ed r); [discriminate | reflexivity]. Qed.

Lemma call_keeps_the_table (r : tableEditor) (c : edit) : t (snd (call r c)) = t r.
Proof.
  destruct c as [sqlRow | oldRow newRow | sqlRow]; cbn [call].
  - unfold Insert. destruct (SqlRowToDoltRow _ _); [|reflexivity].
    destruct (NomsMapKey_Value _); [|reflexivity].
    destruct (GetRow _ _) as [[|]|]; try reflexivity.
    destruct (editor_before r); reflexivity.
  - unfold Update. destruct (SqlRowToDoltRow _ oldRow); [|reflexivity].
    destruct (SqlRowToDoltRow _ newRow); [|reflexivity].
    destruct (NomsMapKey_Value _); [|reflexivity].
    destruct (NomsMapKey_Value _); [|reflexivity].
    destruct (editor_before r); [|reflexivity].
    destruct (negb _); [|reflexivity].
    destruct (GetRow _ _) as [[|]|]; reflexivity.
  - unfold Delete. destruct (SqlRowToDoltRow _ _); [|reflexivity].
    destruct (NomsMapKey_Value _); [|reflexivity].
    destruct (editor_before r); reflexivity.
Qed.

Lemma call_keeps_the_editor (r : tableEditor) (c : edit) :
  is_Some (ed r) -> is_Some (ed (snd (call r c))).
Proof.
  intros [e He].
  assert (Hed : editor_before r = inl e) by (unfold editor_before; now rewrite He).
  destruct c as [sqlRow | oldRow newRow | sqlRow]; cbn [call].
  - unfold Insert. destruct (SqlRowToDoltRow _ _); [|cbn [snd]; rewrite He; eauto].
    destruct (NomsMapKey_Value _); [|cbn [snd]; rewrite He; eauto].
    destruct (GetRow _ _) as [[|]|]; rewrite ?Hed; cbn [snd ed]; rewrite ?He; eauto.
  - unfold Update. destruct (SqlRowToDoltRow _ oldRow); [|cbn [snd]; rewrite He; eauto].
    destruct (SqlRowToDoltRow _ newRow); [|cbn [snd]; rewrite He; eauto].
    destruct (NomsMapKey_Value _); [|cbn [snd]; rewrite He; eauto].
    destruct (NomsMapKey_Value _); [|cbn [snd]; rewrite He; eauto].
    rewrite Hed. destruct (negb _); [|cbn [snd ed]; eauto].
    destruct (GetRow _ _) as [[|]|]; cbn [snd ed]; eauto.
  - unfold Delete. destruct (SqlRowToDoltRow _ _); [|cbn [snd]; rewrite He; eauto].
    destruct (NomsMapKey_Value _); [|cbn [snd]; rewrite He; eauto].
    rewrite Hed. cbn [snd ed]. eauto.
Qed.

(** X20. No edit reaches the table before [Close]: whatever calls of
    [Insert], [Update] and [Delete] are made on an editor, and whatever
    they return, its table is the one it started with, so every check
    for a taken key is answered by the rows of that table; an editor
    that holds pending edits keeps holding some; and a call that
    returns an error has changed no pending edit. *)
Theorem edits_stay_pending
    (r : tableEditor) (cs : list edit) :
  t (calls r cs) = t r /\
  (is_Some (ed r) -> is_Some (ed (calls r cs))) /\
  (forall c err r', call r c = (Some err, r') -> editor_before r' = editor_before r).
Proof.
  split; [|split].
  - revert r. induction cs as [|c cs IH]; intros r; [reflexivity|].
    unfold calls in *. cbn [fold_left]. rewrite IH. apply call_keeps_the_table.
  - revert r. induction cs as [|c cs IH]; intros r Hsome; [exact Hsome|].
    unfold calls in *. cbn [fold_left]. apply IH. now apply call_keeps_the_editor.
  - intros c err r' Hcall.
    destruct c as [sqlRow | oldRow newRow | sqlRow]; cbn [call] in Hcall.
    + unfold Insert in Hcall.
      destruct (SqlRowToDoltRow _ _); [|now injection Hcall as _ <-].
      destruct (NomsMapKey_Value _); [|now injection Hcall as _ <-].
      destruct (GetRow _ _) as [[|]|]; try (now injection Hcall as _ <-).
      destruct (editor_before r) eqn:Hed; [discriminate|].
      injection Hcall as _ <-. rewrite <- Hed. now apply (editor_before_failed r e).
    + unfold Update in Hcall.
      destruct (SqlRowToDoltRow _ oldRow); [|now injection Hcall as _ <-].
      destruct (SqlRowToDoltRow _ newRow); [|now injection Hcall as _ <-].
      destruct (NomsMapKey_Value _); [|now injection Hcall as _ <-].
      destruct (NomsMapKey_Value _); [|now injection Hcall as _ <-].
      destruct (editor_before r) eqn:Hed.
      * destruct (negb _); [|discriminate].
        destruct (GetRow _ _) as [[|]|]; try discriminate;
          injection Hcall as _ <-; reflexivity.
      * injection Hcall as _ <-. rewrite <- Hed. now apply (editor_before_failed r e).
    + unfold Delete in Hcall.
      destruct (SqlRowToDoltRow _ _); [|now injection Hcall as _ <-].
      destruct (NomsMapKey_Value _); [|now injection Hcall as _ <-].
      destruct (editor_before r) eqn:Hed; [discriminate|].
      injection Hcall as _ <-. rewrite <- Hed. now apply (editor_before_failed r e).
Qed.

(** X21. The partition iterator of a table yields one partition, whose
    key is "single", and [io.EOF] at every call after it. *)
Theorem Partitions_yields_one_partition (tbl : DoltTable) (n : nat) :
  Next_n (S n) (Partitions tbl) = Some mkPartition :: repeat None n /\
  Key mkPartition = "single"%string.
Proof.
  split; [|reflexivity].
  cbn [Next_n]. unfold Partitions, Next at 1 2. cbn [i Z.ltb Z.compare fst snd].
  f_equal.
  change (Int.to_int64 (0 + 1)) with 1.
  induction n as [|n IH]; [reflexivity|].
  cbn [Next_n repeat]. unfold Next at 1 2. cbn [i Z.ltb Z.compare fst snd].
  f_equal. exact IH.
Qed.

End EditorOps.

Section StoreFacts.
Context `{DoltStore}.

(** X22. [Close] writes all or nothing: with no pending editor it
    returns nil and changes nothing.  With pending edits, the step that
    fails decides the error: a failure of [Map] is returned under
    "failed to modify table", one of [UpdateRows] under "failed to
    update rows", one of [PutTable] under "failed to write table back
    to database", each with the error of that step as its cause, and
    the table and the root of the database are as they were; where all
    three steps pass it returns nil, the table is the one [UpdateRows]
    built from the map of the edits and the root is the one [PutTable]
    built from that table.  The editor keeps its pending edits in every
    case. *)
Theorem Close_writes_all_or_nothing (r : tableEditor) (db : Database) :
  let res := Close r db in
  let err := fst (fst res) in
  let r' := snd (fst res) in
  let db' := snd res in
  ed r' = ed r /\ name (t r') = name (t r) /\
  (ed r = None -> res = (None, r, db)) /\
  (forall pending cause,
     ed r = Some pending -> MapEditor_Map pending = inr cause ->
     err = Some (DError "failed to modify table" cause) /\ t r' = t r /\ db' = db) /\
  (forall pending updated cause,
     ed r = Some pending -> MapEditor_Map pending = inl updated ->
     UpdateRows (table (t r)) updated = inr cause ->
     err = Some (DError "failed to update rows" cause) /\ t r' = t r /\ db' = db) /\
  (forall pending updated newTable cause,
     ed r = Some pending -> MapEditor_Map pending = inl updated ->
     UpdateRows (table (t r)) updated = inl newTable ->
     PutTable (root db) (name (t r)) newTable = inr cause ->
     err = Some (DError "failed to write table back to database" cause) /\
     t r' = t r /\ db' = db) /\
  (forall pending updated newTable newRoot,
     ed r = Some pending -> MapEditor_Map pending = inl updated ->
     UpdateRows (table (t r)) updated = inl newTable ->
     PutTable (root db) (name (t r)) newTable = inl newRoot ->
     err = None /\ table (t r') = newTable /\ root db' = newRoot) /\
  (forall e, err = Some e ->
     t r' = t r /\ db' = db /\
     exists pending, ed r = Some pending /\
       ((exists cause,
           MapEditor_Map pending = inr cause /\
           e = DError "failed to modify table" cause) \/
        (exists updated cause,
           MapEditor_Map pending = inl updated /\
           UpdateRows (table (t r)) updated = inr cause /\
           e = DError "failed to update rows" cause) \/
        (exists updated newTable cause,
           MapEditor_Map pending = inl updated /\
           UpdateRows (table (t r)) updated = inl newTable /\
           PutTable (root db) (name (t r)) newTable = inr cause /\
           e = DError "failed to write table back to database" cause))) /\
  (forall e, ed r = Some e -> err = None ->
     exists updated,
       MapEditor_Map e = inl updated /\
       UpdateRows (table (t r)) updated = inl (table (t r')) /\
       PutTable (root db) (name (t r)) (table (t r')) = inl (root db')).
Proof.
  cbv zeta. unfold Close.
  destruct (ed r) as [e|] eqn:He.
  2:{ cbn [fst snd]. rewrite He.
      repeat split; intros; try discriminate; reflexivity. }
  unfold updateTable.
  destruct (MapEditor_Map e) as [updated | e1] eqn:Hmap;
    [destruct (UpdateRows (table (t r)) updated) as [newTable | e2] eqn:Hupd;
     [destruct (PutTable (root db) (name (t r)) newTable) as [newRoot | e3] eqn:Hput|]|];
    cbn [fst snd ed t name table root];
    (split; [reflexivity|]); (split; [reflexivity|]); (split; [discriminate|]).
  - (* all three steps pass *)
    split; [intros p c Hp Hm; injection Hp as <-; congruence|].
    split; [intros p u c Hp Hm Hu; injection Hp as <-; congruence|].
    split; [intros p u n c Hp Hm Hu Hpt; injection Hp as <-; congruence|].
    split.
    { intros p u n c Hp Hm Hu Hpt. injection Hp as <-.
      assert (u = updated) as -> by congruence.
      assert (n = newTable) as -> by congruence.
      assert (c = newRoot) as -> by congruence. repeat split. }
    split; [intros e0 He0; discriminate|].
    intros e0 He0 _. injection He0 as <-. exists updated. auto.
  - (* PutTable fails *)
    split; [intros p c Hp Hm; injection Hp as <-; congruence|].
    split; [intros p u c Hp Hm Hu; injection Hp as <-; congruence|].
    split.
    { intros p u n c Hp Hm Hu Hpt. injection Hp as <-.
      assert (u = updated) as -> by congruence.
      assert (n = newTable) as -> by congruence.
      assert (c = e3) as -> by congruence. repeat split. }
    split; [intros p u n c Hp Hm Hu Hpt; injection Hp as <-; congruence|].
    split; [|intros e0 _ Herr; discriminate].
    intros e0 He0. injection He0 as <-. split; [reflexivity|]. split; [reflexivity|].
    exists e. split; [reflexivity|]. right. right. exists updated, newTable, e3. auto.
  - (* UpdateRows fails *)
    split; [intros p c Hp Hm; injection Hp as <-; congruence|].
    split.
    { intros p u c Hp Hm Hu. injection Hp as <-.
      assert (u = updated) as -> by congruence.
      assert (c = e2) as -> by congruence. repeat split. }
    split; [intros p u n c Hp Hm Hu Hpt; injection Hp as <-; congruence|].
    split; [intros p u n c Hp Hm Hu Hpt; injection Hp as <-; congruence|].
    split; [|intros e0 _ Herr; discriminate].
    intros e0 He0. injection He0 as <-. split; [reflexivity|]. split; [reflexivity|].
    exists e. split; [reflexivity|]. right. left. exists updated, e2. auto.
  - (* Map fails *)
    split.
    { intros p c Hp Hm. injection Hp as <-.
      assert (c = e1) as -> by congruence. repeat split. }
    split; [intros p u c Hp Hm Hu; injection Hp as <-; congruence|].
    split; [intros p u n c Hp Hm Hu Hpt; injection Hp as <-; congruence|].
    split; [intros p u n c Hp Hm Hu Hpt; injection Hp as <-; congruence|].
    split; [|intros e0 _ Herr; discriminate].
    intros e0 He0. injection He0 as <-. split; [reflexivity|]. split; [reflexivity|].
    exists e. split; [reflexivity|]. left. exists e1. auto.
Qed.

End StoreFacts.

(** *** The theorems at work on the table of keys 1 and 3 *)

Import Demo.

(** Inserting a row of the free key 2. *)
Lemma Insert_sets_the_row_of_a_new_key_witness :
  GetRow demo_table 2 = inl false /\
  Insert demo_editor [2; 20]
  = (None, {| t := t demo_editor; ed := Some (MapEditor_Set 2 [20] demo_table) |}) /\
  MapEditor_Set 2 [20] demo_table !! (2 : Z) = Some [20].
Proof.
  assert (Hget : GetRow demo_table 2 = inl false) by (vm_compute; reflexivity).
  split; [exact Hget|].
  destruct (Insert_sets_the_row_of_a_new_key (H := demo_dolt) demo_editor [2; 20] [2; 20] 2
              demo_table eq_refl eq_refl Hget eq_refl) as (Hins & Hlook & _).
  split; [exact Hins | exact Hlook].
Defined.

(** The row of key 1 is in the table: it cannot be inserted, not even
    after it was deleted through the same editor. *)
Lemma Insert_checks_the_table_not_the_pending_edits_witness :
  GetRow demo_table 1 = inl true /\
  Insert demo_editor [1; 10] = (Some (Errorf "duplicate primary key given"), demo_editor) /\
  fst (Delete demo_editor [1; 10]) = None /\
  fst (Insert (snd (Delete demo_editor [1; 10])) [1; 10])
  = Some (Errorf "duplicate primary key given").
Proof.
  assert (Hget : GetRow demo_table 1 = inl true) by (vm_compute; reflexivity).
  split; [exact Hget|].
  destruct (Insert_checks_the_table_not_the_pending_edits (H := demo_dolt) demo_editor
              [1; 10] [1; 10] 1 demo_table eq_refl eq_refl eq_refl) as (Htaken & _).
  destruct (Htaken Hget) as (Hins & Hdel & Hagain & _).
  split; [exact Hins|]. split; [now rewrite Hdel | now rewrite Hagain].
Defined.

(** Deleting the row of key 1. *)
Lemma Delete_removes_the_key_witness :
  Delete demo_editor [1; 10]
  = (None, {| t := t demo_editor; ed := Some (MapEditor_Remove 1 demo_table) |}) /\
  MapEditor_Remove 1 demo_table !! (1 : Z) = None.
Proof.
  destruct (Delete_removes_the_key (H := demo_dolt) demo_editor [1; 10] [1; 10] 1
              demo_table eq_refl eq_refl eq_refl) as (Hdel & Hlook & _).
  split; [exact Hdel | exact Hlook].
Defined.

(** Inserting and deleting a row of the free key 2. *)
Lemma Insert_then_Delete_restores_the_edits_witness :
  GetRow demo_table 2 = inl false /\ demo_table !! (2 : Z) = None /\
  Delete (snd (Insert demo_editor [2; 20])) [2; 20]
  = (None, {| t := t demo_editor; ed := Some demo_table |}).
Proof.
  assert (Hget : GetRow demo_table 2 = inl false) by (vm_compute; reflexivity).
  assert (Hnew : demo_table !! (2 : Z) = None) by (vm_compute; reflexivity).
  split; [exact Hget|]. split; [exact Hnew|].
  exact (proj2 (Insert_then_Delete_restores_the_edits (H := demo_dolt) demo_editor
                  [2; 20] [2; 20] 2 demo_table eq_refl eq_refl Hget eq_refl Hnew)).
Defined.

(** Changing the value of the row of key 1. *)
Lemma Update_with_the_same_key_sets_the_row_witness :
  Update demo_editor [1; 10] [1; 11]
  = (None, {| t := t demo_editor; ed := Some (MapEditor_Set 1 [11] demo_table) |}) /\
  MapEditor_Set 1 [11] demo_table !! (1 : Z) = Some [11].
Proof.
  destruct (Update_with_the_same_key_sets_the_row (H := demo_dolt) demo_editor
              [1; 10] [1; 11] [1; 10] [1; 11] 1 demo_table
              eq_refl eq_refl eq_refl eq_refl eq_refl) as (Hupd & Hlook & _).
  split; [exact Hupd | exact Hlook].
Defined.

(** Moving the row of key 1 to the key 3, which is taken. *)
Lemma Update_refuses_a_key_of_the_table_witness :
  (1 : Z) <> 3 /\ GetRow demo_table 3 = inl true /\
  Update demo_editor [1; 10] [3; 31]
  = (Some (Errorf "primary key collision: (3, 31)"),
     {| t := t demo_editor; ed := Some demo_table |}).
Proof.
  assert (Hne : (1 : Z) <> 3) by discriminate.
  assert (Hget : GetRow demo_table 3 = inl true) by (vm_compute; reflexivity).
  split; [exact Hne|]. split; [exact Hget|].
  exact (proj1 (Update_refuses_a_key_of_the_table (H := demo_dolt) demo_editor
                  [1; 10] [3; 31] [1; 10] [3; 31] 1 3 demo_table
                  eq_refl eq_refl eq_refl eq_refl Hne Hget eq_refl)).
Defined.

(** Closing an editor whose table has no name: [PutTable] refuses it,
    and neither the table nor the root changes. *)
Lemma Close_writes_all_or_nothing_witness :
  fst (fst (Close nameless_editor demo_db))
  = Some (DError "failed to write table back to database" tt) /\
  t (snd (fst (Close nameless_editor demo_db))) = t nameless_editor /\
  snd (Close nameless_editor demo_db) = demo_db.
Proof.
  destruct (Close_writes_all_or_nothing (H := demo_dolt) (H0 := demo_store)
              nameless_editor demo_db)
    as (_ & _ & _ & _ & _ & Hput & _).
  exact (Hput (MapEditor_Set 2 [20] demo_table) (MapEditor_Set 2 [20] demo_table)
           (MapEditor_Set 2 [20] demo_table) tt eq_refl eq_refl eq_refl eq_refl).
Defined.

End EditorOpsFacts.
